(** * The shell tutorial's C programs, embedded and checked against its specification

    The repository holds [ls-shell.c], [argv-shell.c] and two revisions of
    [simple-pipe.c] (the standalone file and the listing printed in the
    tutorial text); the text also prints [fork.c] and [fork-broken.c].
    Each is embedded below as a function over an explicit model of what the
    kernel keeps per process: a descriptor table, a process id and the
    sequence of calls the process has made; the two [fork] programs over a
    model of the [stdout] buffer.  [argv-shell.c] is embedded twice: with
    the input stream the shell's own ([ArgvShell]), and with descriptor 0
    shared with the children ([SharedStdin]), of which the former is the
    case where the children leave the descriptor alone. *)

From Stdlib Require Import ZArith Ascii String Lia.
From stdpp Require Import base decidable option list numbers strings pretty.

Local Open Scope string_scope.
Local Open Scope list_scope.
Local Open Scope nat_scope.

(** ** Descriptor tables *)

Module Fd.

(** What a descriptor refers to: something the process was started with, or
    one end of the [k]-th pipe the program itself created. *)
Inductive file :=
| Inherited (n : nat)
| PipeRead (k : nat)
| PipeWrite (k : nat).

#[global] Instance file_eq_dec : EqDecision file.
Proof. solve_decision. Defined.

(** The table is the kernel's array of slots, indexed by descriptor number. *)
Abbreviation fdtable := (list (option file)).

Definition fd_get (t : fdtable) (fd : nat) : option file :=
  default None (t !! fd).

(** The lowest unused descriptor number, which is the one [pipe] hands out. *)
Fixpoint lowest_free (t : fdtable) : nat :=
  match t with
  | [] => 0
  | None :: _ => 0
  | Some _ :: t' => S (lowest_free t')
  end.

(** Installing at a slot beyond the end grows the array. *)
Definition fd_install (fd : nat) (f : file) (t : fdtable) : fdtable :=
  if decide (fd < length t) then <[fd := Some f]> t
  else t ++ replicate (fd - length t) None ++ [Some f].

(** [close(fd)]: the slot is emptied; closing an unused slot changes nothing
    (the call returns EBADF, which the programs never look at). *)
Definition close (fd : nat) (t : fdtable) : fdtable := <[fd := None]> t.

(** [dup2(oldfd, newfd)]: an unused [oldfd] is an error and changes nothing,
    equal descriptors change nothing, otherwise [newfd] is silently closed
    and made to refer to what [oldfd] refers to. *)
Definition dup2 (oldfd newfd : nat) (t : fdtable) : fdtable :=
  match fd_get t oldfd with
  | None => t
  | Some f => if decide (oldfd = newfd) then t else fd_install newfd f t
  end.

(** [pipe(pipe_fds)]: pipe number [k] gets the two lowest unused slots, read
    end first. *)
Definition pipe (k : nat) (t : fdtable) : nat * nat * fdtable :=
  let r := lowest_free t in
  let t1 := fd_install r (PipeRead k) t in
  let w := lowest_free t1 in
  (r, w, fd_install w (PipeWrite k) t1).

Definition is_pipe_end (o : option file) : bool :=
  match o with
  | Some (PipeRead _) | Some (PipeWrite _) => true
  | _ => false
  end.

Definition refers_to_pipe (t : fdtable) (fd : nat) : bool :=
  is_pipe_end (fd_get t fd).

(** The descriptors of a table that refer to some pipe end, in increasing
    order. *)
Definition open_pipe_fds (t : fdtable) : list nat :=
  filter (λ fd, refers_to_pipe t fd = true) (seq 0 (length t)).

(** The table a program starts with holds inherited files only. *)
Definition boot (t0 : list (option nat)) : fdtable :=
  (λ o : option nat, Inherited <$> o) <$> t0.

(** Descriptors 0 and 1 are in use. *)
Definition stdio_open (t : fdtable) : Prop :=
  is_Some (fd_get t 0) ∧ is_Some (fd_get t 1).

End Fd.

(** ** Processes and the calls they make *)

Module Proc.
Import Fd.

(** One entry per call a process makes, in program order. *)
Inductive event :=
| EPipe (r w : nat)
| EFork (ret : Z)
| EDup2 (oldfd newfd : nat)
| EClose (fd : nat)
| EExecv (path : string) (argv : list string)
| EGetline (text : list ascii)
| EWaitpid (pid status : Z)
| EPrintf (msg : string)
| EStderr (msg : string)
| EPerror (msg : string)
| EReturn (code : Z).

#[global] Instance event_eq_dec : EqDecision event.
Proof. solve_decision. Defined.

(** How a program that was exec'ed ends, as far as its parent can tell: it
    exits with a code, is killed by a signal (with or without a core dump),
    or never ends. *)
Inductive termination :=
| Exits (code : Z)
| Killed (sig : Z) (core : bool)
| Never.

(** Where a process stands: still in the C program, replaced by another
    image after a successful [execv], returned from [main], blocked for
    ever in [waitpid], or past a store outside an array (from where on C
    promises nothing). *)
Inductive standing :=
| Running
| Image (path : string) (argv : list string) (ends : termination)
| Returned (code : Z)
| Waiting (child : Z)
| Undefined.

Record proc := Proc {
  pid : Z;
  fds : fdtable;
  npipes : nat;
  log : list event;
  now : standing
}.

(** The file system and the programs in it: [None] when [execv] of that path
    fails, otherwise how the new image ends. *)
Definition world := string → list string → option termination.

Definition start (self : Z) (t : fdtable) : proc :=
  Proc self t 0 [] Running.

Definition record (e : event) (p : proc) : proc :=
  Proc (pid p) (fds p) (npipes p) (log p ++ [e]) (now p).

Definition with_fds (t : fdtable) (p : proc) : proc :=
  Proc (pid p) t (npipes p) (log p) (now p).

Definition sys_pipe (p : proc) : (nat * nat) * proc :=
  let '(r, w, t) := Fd.pipe (npipes p) (fds p) in
  ((r, w), Proc (pid p) t (S (npipes p)) (log p ++ [EPipe r w]) (now p)).

(** [fork] returns twice: the caller goes on with the child's id; the child,
    a copy with its own id whose history starts here, goes on with 0. *)
Definition sys_fork (c : Z) (p : proc) : proc * proc :=
  (record (EFork c) p, Proc c (fds p) (npipes p) [EFork 0] Running).

Definition sys_dup2 (oldfd newfd : nat) (p : proc) : proc :=
  record (EDup2 oldfd newfd) (with_fds (Fd.dup2 oldfd newfd (fds p)) p).

Definition sys_close (fd : nat) (p : proc) : proc :=
  record (EClose fd) (with_fds (Fd.close fd (fds p)) p).

(** An empty path never names a file (ENOENT). *)
Definition exec_result (W : world) (path : string) (argv : list string)
  : option termination :=
  if decide (path = "") then None else W path argv.

(** [execv(path, argv)] followed by the code after it: that code runs only
    when the call comes back, which it does only on failure.  Descriptors
    stay as they are across the call (none is marked close-on-exec). *)
Definition sys_execv (W : world) (path : string) (argv : list string)
    (p : proc) (otherwise : proc → proc) : proc :=
  let p := record (EExecv path argv) p in
  match exec_result W path argv with
  | Some ends => Proc (pid p) (fds p) (npipes p) (log p) (Image path argv ends)
  | None => otherwise p
  end.

Definition sys_return (code : Z) (p : proc) : proc :=
  Proc (pid p) (fds p) (npipes p) (log p ++ [EReturn code]) (Returned code).

Definition stand (s : standing) (p : proc) : proc :=
  Proc (pid p) (fds p) (npipes p) (log p) s.

(** The status word [waitpid] stores for a child that ended: the low byte of
    the exit code shifted left by 8, or the signal number (plus 128 when a
    core was dumped). *)
Definition status_word (t : termination) : option Z :=
  match t with
  | Exits code => Some (Z.shiftl (Z.land code 255) 8)
  | Killed sig core => Some (Z.lor (Z.land sig 127) (if core then 128 else 0))
  | Never => None
  end.

(** What [waitpid] on a child yields, [None] when the child never ends. *)
Definition reap (child : proc) : option Z :=
  match now child with
  | Image _ _ ends => status_word ends
  | Returned code => status_word (Exits code)
  | _ => None
  end.

Definition forks (p : proc) : list Z :=
  omap (λ e, match e with EFork c => if decide (c = 0%Z) then None else Some c | _ => None end) (log p).

Definition waits (p : proc) : list (Z * Z) :=
  omap (λ e, match e with EWaitpid c s => Some (c, s) | _ => None end) (log p).

Definition writes (p : proc) : list string :=
  omap (λ e, match e with
             | EPrintf m | EStderr m | EPerror m => Some m
             | _ => None
             end) (log p).

End Proc.

(** ** [simple-pipe.c], the standalone file *)

Module SimplePipe.
Import Fd Proc.

Definition ls_args : list string := ["/bin/ls"].
Definition wc_args : list string := ["/usr/bin/wc"; "-l"].

(** The [if (fork()) ... else ...] of [main], run by each of the two
    processes with its own return value of [fork].  [pipe_fds] is
    (read_end, write_end).  When [execv] fails control reaches the end of
    [main], which returns 0. *)
Definition after_fork (W : world) (pipe_fds : nat * nat) (ret : Z) (p : proc) : proc :=
  if decide (ret ≠ 0%Z) then
    let p := sys_dup2 (pipe_fds.2) 1 p in
    let p := sys_close (pipe_fds.1) p in
    sys_execv W "/bin/ls" ls_args p (sys_return 0)
  else
    let p := sys_dup2 (pipe_fds.1) 0 p in
    let p := sys_close (pipe_fds.2) p in
    sys_execv W "/usr/bin/wc" wc_args p (sys_return 0).

(** [main], as the pair (calling process, forked process). *)
Definition main (W : world) (c : Z) (p : proc) : proc * proc :=
  let '(pipe_fds, p) := sys_pipe p in
  let '(parent, child) := sys_fork c p in
  (after_fork W pipe_fds c parent, after_fork W pipe_fds 0%Z child).

(** The two stages in pipeline order: [/bin/ls] feeds [/usr/bin/wc -l]. *)
Definition stages (W : world) (c : Z) (p : proc) : list proc :=
  let '(parent, child) := main W c p in [parent; child].

End SimplePipe.

(** ** [simple-pipe.c], the listing in the tutorial text *)

Module SimplePipeListing.
Import Fd Proc.

Definition ls_args : list string := ["/bin/ls"].
Definition wc_args : list string := ["/usr/bin/wc"; "-l"].

Definition after_fork (W : world) (pipe_fds : nat * nat) (ret : Z) (p : proc) : proc :=
  if decide (ret ≠ 0%Z) then
    let p := sys_dup2 (pipe_fds.2) 1 p in
    let p := sys_close (pipe_fds.2) p in
    let p := sys_close (pipe_fds.1) p in
    sys_execv W "/bin/ls" ls_args p (sys_return 0)
  else
    let p := sys_dup2 (pipe_fds.1) 0 p in
    let p := sys_close (pipe_fds.1) p in
    let p := sys_close (pipe_fds.2) p in
    sys_execv W "/usr/bin/wc" wc_args p (sys_return 0).

Definition main (W : world) (c : Z) (p : proc) : proc * proc :=
  let '(pipe_fds, p) := sys_pipe p in
  let '(parent, child) := sys_fork c p in
  (after_fork W pipe_fds c parent, after_fork W pipe_fds 0%Z child).

Definition stages (W : world) (c : Z) (p : proc) : list proc :=
  let '(parent, child) := main W c p in [parent; child].

End SimplePipeListing.

(** ** [ls-shell.c] *)

Module LsShell.
Import Fd Proc.

Definition nl : string := String "010" "".

Definition ls_argv : list string := ["/bin/ls"].

(** [main] from the [if (!fork())] on, for one return value of [fork]. *)
Definition after_fork (W : world) (ret : Z) (p : proc) : proc :=
  if decide (ret = 0%Z) then
    (* we're the child: execute ls *)
    sys_execv W "/bin/ls" ls_argv p
      (λ p, sys_return 1 (record (EPerror ("uh oh, execv() returned" +:+ nl)) p))
  else
    (* we're the parent *)
    sys_return 0 (record (EPrintf ("hope that worked" +:+ nl)) p).

Definition main (W : world) (c : Z) (p : proc) : proc * proc :=
  let '(parent, child) := sys_fork c p in
  (after_fork W c parent, after_fork W 0%Z child).

End LsShell.

(** ** C strings in a buffer *)

Module CStr.

Definition NUL : ascii := "000"%char.
Definition SP : ascii := " "%char.
Definition LF : ascii := "010"%char.

(** [strchr] scanning [s], whose first character sits at offset [p] of the
    buffer: the offset of the first [c], or [None] (the null pointer) when
    the terminator comes first. *)
Fixpoint strchr_from (s : list ascii) (p : nat) (c : ascii) : option nat :=
  match s with
  | [] => None
  | x :: s' =>
      if decide (x = c) then Some p
      else if decide (x = NUL) then None
      else strchr_from s' (S p) c
  end.

Definition strchr (buf : list ascii) (p : nat) (c : ascii) : option nat :=
  strchr_from (drop p buf) p c.

(** The string a [char *] at offset [p] denotes: the characters up to the
    first terminator. *)
Fixpoint cstr_from (s : list ascii) : list ascii :=
  match s with
  | [] => []
  | x :: s' => if decide (x = NUL) then [] else x :: cstr_from s'
  end.

Definition cstr (buf : list ascii) (p : nat) : list ascii :=
  cstr_from (drop p buf).

End CStr.

(** ** [argv-shell.c] *)

Module ArgvShell.
Import Fd Proc CStr.

(** The characters of the stream up to and including the first newline, and
    what follows them. *)
Fixpoint read_line (stdin : list ascii) : list ascii * list ascii :=
  match stdin with
  | [] => ([], [])
  | x :: rest =>
      if decide (x = LF) then ([x], rest)
      else let '(l, r) := read_line rest in (x :: l, r)
  end.

(** [getline(&line, &line_size, stdin)]: the number of characters read, the
    buffer holding them followed by a terminator, and the rest of the
    stream; -1 at end of input. *)
Definition getline (stdin : list ascii) : Z * list ascii * list ascii :=
  match stdin with
  | [] => ((-1)%Z, [], [])
  | _ => let '(l, r) := read_line stdin in (Z.of_nat (length l), l ++ [NUL], r)
  end.

(** [line[n - 1] = '\0'] *)
Definition erase_last (n : Z) (line : list ascii) : list ascii :=
  <[Z.to_nat (n - 1) := NUL]> line.

Inductive split_result :=
| Split (line : list ascii) (words : list (option nat))
| Overrun
| OutOfFuel.

(** The loop [for (int i = 1; words[i] = strchr(words[i - 1], ' '); ++i)
    *(words[i]++) = '\0';].  A pointer into [line] is an offset, [None] is
    the null pointer.  The store to [words[i]] comes before the test, so it
    happens on the last round too; a store outside the array is [Overrun]. *)
Fixpoint split_loop (fuel : nat) (line : list ascii) (words : list (option nat))
    (i : nat) : split_result :=
  match fuel with
  | 0 => OutOfFuel
  | S fuel =>
      match words !! (i - 1) with
      | Some (Some prev) =>
          let found := strchr line prev SP in
          if decide (i < length words) then
            let words := <[i := found]> words in
            match found with
            | None => Split line words
            | Some q =>
                split_loop fuel (<[q := NUL]> line) (<[i := Some (S q)]> words) (S i)
            end
          else Overrun
      | _ => Overrun
      end
  end.

(** [words[0] = line;] and the loop.  Each round moves at least one
    character forward, so the length of the buffer is fuel enough. *)
Definition split (line : list ascii) (words : list (option nat)) : split_result :=
  split_loop (length line) line (<[0 := Some 0]> words) 1.

(** The argument vector [execv] reads from [words]: the strings pointed to,
    up to the first null pointer; [None] when the array holds none. *)
Fixpoint argv_of (line : list ascii) (words : list (option nat))
  : option (list (list ascii)) :=
  match words with
  | [] => None
  | None :: _ => Some []
  | Some p :: rest => (cstr line p ::.) <$> argv_of line rest
  end.

Definition status_line (child_status : Z) : string :=
  "child exited with status " +:+ pretty child_status +:+ String LF "".

(** The [if (child = fork()) ... else ...] of the loop body, for one return
    value of [fork].  [reaped] is what [waitpid] on that child yields. *)
Definition after_fork (W : world) (line : list ascii) (words : list (option nat))
    (ret : Z) (reaped : option Z) (p : proc) : proc :=
  if decide (ret ≠ 0%Z) then
    (* Parent process: wait for the child *)
    match reaped with
    | Some child_status =>
        record (EStderr (status_line child_status))
          (record (EWaitpid ret child_status) p)
    | None => stand (Waiting ret) p
    end
  else
    (* Child process: exec or complain *)
    match words !! 0, argv_of line words with
    | Some (Some w0), Some argv =>
        sys_execv W (string_of_list_ascii (cstr line w0))
          (string_of_list_ascii <$> argv) p
          (λ p, sys_return 1 (record (EPerror "execv() failed") p))
    | _, _ => stand Undefined p
    end.

(** A run of the shell: the shell's own process and the children it made,
    oldest first. *)
Record run := Run { shell : proc; children : list proc }.

(** The [while ((n = getline(...)) > 0)] loop.  [pids k] is the id the
    kernel gives the [k]-th child.  Falling off the end of [main] returns
    0.  [stdin] is what descriptor 0 has left for the shell to read.  Here
    it passes from one round to the next as the shell left it: this is the
    run in which no child reads from descriptor 0 or moves its offset.  The
    children do hold that descriptor; [SharedStdin.loop] below is the same
    loop with what they do to it taken into account. *)
Fixpoint loop (W : world) (pids : nat → Z) (fuel : nat) (stdin : list ascii)
    (words : list (option nat)) (p : proc) (kids : list proc) : run :=
  match fuel with
  | 0 => Run p kids
  | S fuel =>
      let '(n, line, stdin) := getline stdin in
      let p := record (EGetline (take (Z.to_nat n) line)) p in
      if decide (0 < n)%Z then
        (* Erase ending newline by shortening the string by one *)
        let line := erase_last n line in
        (* Split the line into argv words on spaces *)
        match split line words with
        | Split line words =>
            let c := pids (length kids) in
            let '(parent, child) := sys_fork c p in
            let child := after_fork W line words 0%Z None child in
            let parent := after_fork W line words c (reap child) parent in
            match now parent with
            | Running => loop W pids fuel stdin words parent (kids ++ [child])
            | _ => Run parent (kids ++ [child])
            end
        | _ => Run (stand Undefined p) kids
        end
      else Run (sys_return 0 p) kids
  end.

(** [main].  [char *words[256]] is not initialised: slot [i] holds
    whatever [junk i] is on entry.  Every round of the loop reads at least
    one character, so one round more than the stream has characters is
    fuel enough. *)
Definition main (W : world) (pids : nat → Z) (stdin : list ascii)
    (junk : nat → option nat) (p : proc) : run :=
  loop W pids (S (length stdin)) stdin (junk <$> seq 0 256) p [].

(** The number of fields a line of text has when cut at every space. *)
Definition fields (text : list ascii) : nat :=
  S (length (filter (λ x, x = SP) text)).

End ArgvShell.

(** ** [argv-shell.c] with descriptor 0 shared

    [fork] gives every child the shell's descriptor 0, the same open file
    with the same offset, and [execv] passes it on to the program.  What
    the shell's next [getline] finds is therefore not the shell's alone to
    decide: a program can read the lines that follow its own, and a child
    that returns from [main] flushes its copy of [stdin], which on a file
    that can seek moves the shared offset back to where that copy stood, so
    that text the shell holds in its buffer already is served once more. *)

Module SharedStdin.
Import Fd Proc CStr ArgvShell.

(** What the children do to descriptor 0: [share k kid rest] is what the
    shell finds left to read once its [k]-th child, [kid], has ended, where
    [rest] is what was left when [kid] was forked. *)
Definition sharing := nat → proc → list ascii → list ascii.

(** The children leave the descriptor alone. *)
Definition untouched : sharing := λ _ _ rest, rest.

(** The loop of [main].  With children that give text back the loop need
    not end, so [fuel] counts rounds: a run out of fuel is returned as it
    stands between two rounds, the shell still running. *)
Fixpoint loop (W : world) (pids : nat → Z) (share : sharing) (fuel : nat)
    (stdin : list ascii) (words : list (option nat)) (p : proc)
    (kids : list proc) : run :=
  match fuel with
  | 0 => Run p kids
  | S fuel =>
      let '(n, line, stdin) := getline stdin in
      let p := record (EGetline (take (Z.to_nat n) line)) p in
      if decide (0 < n)%Z then
        (* Erase ending newline by shortening the string by one *)
        let line := erase_last n line in
        (* Split the line into argv words on spaces *)
        match split line words with
        | Split line words =>
            let c := pids (length kids) in
            let '(parent, child) := sys_fork c p in
            let child := after_fork W line words 0%Z None child in
            let parent := after_fork W line words c (reap child) parent in
            match now parent with
            | Running =>
                loop W pids share fuel (share (length kids) child stdin) words
                  parent (kids ++ [child])
            | _ => Run parent (kids ++ [child])
            end
        | _ => Run (stand Undefined p) kids
        end
      else Run (sys_return 0 p) kids
  end.

Definition main (W : world) (pids : nat → Z) (share : sharing) (fuel : nat)
    (stdin : list ascii) (junk : nat → option nat) (p : proc) : run :=
  loop W pids share fuel stdin (junk <$> seq 0 256) p [].

End SharedStdin.

(** ** Cutting a text at a character *)

Module Words.

(** The pieces of [s] between the occurrences of [c]; there is always at
    least one piece, and a piece is empty where [s] starts or ends with
    [c] or has two in a row. *)
Fixpoint cut_at (c : ascii) (s : list ascii) : list (list ascii) :=
  match s with
  | [] => [[]]
  | x :: s' =>
      if decide (x = c) then [] :: cut_at c s'
      else match cut_at c s' with
           | w :: ws => (x :: w) :: ws
           | [] => [[x]]
           end
  end.

(** The pieces put together again with one [c] between neighbours. *)
Fixpoint join (c : ascii) (ws : list (list ascii)) : list ascii :=
  match ws with
  | [] => []
  | w :: ws' =>
      match ws' with
      | [] => w
      | _ :: _ => w ++ c :: join c ws'
      end
  end.

(** The lines of a stream as [getline] hands them out: each ends with its
    newline, except a last one cut short by the end of the stream. *)
Fixpoint lines (stdin : list ascii) : list (list ascii) :=
  match stdin with
  | [] => []
  | x :: rest =>
      if decide (x = CStr.LF) then [x] :: lines rest
      else match lines rest with
           | l :: ls => (x :: l) :: ls
           | [] => [[x]]
           end
  end.

(** A piece the word loop can walk over: no space and no terminator in
    it. *)
Definition plain (w : list ascii) : Prop := (CStr.SP ∉ w) ∧ (CStr.NUL ∉ w).

End Words.

(** ** The run of [argv-shell.c], told line by line

    The same run as [ArgvShell.main], without buffers and pointers: proved
    equal to it below ([ArgvShellRefine.main_run_lines]) for streams whose
    lines fit the [words] array. *)

Module Rounds.
Import Fd Proc CStr ArgvShell Words.

(** The command the loop body sees in a line it has read: the line with
    its last character overwritten by a terminator, as a C string. *)
Definition command (text : list ascii) : list ascii :=
  cstr (erase_last (Z.of_nat (length text)) (text ++ [NUL])) 0.

Definition argv_for (text : list ascii) : list string :=
  string_of_list_ascii <$> cut_at SP (command text).

(** The child forked for a line, from its birth to its [execv] and what
    follows a failed one. *)
Definition child_of (W : world) (text : list ascii) (c : Z) (p : proc) : proc :=
  sys_execv W (hd "" (argv_for text)) (argv_for text)
    (Proc c (fds p) (npipes p) [EFork 0] Running)
    (λ q, sys_return 1 (record (EPerror "execv() failed") q)).

(** The shell after it has read a line and forked. *)
Definition forked (text : list ascii) (c : Z) (p : proc) : proc :=
  record (EFork c) (record (EGetline text) p).

(** The shell after it has also waited for that child and written its
    status. *)
Definition reported (text : list ascii) (c s : Z) (p : proc) : proc :=
  record (EStderr (status_line s)) (record (EWaitpid c s) (forked text c p)).

Fixpoint run_lines (W : world) (pids : nat → Z) (ls : list (list ascii))
    (p : proc) (kids : list proc) : run :=
  match ls with
  | [] => Run (sys_return 0 (record (EGetline []) p)) kids
  | text :: ls =>
      let c := pids (length kids) in
      let child := child_of W text c p in
      match reap child with
      | Some s => run_lines W pids ls (reported text c s p) (kids ++ [child])
      | None => Run (stand (Waiting c) (forked text c p)) (kids ++ [child])
      end
  end.

End Rounds.

(** ** What the specification asks of a launch *)

(** No descriptor but [std] refers to a pipe end. *)
Definition sealed (std : nat) (t : Fd.fdtable) : Prop :=
  ∀ fd, Fd.refers_to_pipe t fd = true → fd = std.

(** The property of N-stage wiring, for the stages of a launch in pipeline
    order and the number of pipes made for them: one pipe fewer than there are
    stages; every stage but the first reads pipe [i-1] on descriptor 0, every
    stage but the last writes pipe [i] on descriptor 1, the first stage's
    descriptor 0 and the last stage's descriptor 1 are no pipe ends; and
    whatever descriptor of stage [i] refers to a pipe end refers to the read
    end of pipe [i-1] or the write end of pipe [i]. *)
Definition wired (pipes : nat) (stages : list Proc.proc) : Prop :=
  let N := length stages in
  1 ≤ N ∧ pipes = N - 1 ∧
  ∀ i p, stages !! i = Some p →
    (0 < i → Fd.fd_get (Proc.fds p) 0 = Some (Fd.PipeRead (i - 1))) ∧
    (i < N - 1 → Fd.fd_get (Proc.fds p) 1 = Some (Fd.PipeWrite i)) ∧
    (i = 0 → Fd.refers_to_pipe (Proc.fds p) 0 = false) ∧
    (i = N - 1 → Fd.refers_to_pipe (Proc.fds p) 1 = false) ∧
    ∀ fd k,
      (Fd.fd_get (Proc.fds p) fd = Some (Fd.PipeRead k) → S k = i) ∧
      (Fd.fd_get (Proc.fds p) fd = Some (Fd.PipeWrite k) → k = i ∧ i < N - 1).

(** A launch that gives every stage a new process of its own and reaps them
    all: the ids [fork] returned to the launcher are the ids of the stages,
    in pipeline order, none is the launcher itself, and the launcher waited
    for each of them in that order. *)
Definition job_of_children (launcher : Proc.proc) (stages : list Proc.proc) : Prop :=
  Proc.forks launcher = Proc.pid <$> stages
  ∧ Forall (λ p, Proc.pid p ≠ Proc.pid launcher) stages
  ∧ (Proc.waits launcher).*1 = Proc.pid <$> stages.

(** ** What the specification asks of the shell *)

(** The text the user typed on a line: the line without its newline. *)
Definition typed (text : list ascii) : list ascii :=
  if decide (last text = Some CStr.LF) then take (length text - 1) text else text.

(** No child is handed an empty argument. *)
Definition no_empty_argv (R : ArgvShell.run) : Prop :=
  ∀ kid path argv,
    kid ∈ ArgvShell.children R → Proc.EExecv path argv ∈ Proc.log kid →
    "" ∉ argv.

(** A run in which the shell made no child and wrote nothing. *)
Definition quiet (R : ArgvShell.run) : Prop :=
  ArgvShell.children R = [] ∧ Proc.writes (ArgvShell.shell R) = [].

(** The reaping discipline as an automaton over the shell's history.  Its
    state is [Some None] when no child is outstanding, [Some (Some c)] when
    child [c] has been forked and not yet waited for, and [None] once the
    discipline is broken: by a wait with no child outstanding or for another
    id than the outstanding one, or by any other call (reading the next
    line, forking again, writing, returning) while a child is outstanding. *)
Definition reap_step (st : option (option Z)) (e : Proc.event) : option (option Z) :=
  match st with
  | None => None
  | Some None =>
      match e with
      | Proc.EFork c => Some (Some c)
      | Proc.EWaitpid _ _ => None
      | _ => Some None
      end
  | Some (Some c) =>
      match e with
      | Proc.EWaitpid c' _ => if decide (c' = c) then Some None else None
      | _ => None
      end
  end.

Definition reaping (history : list Proc.event) : option (option Z) :=
  foldl reap_step (Some None) history.

Section run_state.
Import Proc ArgvShell.

(** The state of a run between two lines: the shell is running, the ids
    [fork] returned are those of the children, no child is outstanding,
    every child was waited for once, in order, for the status it ended
    with, and every status was written. *)
Record settled (p : Proc.proc) (kids : list Proc.proc) : Prop := Settled {
  settled_now : now p = Running;
  settled_forks : forks p = pid <$> kids;
  settled_reaping : reaping (log p) = Some None;
  settled_waits :
    Forall2 (λ kid cs, pid kid = cs.1 ∧ reap kid = Some cs.2) kids (waits p);
  settled_writes : writes p = status_line <$> (waits p).*2
}.

(** The same for the end of a run: the shell has returned 0 with all
    children reaped, or it is blocked waiting for the last child, which
    never ends. *)
Definition ended (R : ArgvShell.run) : Prop :=
  forks (shell R) = pid <$> children R ∧
  writes (shell R) = status_line <$> (waits (shell R)).*2 ∧
  ((now (shell R) = Returned 0 ∧ reaping (log (shell R)) = Some None ∧
    Forall2 (λ kid cs, pid kid = cs.1 ∧ reap kid = Some cs.2)
      (children R) (waits (shell R)))
   ∨ (∃ c kids last,
        now (shell R) = Waiting c ∧ reaping (log (shell R)) = Some (Some c) ∧
        children R = kids ++ [last] ∧ pid last = c ∧ reap last = None ∧
        Forall2 (λ kid cs, pid kid = cs.1 ∧ reap kid = Some cs.2)
          kids (waits (shell R)))).

End run_state.

(** ** [fork.c] and [fork-broken.c]

    These two print through [stdout], whose buffer lives in the memory of
    the process and is copied by [fork] with the rest of it.  The programs
    print under a hundred characters, so a fully buffered stream never
    fills up on its own. *)

Module Stdio.

Inductive buffering := Unbuffered | LineBuffered | FullyBuffered.

(** What a line-buffered stream lets out of the text it holds, everything
    up to and including the last newline, and what it keeps. *)
Fixpoint through_last_newline (s : string) : string * string :=
  match s with
  | "" => ("", "")
  | String x s' =>
      let '(out, keep) := through_last_newline s' in
      if decide (out = "") then
        if decide (x = CStr.LF) then (String x "", keep) else ("", String x keep)
      else (String x out, keep)
  end.

(** A process as far as its standard output goes: what its stream still
    holds, what the process itself has written to descriptor 1, and the
    value [main] returned. *)
Record proc := Proc {
  pid : Z;
  mode : buffering;
  pending : string;
  written : string;
  returned : option Z
}.

Definition start (m : buffering) (self : Z) : proc := Proc self m "" "" None.

Definition printf (s : string) (p : proc) : proc :=
  let all := pending p +:+ s in
  match mode p with
  | Unbuffered => Proc (pid p) (mode p) "" (written p +:+ all) (returned p)
  | LineBuffered =>
      let '(out, keep) := through_last_newline all in
      Proc (pid p) (mode p) keep (written p +:+ out) (returned p)
  | FullyBuffered => Proc (pid p) (mode p) all (written p) (returned p)
  end.

Definition fflush (p : proc) : proc :=
  Proc (pid p) (mode p) "" (written p +:+ pending p) (returned p).

(** The child is a copy, buffer included, that has written nothing itself
    yet. *)
Definition fork (c : Z) (p : proc) : proc * proc :=
  (p, Proc c (mode p) (pending p) "" (returned p)).

(** Returning from [main] exits, and exiting flushes. *)
Definition sys_return (code : Z) (p : proc) : proc :=
  let p := fflush p in
  Proc (pid p) (mode p) (pending p) (written p) (Some code).

End Stdio.

Module ForkC.
Import Stdio.

(** [printf("fork returned %d\n", fork()); return 0;] for one return value
    of [fork], which is called before [printf] is. *)
Definition after_fork (ret : Z) (p : proc) : proc :=
  sys_return 0 (printf ("fork returned " +:+ pretty ret +:+ LsShell.nl) p).

Definition main (m : buffering) (self c : Z) : proc * proc :=
  let p := printf ("starting up..." +:+ LsShell.nl) (start m self) in
  let p := fflush p in
  let '(parent, child) := fork c p in
  (after_fork c parent, after_fork 0%Z child).

End ForkC.

Module ForkBroken.
Import Stdio.

Definition after_fork (ret : Z) (p : proc) : proc :=
  sys_return 0 (printf ("fork returned " +:+ pretty ret +:+ LsShell.nl) p).

Definition main (m : buffering) (self c : Z) : proc * proc :=
  let p :=
    printf ("starting up (we'll get this message twice)..." +:+ LsShell.nl)
      (start m self) in
  let '(parent, child) := fork c p in
  (after_fork c parent, after_fork 0%Z child).

End ForkBroken.

(** ** More to read off a shell's history *)

(** The lines the shell has read, in order; the empty one is the end of the
    stream. *)
Definition reads (p : Proc.proc) : list (list ascii) :=
  omap (λ e, match e with Proc.EGetline text => Some text | _ => None end)
    (Proc.log p).

(** What the word loop does to a character: a space becomes a
    terminator. *)
Definition space_to_NUL (x : ascii) : ascii :=
  if decide (x = CStr.SP) then CStr.NUL else x.

(** ** What the specification asks of a stage whose [execv] fails *)




(** ** What the specification asks of the command a line is run as *)

(** The command a child ran, as text: the arguments its [execv] was given,
    with one space between neighbours. *)
Definition executed (kid : Proc.proc) : option (list ascii) :=
  head (omap (λ e, match e with
                   | Proc.EExecv _ argv =>
                       Some (Words.join CStr.SP (list_ascii_of_string <$> argv))
                   | _ => None
                   end) (Proc.log kid)).

(** For every line read and the child made for it: the command run is the
    typed text exactly when the line ends with a newline. *)
Definition runs_what_was_typed (R : ArgvShell.run) : Prop :=
  Forall2
    (λ text kid, executed kid = Some (typed text) ↔ last text = Some CStr.LF)
    (take (length (ArgvShell.children R)) (reads (ArgvShell.shell R)))
    (ArgvShell.children R).

(** * Facts about the model *)

(** ** Descriptor tables *)

Module FdFacts.
Import Fd.

Section lemmas.
Implicit Types (t : fdtable) (f : file) (fd : nat).

Lemma fd_get_ge t fd : length t ≤ fd → fd_get t fd = None.
Proof. intros H. unfold fd_get. by rewrite lookup_ge_None_2. Qed.

Lemma fd_get_Some_lt t fd f : fd_get t fd = Some f → fd < length t.
Proof.
  intros H. destruct (decide (fd < length t)) as [|Hge]; [done|].
  rewrite fd_get_ge in H; [done | lia].
Qed.

Lemma fd_get_install_eq t fd f : fd_get (fd_install fd f t) fd = Some f.
Proof.
  unfold fd_install, fd_get. case_decide as Hlt.
  - by rewrite list_lookup_insert_eq.
  - rewrite lookup_app_r by lia. rewrite lookup_app_r; rewrite length_replicate; [|lia].
    by replace (fd - length t - (fd - length t)) with 0 by lia.
Qed.

Lemma fd_get_install_ne t fd fd' f :
  fd ≠ fd' → fd_get (fd_install fd f t) fd' = fd_get t fd'.
Proof.
  intros Hne. unfold fd_install, fd_get. case_decide as Hlt.
  - by rewrite list_lookup_insert_ne.
  - destruct (decide (fd' < length t)) as [Hlt'|Hge'].
    + by rewrite lookup_app_l.
    + rewrite (lookup_ge_None_2 t fd') by lia.
      rewrite lookup_app_r by lia.
      destruct (decide (fd' - length t < fd - length t)) as [Hin|Hout].
      * rewrite lookup_app_l by (rewrite length_replicate; lia).
        by rewrite lookup_replicate_2.
      * rewrite lookup_app_r by (rewrite length_replicate; lia).
        rewrite length_replicate. rewrite lookup_ge_None_2; [done|]. simpl. lia.
Qed.

Lemma fd_get_close_eq t fd : fd_get (close fd t) fd = None.
Proof.
  unfold close, fd_get. destruct (decide (fd < length t)).
  - by rewrite list_lookup_insert_eq.
  - rewrite lookup_ge_None_2; [done|]. rewrite length_insert. lia.
Qed.

Lemma fd_get_close_ne t fd fd' : fd ≠ fd' → fd_get (close fd t) fd' = fd_get t fd'.
Proof. intros Hne. unfold close, fd_get. by rewrite list_lookup_insert_ne. Qed.

Lemma lowest_free_free t : fd_get t (lowest_free t) = None.
Proof.
  induction t as [|[f|] t IH]; [done| |done]. exact IH.
Qed.

Lemma lowest_free_least t fd : fd < lowest_free t → is_Some (fd_get t fd).
Proof.
  revert fd. induction t as [|[f|] t IH]; simpl; intros fd Hlt; [lia| |lia].
  destruct fd as [|fd]; [by eexists|]. apply IH. lia.
Qed.

Lemma lowest_free_ne t fd : is_Some (fd_get t fd) → lowest_free t ≠ fd.
Proof. intros [f Hf] <-. by rewrite lowest_free_free in Hf. Qed.

Lemma fd_get_dup2_new t oldfd newfd f :
  fd_get t oldfd = Some f → fd_get (dup2 oldfd newfd t) newfd = Some f.
Proof.
  intros Hold. unfold dup2. rewrite Hold. case_decide as Heq.
  - by subst.
  - apply fd_get_install_eq.
Qed.

Lemma fd_get_dup2_ne t oldfd newfd fd :
  newfd ≠ fd → fd_get (dup2 oldfd newfd t) fd = fd_get t fd.
Proof.
  intros Hne. unfold dup2. destruct (fd_get t oldfd); [|done].
  case_decide; [done|]. by apply fd_get_install_ne.
Qed.

Lemma fd_get_boot (inh : list (option nat)) fd :
  fd_get (boot inh) fd = Inherited <$> default None (inh !! fd).
Proof.
  unfold fd_get, boot. rewrite list_lookup_fmap. by destruct (inh !! fd) as [[n|]|].
Qed.

Lemma boot_no_pipe (inh : list (option nat)) fd : refers_to_pipe (boot inh) fd = false.
Proof.
  unfold refers_to_pipe. rewrite fd_get_boot.
  by destruct (default None (inh !! fd)).
Qed.

Lemma elem_of_open_pipe_fds t fd : fd ∈ open_pipe_fds t ↔ refers_to_pipe t fd = true.
Proof.
  unfold open_pipe_fds. rewrite list_elem_of_filter, elem_of_seq. split; [tauto|].
  intros H. split; [done|]. split; [lia|]. simpl.
  unfold refers_to_pipe in H. destruct (fd_get t fd) as [f|] eqn:Hf; [|done].
  by apply fd_get_Some_lt in Hf.
Qed.
End lemmas.

(** What [pipe] does to a table whose descriptors 0 and 1 are in use. *)
Lemma pipe_spec k (t t' : fdtable) r w :
  stdio_open t → pipe k t = (r, w, t') →
  2 ≤ r ∧ 2 ≤ w ∧ r ≠ w ∧
  fd_get t r = None ∧ fd_get t w = None ∧
  fd_get t' r = Some (PipeRead k) ∧ fd_get t' w = Some (PipeWrite k) ∧
  ∀ fd, fd ≠ r → fd ≠ w → fd_get t' fd = fd_get t fd.
Proof.
  intros [H0 H1] Hp. unfold pipe in Hp. injection Hp as <- <- <-.
  set (r := lowest_free t). set (t1 := fd_install r (PipeRead k) t).
  assert (r ≠ 0) as Hr0 by (by apply lowest_free_ne).
  assert (r ≠ 1) as Hr1 by (by apply lowest_free_ne).
  assert (lowest_free t1 ≠ 0) as Hw0.
  { apply lowest_free_ne. subst t1. by rewrite fd_get_install_ne. }
  assert (lowest_free t1 ≠ 1) as Hw1.
  { apply lowest_free_ne. subst t1. by rewrite fd_get_install_ne. }
  assert (lowest_free t1 ≠ r) as Hwr.
  { apply lowest_free_ne. subst t1. rewrite fd_get_install_eq. by eexists. }
  repeat split; try lia.
  - apply lowest_free_free.
  - rewrite <- (fd_get_install_ne t r _ (PipeRead k)) by done. apply lowest_free_free.
  - rewrite fd_get_install_ne by done. apply fd_get_install_eq.
  - apply fd_get_install_eq.
  - intros fd Hfr Hfw. rewrite fd_get_install_ne by done.
    subst t1. by rewrite fd_get_install_ne.
Qed.

End FdFacts.

(** ** Calls *)

Module ProcFacts.
Import Fd Proc.

Lemma fds_execv_return W path argv p code :
  fds (sys_execv W path argv p (sys_return code)) = fds p.
Proof. unfold sys_execv. by destruct (exec_result W path argv). Qed.

Lemma pid_execv_return W path argv p code :
  pid (sys_execv W path argv p (sys_return code)) = pid p.
Proof. unfold sys_execv. by destruct (exec_result W path argv). Qed.

Lemma log_execv_return W path argv p code :
  log (sys_execv W path argv p (sys_return code)) =
  log p ++ EExecv path argv ::
    (if exec_result W path argv is Some _ then [] else [EReturn code]).
Proof.
  unfold sys_execv. destruct (exec_result W path argv); simpl; [done|].
  by rewrite <- app_assoc.
Qed.

End ProcFacts.

(** ** The two revisions of [simple-pipe.c] *)

Module PipeFacts.
Import Fd Proc FdFacts ProcFacts.

Section tables.
Context (t0 t : fdtable) (r w : nat).
Hypothesis Hstd : stdio_open t0.
Hypothesis Hpipe : pipe 0 t0 = (r, w, t).

Local Ltac facts :=
  destruct (pipe_spec 0 t0 t r w Hstd Hpipe)
    as (Hr & Hw & Hrw & Hr0 & Hw0 & Hgr & Hgw & Hother).

Local Ltac fd_simpl :=
  repeat first
    [ rewrite fd_get_close_eq
    | rewrite fd_get_close_ne by lia
    | rewrite (fd_get_dup2_new _ _ _ (PipeWrite 0)) by
        (repeat (rewrite fd_get_close_ne by lia); done)
    | rewrite (fd_get_dup2_new _ _ _ (PipeRead 0)) by
        (repeat (rewrite fd_get_close_ne by lia); done)
    | rewrite fd_get_dup2_ne by lia ].

(** The table of the [/bin/ls] process of the standalone file. *)
Lemma standalone_ls fd :
  fd_get (close r (dup2 w 1 t)) fd =
    if decide (fd = 1) then Some (PipeWrite 0)
    else if decide (fd = w) then Some (PipeWrite 0)
    else if decide (fd = r) then None
    else fd_get t0 fd.
Proof.
  facts. repeat case_decide; subst; fd_simpl; try done. by apply Hother.
Qed.

Lemma standalone_wc fd :
  fd_get (close w (dup2 r 0 t)) fd =
    if decide (fd = 0) then Some (PipeRead 0)
    else if decide (fd = r) then Some (PipeRead 0)
    else if decide (fd = w) then None
    else fd_get t0 fd.
Proof.
  facts. repeat case_decide; subst; fd_simpl; try done. by apply Hother.
Qed.

Lemma listing_ls fd :
  fd_get (close r (close w (dup2 w 1 t))) fd =
    if decide (fd = 1) then Some (PipeWrite 0)
    else if decide (fd = w) then None
    else if decide (fd = r) then None
    else fd_get t0 fd.
Proof.
  facts. repeat case_decide; subst; fd_simpl; try done. by apply Hother.
Qed.

Lemma listing_wc fd :
  fd_get (close w (close r (dup2 r 0 t))) fd =
    if decide (fd = 0) then Some (PipeRead 0)
    else if decide (fd = r) then None
    else if decide (fd = w) then None
    else fd_get t0 fd.
Proof.
  facts. repeat case_decide; subst; fd_simpl; try done. by apply Hother.
Qed.

Lemma pipe_fds_high : 2 ≤ r ∧ 2 ≤ w ∧ r ≠ w.
Proof. facts. done. Qed.
End tables.

End PipeFacts.

(** ** What [main] of either revision leaves behind *)

Module SimplePipeFacts.
Import Fd Proc FdFacts ProcFacts PipeFacts.

Section launch.
Context (W : world) (c self : Z) (t0 t : fdtable) (r w : nat).
Hypothesis Hc : c ≠ 0%Z.
Hypothesis Hpipe : pipe 0 t0 = (r, w, t).

Local Ltac run :=
  cbv [SimplePipe.main SimplePipe.after_fork SimplePipeListing.main
       SimplePipeListing.after_fork sys_pipe sys_fork start];
  cbn [npipes fds pid log now]; rewrite Hpipe; cbn [fst snd];
  repeat first [ (case_decide; [|done]) | (case_decide; [done|]) ];
  rewrite ?fds_execv_return, ?pid_execv_return, ?log_execv_return;
  try reflexivity.

Lemma standalone_parent_fds :
  fds (SimplePipe.main W c (start self t0)).1 = close r (dup2 w 1 t).
Proof. run. Qed.

Lemma standalone_child_fds :
  fds (SimplePipe.main W c (start self t0)).2 = close w (dup2 r 0 t).
Proof. run. Qed.

Lemma listing_parent_fds :
  fds (SimplePipeListing.main W c (start self t0)).1 =
  close r (close w (dup2 w 1 t)).
Proof. run. Qed.

Lemma listing_child_fds :
  fds (SimplePipeListing.main W c (start self t0)).2 =
  close w (close r (dup2 r 0 t)).
Proof. run. Qed.

Lemma standalone_pids :
  pid (SimplePipe.main W c (start self t0)).1 = self ∧
  pid (SimplePipe.main W c (start self t0)).2 = c.
Proof. split; run. Qed.

Lemma standalone_parent_log :
  log (SimplePipe.main W c (start self t0)).1 =
  [EPipe r w; EFork c; EDup2 w 1; EClose r] ++
  EExecv "/bin/ls" SimplePipe.ls_args ::
    (if exec_result W "/bin/ls" SimplePipe.ls_args is Some _ then []
     else [EReturn 0]).
Proof. run. Qed.

Lemma standalone_child_log :
  log (SimplePipe.main W c (start self t0)).2 =
  [EFork 0; EDup2 r 0; EClose w] ++
  EExecv "/usr/bin/wc" SimplePipe.wc_args ::
    (if exec_result W "/usr/bin/wc" SimplePipe.wc_args is Some _ then []
     else [EReturn 0]).
Proof. run. Qed.

Lemma listing_parent_log :
  log (SimplePipeListing.main W c (start self t0)).1 =
  [EPipe r w; EFork c; EDup2 w 1; EClose w; EClose r] ++
  EExecv "/bin/ls" SimplePipeListing.ls_args ::
    (if exec_result W "/bin/ls" SimplePipeListing.ls_args is Some _ then []
     else [EReturn 0]).
Proof. run. Qed.

Lemma listing_child_log :
  log (SimplePipeListing.main W c (start self t0)).2 =
  [EFork 0; EDup2 r 0; EClose r; EClose w] ++
  EExecv "/usr/bin/wc" SimplePipeListing.wc_args ::
    (if exec_result W "/usr/bin/wc" SimplePipeListing.wc_args is Some _ then []
     else [EReturn 0]).
Proof. run. Qed.
End launch.

End SimplePipeFacts.

(** ** What the pipeline programs leave behind *)

Section simple_pipe.
Import Fd Proc FdFacts ProcFacts PipeFacts SimplePipeFacts.
Context (W : world) (c self : Z) (inh : list (option nat)).
Hypothesis Hstd : stdio_open (boot inh).
Hypothesis Hc : c ≠ 0%Z.

(** The listing does what the tutorial says of it: each process aliases
    its pipe end onto the standard descriptor, closes both descriptors
    [pipe] returned, and only then calls [execv]; no other descriptor
    refers to a pipe end at that call. *)
Lemma listing_seals :
  let '(ls, wc) := SimplePipeListing.main W c (start self (boot inh)) in
  ∃ r w,
    log ls = [EPipe r w; EFork c; EDup2 w 1; EClose w; EClose r] ++
      EExecv "/bin/ls" ["/bin/ls"] ::
        (if exec_result W "/bin/ls" ["/bin/ls"] is Some _ then []
         else [EReturn 0]) ∧
    log wc = [EFork 0; EDup2 r 0; EClose r; EClose w] ++
      EExecv "/usr/bin/wc" ["/usr/bin/wc"; "-l"] ::
        (if exec_result W "/usr/bin/wc" ["/usr/bin/wc"; "-l"] is Some _ then []
         else [EReturn 0]) ∧
    fd_get (fds ls) 1 = Some (PipeWrite 0) ∧
    fd_get (fds wc) 0 = Some (PipeRead 0) ∧
    sealed 1 (fds ls) ∧ sealed 0 (fds wc).
Proof.
  destruct (pipe 0 (boot inh)) as [[r w] t] eqn:Hpipe.
  destruct (pipe_fds_high _ _ _ _ Hstd Hpipe) as (Hr & Hw & Hrw).
  destruct (SimplePipeListing.main W c (start self (boot inh))) as [ls wc] eqn:Hm.
  assert (ls = (SimplePipeListing.main W c (start self (boot inh))).1) as ->
    by (by rewrite Hm).
  assert (wc = (SimplePipeListing.main W c (start self (boot inh))).2) as ->
    by (by rewrite Hm).
  exists r, w.
  rewrite (listing_parent_log W c self _ t r w), (listing_child_log W c self _ t r w),
    (listing_parent_fds W c self _ t r w), (listing_child_fds W c self _ t r w) by done.
  split_and!; try done.
  - rewrite (listing_ls _ _ _ _ Hstd Hpipe). by case_decide.
  - rewrite (listing_wc _ _ _ _ Hstd Hpipe). by case_decide.
  - intros fd. unfold refers_to_pipe. rewrite (listing_ls _ _ _ _ Hstd Hpipe).
    repeat case_decide; try done.
    fold (refers_to_pipe (boot inh) fd). by rewrite boot_no_pipe.
  - intros fd. unfold refers_to_pipe. rewrite (listing_wc _ _ _ _ Hstd Hpipe).
    repeat case_decide; try done.
    fold (refers_to_pipe (boot inh) fd). by rewrite boot_no_pipe.
Qed.
End simple_pipe.

Section standalone.
Import Fd Proc FdFacts ProcFacts PipeFacts SimplePipeFacts.
Context (W : world) (c self : Z) (inh : list (option nat)).
Hypothesis Hstd : stdio_open (boot inh).
Hypothesis Hc : c ≠ 0%Z.

(** In the standalone file each process still holds, at its [execv], the
    descriptor [pipe] returned for the end it aliased. *)
Lemma standalone_leftover :
  ∃ r w t, pipe 0 (boot inh) = (r, w, t) ∧ 2 ≤ r ∧ 2 ≤ w ∧ r ≠ w ∧
    fd_get (fds (SimplePipe.main W c (start self (boot inh))).1) w
      = Some (PipeWrite 0) ∧
    fd_get (fds (SimplePipe.main W c (start self (boot inh))).2) r
      = Some (PipeRead 0).
Proof.
  destruct (pipe 0 (boot inh)) as [[r w] t] eqn:Hpipe.
  destruct (pipe_fds_high _ _ _ _ Hstd Hpipe) as (Hr & Hw & Hrw).
  exists r, w, t. split_and!; try done.
  - rewrite (standalone_parent_fds W c self _ t r w) by done.
    rewrite (standalone_ls _ _ _ _ Hstd Hpipe). repeat case_decide; done || lia.
  - rewrite (standalone_child_fds W c self _ t r w) by done.
    rewrite (standalone_wc _ _ _ _ Hstd Hpipe). repeat case_decide; done || lia.
Qed.

(** Both revisions wire the standard descriptors alike. *)
Lemma revisions_agree_on_stdio fd :
  fd < 2 →
  fd_get (fds (SimplePipe.main W c (start self (boot inh))).1) fd =
  fd_get (fds (SimplePipeListing.main W c (start self (boot inh))).1) fd ∧
  fd_get (fds (SimplePipe.main W c (start self (boot inh))).2) fd =
  fd_get (fds (SimplePipeListing.main W c (start self (boot inh))).2) fd.
Proof.
  intros Hfd.
  destruct (pipe 0 (boot inh)) as [[r w] t] eqn:Hpipe.
  destruct (pipe_fds_high _ _ _ _ Hstd Hpipe) as (Hr & Hw & Hrw).
  rewrite (standalone_parent_fds W c self _ t r w),
    (standalone_child_fds W c self _ t r w),
    (listing_parent_fds W c self _ t r w),
    (listing_child_fds W c self _ t r w) by done.
  rewrite (standalone_ls _ _ _ _ Hstd Hpipe), (standalone_wc _ _ _ _ Hstd Hpipe),
    (listing_ls _ _ _ _ Hstd Hpipe), (listing_wc _ _ _ _ Hstd Hpipe).
  split; repeat case_decide; done || lia.
Qed.

(** The stages of either revision satisfy the wiring property with the one
    pipe [main] made. *)
Lemma standalone_wired :
  wired (npipes (SimplePipe.main W c (start self (boot inh))).1)
    (SimplePipe.stages W c (start self (boot inh))).
Proof.
  destruct (pipe 0 (boot inh)) as [[r w] t] eqn:Hpipe.
  destruct (pipe_fds_high _ _ _ _ Hstd Hpipe) as (Hr & Hw & Hrw).
  unfold SimplePipe.stages.
  destruct (SimplePipe.main W c (start self (boot inh))) as [ls wc] eqn:Hm.
  assert (ls = (SimplePipe.main W c (start self (boot inh))).1) as Hls
    by (by rewrite Hm).
  assert (wc = (SimplePipe.main W c (start self (boot inh))).2) as Hwc
    by (by rewrite Hm).
  assert (∀ fd, fd_get (fds ls) fd =
      if decide (fd = 1) then Some (PipeWrite 0)
      else if decide (fd = w) then Some (PipeWrite 0)
      else if decide (fd = r) then None
      else fd_get (boot inh) fd) as Els.
  { intros fd. rewrite Hls, (standalone_parent_fds W c self _ t r w) by done.
    apply (standalone_ls _ _ _ _ Hstd Hpipe). }
  assert (∀ fd, fd_get (fds wc) fd =
      if decide (fd = 0) then Some (PipeRead 0)
      else if decide (fd = r) then Some (PipeRead 0)
      else if decide (fd = w) then None
      else fd_get (boot inh) fd) as Ewc.
  { intros fd. rewrite Hwc, (standalone_child_fds W c self _ t r w) by done.
    apply (standalone_wc _ _ _ _ Hstd Hpipe). }
  assert (∀ fd, is_pipe_end (fd_get (boot inh) fd) = false) as Hno
    by (intros fd; apply boot_no_pipe).
  assert (npipes ls = 1) as Hn.
  { rewrite Hls. clear -Hc Hpipe.
    cbv [SimplePipe.main SimplePipe.after_fork sys_pipe sys_fork start].
    cbn [npipes fds pid log now]. rewrite Hpipe. cbn [fst snd].
    case_decide; [|done]. unfold sys_execv.
    by destruct (exec_result _ _ _). }
  clear Hls Hwc Hm. split; [simpl; lia|]. split; [done|].
  intros [|[|i]] p Hp; simplify_eq/=;
    (split_and!;
      [intros ?|intros ?|intros ?|intros ?|intros fd k; split; intros Hk]);
    try lia; unfold refers_to_pipe in *; rewrite ?Els, ?Ewc in *;
    repeat case_decide; simplify_eq; try done; try lia; try apply Hno;
    specialize (Hno fd); rewrite Hk in Hno; done.
Qed.
End standalone.

Section listing.
Import Fd Proc FdFacts ProcFacts PipeFacts SimplePipeFacts.
Context (W : world) (c self : Z) (inh : list (option nat)).
Hypothesis Hstd : stdio_open (boot inh).
Hypothesis Hc : c ≠ 0%Z.

Lemma listing_wired :
  wired (npipes (SimplePipeListing.main W c (start self (boot inh))).1)
    (SimplePipeListing.stages W c (start self (boot inh))).
Proof.
  destruct (pipe 0 (boot inh)) as [[r w] t] eqn:Hpipe.
  destruct (pipe_fds_high _ _ _ _ Hstd Hpipe) as (Hr & Hw & Hrw).
  unfold SimplePipeListing.stages.
  destruct (SimplePipeListing.main W c (start self (boot inh))) as [ls wc] eqn:Hm.
  assert (ls = (SimplePipeListing.main W c (start self (boot inh))).1) as Hls
    by (by rewrite Hm).
  assert (wc = (SimplePipeListing.main W c (start self (boot inh))).2) as Hwc
    by (by rewrite Hm).
  assert (∀ fd, fd_get (fds ls) fd =
      if decide (fd = 1) then Some (PipeWrite 0)
      else if decide (fd = w) then None
      else if decide (fd = r) then None
      else fd_get (boot inh) fd) as Els.
  { intros fd. rewrite Hls, (listing_parent_fds W c self _ t r w) by done.
    apply (listing_ls _ _ _ _ Hstd Hpipe). }
  assert (∀ fd, fd_get (fds wc) fd =
      if decide (fd = 0) then Some (PipeRead 0)
      else if decide (fd = r) then None
      else if decide (fd = w) then None
      else fd_get (boot inh) fd) as Ewc.
  { intros fd. rewrite Hwc, (listing_child_fds W c self _ t r w) by done.
    apply (listing_wc _ _ _ _ Hstd Hpipe). }
  assert (∀ fd, is_pipe_end (fd_get (boot inh) fd) = false) as Hno
    by (intros fd; apply boot_no_pipe).
  assert (npipes ls = 1) as Hn.
  { rewrite Hls. clear -Hc Hpipe.
    cbv [SimplePipeListing.main SimplePipeListing.after_fork sys_pipe sys_fork start].
    cbn [npipes fds pid log now]. rewrite Hpipe. cbn [fst snd].
    case_decide; [|done]. unfold sys_execv.
    by destruct (exec_result _ _ _). }
  clear Hls Hwc Hm. split; [simpl; lia|]. split; [done|].
  intros [|[|i]] p Hp; simplify_eq/=;
    (split_and!;
      [intros ?|intros ?|intros ?|intros ?|intros fd k; split; intros Hk]);
    try lia; unfold refers_to_pipe in *; rewrite ?Els, ?Ewc in *;
    repeat case_decide; simplify_eq; try done; try lia; try apply Hno;
    specialize (Hno fd); rewrite Hk in Hno; done.
Qed.
End listing.

(** A single stage that made no pipe and holds what it inherited is
    wired. *)
Lemma wired_single p inh :
  Proc.fds p = Fd.boot inh → wired 0 [p].
Proof.
  intros Hfds. split; [simpl; lia|]. split; [done|].
  intros [|i] q Hq; simplify_eq/=.
  assert (∀ fd, Fd.is_pipe_end (Fd.fd_get (Fd.boot inh) fd) = false) as Hno
    by (intros fd; apply FdFacts.boot_no_pipe).
  split_and!; try lia.
  - intros _. unfold Fd.refers_to_pipe. rewrite Hfds. apply Hno.
  - intros _. unfold Fd.refers_to_pipe. rewrite Hfds. apply Hno.
  - intros fd k. rewrite Hfds.
    split; intros Hk; specialize (Hno fd); by rewrite Hk in Hno.
Qed.

(** The terminal the examples run on: descriptors 0, 1 and 2 open. *)
Lemma tty_stdio_open : Fd.stdio_open (Fd.boot [Some 0; Some 0; Some 0]).
Proof. split; by eexists. Qed.

(** * Facts about strings and the word loop *)

Module CStrFacts.
Import CStr Words.

Lemma strchr_from_found (w tl : list ascii) p c :
  c ∉ w → NUL ∉ w → strchr_from (w ++ c :: tl) p c = Some (p + length w).
Proof.
  revert p. induction w as [|x w IH]; intros p Hc Hn; cbn [strchr_from app].
  - rewrite decide_True by done. f_equal. simpl. lia.
  - apply not_elem_of_cons in Hc as [Hxc Hc].
    apply not_elem_of_cons in Hn as [Hxn Hn].
    rewrite decide_False by done. rewrite decide_False by done.
    rewrite IH by done. f_equal. simpl. lia.
Qed.

Lemma strchr_from_end (w tl : list ascii) p c :
  c ≠ NUL → c ∉ w → NUL ∉ w → strchr_from (w ++ NUL :: tl) p c = None.
Proof.
  intros Hcn. revert p. induction w as [|x w IH]; intros p Hc Hn; cbn [strchr_from app].
  - rewrite decide_False by done. by rewrite decide_True.
  - apply not_elem_of_cons in Hc as [Hxc Hc].
    apply not_elem_of_cons in Hn as [Hxn Hn].
    rewrite decide_False by done. rewrite decide_False by done. by apply IH.
Qed.

Lemma cstr_from_app (w tl : list ascii) :
  NUL ∉ w → cstr_from (w ++ NUL :: tl) = w.
Proof.
  induction w as [|x w IH]; intros Hn; cbn [cstr_from app].
  - by rewrite decide_True.
  - apply not_elem_of_cons in Hn as [Hxn Hn].
    rewrite decide_False by done. by rewrite IH.
Qed.

Lemma cstr_from_no_NUL (l : list ascii) : NUL ∉ cstr_from l.
Proof.
  induction l as [|x l IH]; simpl; [apply not_elem_of_nil|].
  case_decide; [apply not_elem_of_nil|]. apply not_elem_of_cons. split; [done|exact IH].
Qed.

Lemma cstr_from_split (l : list ascii) :
  NUL ∈ l → ∃ tl, l = cstr_from l ++ NUL :: tl.
Proof.
  induction l as [|x l IH]; intros Hin; [by apply elem_of_nil in Hin|]. simpl.
  case_decide as Hx.
  - subst. by exists l.
  - apply elem_of_cons in Hin as [Hin|Hin]; [done|].
    destruct (IH Hin) as [tl Htl]. exists tl. simpl. by rewrite <- Htl.
Qed.

Lemma count_cstr_from (c : ascii) (l : list ascii) :
  length (filter (λ x, x = c) (cstr_from l)) ≤ length (filter (λ x, x = c) l).
Proof.
  induction l as [|x l IH]; simpl; [done|].
  case_decide.
  - simpl. lia.
  - rewrite !filter_cons. case_decide; simpl; lia.
Qed.

(** *** The pieces of a text *)

Lemma cut_at_nonempty c s : cut_at c s ≠ [].
Proof.
  destruct s as [|x s]; simpl; [done|]. case_decide; [done|].
  by destruct (cut_at c s).
Qed.

Lemma join_cut_at c s : join c (cut_at c s) = s.
Proof.
  induction s as [|x s IH]; simpl; [done|].
  pose proof (cut_at_nonempty c s) as Hne.
  case_decide as Hx.
  - subst. destruct (cut_at c s) as [|w ws] eqn:E; [done|].
    cbn [join]. cbn [join] in IH. by rewrite IH.
  - destruct (cut_at c s) as [|w ws] eqn:E; [done|].
    cbn [join] in *. destruct ws; simpl; by rewrite <- IH.
Qed.

Lemma length_cut_at c s :
  length (cut_at c s) = S (length (filter (λ x, x = c) s)).
Proof.
  induction s as [|x s IH]; simpl; [done|].
  pose proof (cut_at_nonempty c s) as Hne.
  rewrite filter_cons. case_decide; simpl; [by rewrite IH|].
  destruct (cut_at c s); [done|]. simpl in *. lia.
Qed.

Lemma cut_at_pieces c d s :
  d ∉ s → Forall (λ w, d ∉ w) (cut_at c s).
Proof.
  induction s as [|x s IH]; intros Hd; simpl.
  - constructor; [apply not_elem_of_nil|constructor].
  - apply not_elem_of_cons in Hd as [Hxd Hd]. specialize (IH Hd).
    case_decide.
    + constructor; [apply not_elem_of_nil|done].
    + destruct (cut_at c s) as [|w ws].
      * constructor; [|constructor]. apply not_elem_of_cons.
        split; [done|apply not_elem_of_nil].
      * inversion IH; subst. constructor; [|done].
        apply not_elem_of_cons. by split.
Qed.

Lemma cut_at_no_sep c s : Forall (λ w, c ∉ w) (cut_at c s).
Proof.
  induction s as [|x s IH]; simpl.
  - constructor; [apply not_elem_of_nil|constructor].
  - case_decide as Hx.
    + constructor; [apply not_elem_of_nil|done].
    + destruct (cut_at c s) as [|w ws].
      * constructor; [|constructor]. apply not_elem_of_cons.
        split; [congruence|apply not_elem_of_nil].
      * inversion IH; subst. constructor; [|done].
        apply not_elem_of_cons. split; [congruence|done].
Qed.


Lemma length_join_ge c ws : length ws ≤ S (length (join c ws)).
Proof.
  induction ws as [|w ws IH]; simpl; [lia|].
  destruct ws; simpl in *; [lia|]. rewrite length_app. simpl. lia.
Qed.

End CStrFacts.

Module SplitFacts.
Import CStr Words ArgvShell CStrFacts.

Lemma join_NUL_head (w : list ascii) ws tl :
  ∃ tl', (join NUL (w :: ws) ++ NUL :: tl) = (w ++ NUL :: tl').
Proof.
  cbn [join]. destruct ws as [|w' ws]; [by exists tl|].
  eexists. by rewrite <- app_assoc.
Qed.

(** The loop, entered with [words[i-1]] pointing at the first of the pieces
    [w :: ws] still separated by spaces: it ends, turns every separating
    space into a terminator, leaves the slots below [i] alone, fills the
    slots from [i] on with pointers to the pieces [ws] and puts the null
    pointer after them. *)
Lemma split_loop_spec ws : ∀ w pre tl (words : list (option nat)) i fuel,
  Forall plain (w :: ws) →
  1 ≤ i → words !! (i - 1) = Some (Some (length pre)) →
  i + length ws < length words → length ws < fuel →
  ∃ words',
    split_loop fuel (pre ++ join SP (w :: ws) ++ NUL :: tl) words i
      = Split (pre ++ join NUL (w :: ws) ++ NUL :: tl) words'
    ∧ length words' = length words
    ∧ (∀ j, j < i → words' !! j = words !! j)
    ∧ argv_of (pre ++ join NUL (w :: ws) ++ NUL :: tl) (drop i words') = Some ws
    ∧ words' !! (i + length ws) = Some None
    ∧ (∀ j, i ≤ j < i + length ws → ∃ q, words' !! j = Some (Some q)).
Proof.
  induction ws as [|w2 ws IH]; intros w pre tl words i fuel Hall Hi Hprev Hlen Hfuel.
  - destruct fuel as [|fuel]; [simpl in Hfuel; lia|].
    inversion Hall as [|? ? [Hsp Hnul] _]; subst.
    cbn [split_loop join]. rewrite Hprev.
    unfold strchr. rewrite drop_app_length.
    rewrite strchr_from_end by done.
    simpl in Hlen. rewrite decide_True by lia.
    exists (<[i := None]> words). split_and!.
    + done.
    + by rewrite length_insert.
    + intros j Hj. rewrite list_lookup_insert_ne by lia. done.
    + rewrite (drop_S _ None) by (rewrite list_lookup_insert_eq by lia; done). done.
    + simpl. rewrite Nat.add_0_r. rewrite list_lookup_insert_eq by lia. done.
    + intros j Hj. simpl in Hj. lia.
  - destruct fuel as [|fuel]; [simpl in Hfuel; lia|].
    inversion Hall as [|? ? [Hsp Hnul] Hrest]; subst.
    assert (pre ++ join SP (w :: w2 :: ws) ++ NUL :: tl
            = pre ++ w ++ SP :: (join SP (w2 :: ws) ++ NUL :: tl)) as ->
      by (cbn [join]; by rewrite <- app_assoc).
    assert (join NUL (w :: w2 :: ws) = w ++ NUL :: join NUL (w2 :: ws)) as -> by done.
    cbn [split_loop]. rewrite Hprev.
    unfold strchr. rewrite drop_app_length.
    rewrite strchr_from_found by done.
    simpl in Hlen, Hfuel. rewrite decide_True by lia.
    rewrite list_insert_insert_eq.
    set (q := length pre + length w).
    assert (<[q := NUL]> (pre ++ w ++ SP :: (join SP (w2 :: ws) ++ NUL :: tl))
            = (pre ++ w ++ [NUL]) ++ join SP (w2 :: ws) ++ NUL :: tl) as ->.
    { subst q. rewrite insert_app_r. rewrite <- !app_assoc. f_equal.
      replace (length w) with (length w + 0) at 1 by lia.
      by rewrite insert_app_r. }
    assert (length (pre ++ w ++ [NUL]) = S q) as Hpre1.
    { rewrite !length_app. simpl. lia. }
    destruct (IH w2 (pre ++ w ++ [NUL]) tl (<[i := Some (S q)]> words) (S i) fuel)
      as (words' & Hrun & Hlen' & Hlow & Hargv & Hend & Hmid).
    + done.
    + lia.
    + replace (S i - 1) with i by lia.
      rewrite list_lookup_insert_eq by lia. by rewrite Hpre1.
    + rewrite length_insert. lia.
    + lia.
    + assert (pre ++ (w ++ NUL :: join NUL (w2 :: ws)) ++ NUL :: tl
              = (pre ++ w ++ [NUL]) ++ join NUL (w2 :: ws) ++ NUL :: tl) as Hline
        by (by rewrite <- !app_assoc).
      assert (words' !! i = Some (Some (S q))) as Hi'.
      { rewrite Hlow by lia. by rewrite list_lookup_insert_eq by lia. }
      exists words'. rewrite Hline. split_and!.
      * done.
      * by rewrite Hlen', length_insert.
      * intros j Hj. rewrite Hlow by lia. by rewrite list_lookup_insert_ne by lia.
      * rewrite (drop_S _ _ _ Hi'). cbn [argv_of]. rewrite Hargv.
        cbn [fmap option_fmap option_map]. do 2 f_equal.
        unfold cstr. rewrite <- Hpre1, drop_app_length.
        destruct (join_NUL_head w2 ws tl) as [tl' ->].
        apply cstr_from_app. inversion Hrest as [|? ? [_ ?] _]; by subst.
      * rewrite <- Hend. f_equal. simpl. lia.
      * intros j Hj. destruct (decide (j = i)) as [->|Hne]; [by eexists|].
        apply Hmid. simpl in Hj. lia.
Qed.

(** The decomposition of a buffer holding a terminator. *)
Lemma cstr_split (line : list ascii) :
  NUL ∈ line → ∃ tl, line = cstr line 0 ++ NUL :: tl.
Proof. intros H. unfold cstr. rewrite drop_0. by apply cstr_from_split. Qed.

(** [words[0] = line] and the loop, on a buffer that holds a terminator and
    shows fewer pieces than [words] has slots. *)
Lemma split_spec (line : list ascii) (words : list (option nat)) :
  NUL ∈ line →
  length (cut_at SP (cstr line 0)) < length words →
  ∃ line' words' tl,
    split line words = Split line' words'
    ∧ line = cstr line 0 ++ NUL :: tl
    ∧ line' = join NUL (cut_at SP (cstr line 0)) ++ NUL :: tl
    ∧ length words' = length words
    ∧ words' !! 0 = Some (Some 0)
    ∧ argv_of line' words' = Some (cut_at SP (cstr line 0))
    ∧ words' !! length (cut_at SP (cstr line 0)) = Some None
    ∧ (∀ j, j < length (cut_at SP (cstr line 0)) → ∃ q, words' !! j = Some (Some q)).
Proof.
  intros Hnul Hlen. destruct (cstr_split line Hnul) as [tl Hline].
  set (s := cstr line 0) in *.
  pose proof (join_cut_at SP s) as Hjoin.
  pose proof (cut_at_no_sep SP s) as Hsp.
  pose proof (cut_at_pieces SP NUL s) as Hn.
  pose proof (length_join_ge SP (cut_at SP s)) as Hge.
  rewrite Hjoin in Hge.
  destruct (cut_at SP s) as [|w ws] eqn:Hcut; [by apply cut_at_nonempty in Hcut|].
  assert (NUL ∉ s) as Hs by (subst s; unfold cstr; apply cstr_from_no_NUL).
  specialize (Hn Hs). simpl in Hlen, Hge.
  assert (length line = length s + S (length tl)) as Hll.
  { rewrite Hline at 1. rewrite length_app. done. }
  destruct (split_loop_spec ws w [] tl (<[0 := Some 0]> words) 1 (length line))
    as (words' & Hrun & Hlen' & Hlow & Hargv & Hend & Hmid).
  - apply Forall_forall. intros x Hx. split.
    + by eapply Forall_forall in Hsp.
    + by eapply Forall_forall in Hn.
  - lia.
  - simpl. rewrite list_lookup_insert_eq by lia. done.
  - rewrite length_insert. lia.
  - lia.
  - assert (words' !! 0 = Some (Some 0)) as H0.
    { rewrite Hlow by lia. by rewrite list_lookup_insert_eq by lia. }
    cbn [app] in Hrun, Hargv. rewrite Hjoin, <- Hline in Hrun.
    exists (join NUL (w :: ws) ++ NUL :: tl), words', tl.
    unfold split. split_and!.
    + exact Hrun.
    + done.
    + done.
    + by rewrite Hlen', length_insert.
    + done.
    + assert (words' = Some 0 :: drop 1 words') as Hw
        by (rewrite <- (drop_S _ _ _ H0); by rewrite drop_0).
      rewrite Hw. cbn [argv_of]. rewrite Hargv.
      cbn [fmap option_fmap option_map]. do 2 f_equal.
      unfold cstr. rewrite drop_0.
      destruct (join_NUL_head w ws tl) as [tl' ->].
      apply cstr_from_app. inversion Hn as [|? ? Hw1 _]. exact Hw1.
    + exact Hend.
    + intros j Hj. destruct j as [|j]; [by eexists|]. apply Hmid. simpl in Hj. lia.
Qed.

End SplitFacts.

(** * Facts about [argv-shell.c] *)

Module ArgvShellFacts.
Import Fd Proc CStr ArgvShell Words Rounds CStrFacts SplitFacts.

(** *** Reading a line *)

Lemma read_line_spec (stdin : list ascii) :
  stdin ≠ [] →
  ∃ text rest, read_line stdin = (text, rest) ∧ text ≠ [] ∧
    stdin = text ++ rest ∧ lines stdin = text :: lines rest ∧
    (LF ∉ take (length text - 1) text) ∧
    (last text ≠ Some LF → rest = []).
Proof.
  induction stdin as [|x s IH]; [done|]. intros _. cbn [read_line lines].
  case_decide as Hx.
  - subst x. exists [LF], s. split_and!; try done. simpl. apply not_elem_of_nil.
  - destruct s as [|y s].
    + exists [x], []. split_and!; try done. simpl. apply not_elem_of_nil.
    + destruct (IH ltac:(done)) as (text & rest & Hrl & Hne & Happ & Hlines & Hlf & Hlast).
      rewrite Hrl, Hlines. exists (x :: text), rest. split_and!; try done.
      * by rewrite Happ.
      * destruct text as [|t text]; [done|]. simpl in *.
        rewrite Nat.sub_0_r in Hlf. apply not_elem_of_cons. split; [congruence|done].
      * intros Hl. apply Hlast. by destruct text.
Qed.

Lemma getline_spec (stdin : list ascii) text rest :
  stdin ≠ [] → read_line stdin = (text, rest) →
  getline stdin = (Z.of_nat (length text), text ++ [NUL], rest).
Proof. intros Hne Hrl. unfold getline. destruct stdin; [done|]. by rewrite Hrl. Qed.

(** *** Erasing the last character *)

Lemma erase_last_spec (text : list ascii) :
  text ≠ [] →
  erase_last (Z.of_nat (length text)) (text ++ [NUL])
  = take (length text - 1) text ++ [NUL; NUL].
Proof.
  intros Hne. unfold erase_last.
  replace (Z.to_nat (Z.of_nat (length text) - 1)) with (length text - 1) by lia.
  destruct (decide (length text = 0)) as [H0|H0]; [by destruct text|].
  rewrite <- (take_drop (length text - 1) text) at 2.
  assert (length (take (length text - 1) text) = length text - 1) as Hlt
    by (rewrite length_take; lia).
  rewrite <- app_assoc.
  replace (length text - 1) with (length (take (length text - 1) text) + 0) at 1 by lia.
  rewrite insert_app_r. f_equal.
  destruct (drop (length text - 1) text) as [|y [|z d]] eqn:Hd.
  - apply (f_equal length) in Hd. rewrite length_drop in Hd. simpl in Hd. lia.
  - done.
  - apply (f_equal length) in Hd. rewrite length_drop in Hd. simpl in Hd. lia.
Qed.

Lemma command_spec (text : list ascii) :
  text ≠ [] → command text = cstr_from (take (length text - 1) text ++ [NUL; NUL]).
Proof. intros Hne. unfold command, cstr. by rewrite erase_last_spec, drop_0. Qed.

Lemma command_plain (text : list ascii) :
  text ≠ [] → NUL ∉ text → command text = take (length text - 1) text.
Proof.
  intros Hne Hnul. rewrite command_spec by done. apply cstr_from_app.
  intros Hin. apply Hnul. apply elem_of_take in Hin as (i & Hi & _).
  by eapply list_elem_of_lookup_2.
Qed.

Lemma erased_has_NUL (text : list ascii) :
  text ≠ [] → NUL ∈ erase_last (Z.of_nat (length text)) (text ++ [NUL]).
Proof.
  intros Hne. rewrite erase_last_spec by done. apply elem_of_app. right. by left.
Qed.

Lemma filter_take_le (c : ascii) (l : list ascii) k :
  length (filter (λ x, x = c) (take k l)) ≤ length (filter (λ x, x = c) l).
Proof.
  rewrite <- (take_drop k l) at 2. rewrite filter_app, length_app. lia.
Qed.

(** A line never shows more words than it has fields. *)
Lemma command_words_le_fields (text : list ascii) :
  text ≠ [] → length (cut_at SP (command text)) ≤ fields text.
Proof.
  intros Hne. rewrite length_cut_at, command_spec by done. unfold fields.
  apply le_n_S. etrans; [apply count_cstr_from|].
  rewrite filter_app, length_app.
  assert (filter (λ x, x = SP) [NUL; NUL] = []) as -> by done.
  simpl. rewrite Nat.add_0_r. apply filter_take_le.
Qed.

End ArgvShellFacts.

(** ** The loop is the run told line by line *)

Module ArgvShellRefine.
Import Fd Proc CStr ArgvShell Words Rounds CStrFacts SplitFacts ArgvShellFacts.

(** What the loop body makes of a line it has read, whatever [words]
    held. *)
Lemma split_line (text : list ascii) (words : list (option nat)) :
  text ≠ [] → fields text < length words →
  ∃ line' words',
    split (erase_last (Z.of_nat (length text)) (text ++ [NUL])) words
      = Split line' words'
    ∧ length words' = length words
    ∧ words' !! 0 = Some (Some 0)
    ∧ argv_of line' words' = Some (cut_at SP (command text))
    ∧ cstr line' 0 = hd [] (cut_at SP (command text))
    ∧ words' !! length (cut_at SP (command text)) = Some None
    ∧ (∀ j, j < length (cut_at SP (command text)) → ∃ q, words' !! j = Some (Some q)).
Proof.
  intros Hne Hf.
  pose proof (command_words_le_fields text Hne) as Hle.
  destruct (split_spec (erase_last (Z.of_nat (length text)) (text ++ [NUL])) words)
    as (line' & words' & tl & Hsplit & _ & _ & Hlen & H0 & Hargv & Hend & Hmid).
  - by apply erased_has_NUL.
  - fold (command text). lia.
  - fold (command text) in Hargv, Hend, Hmid.
    exists line', words'. split_and!; try done.
    destruct words' as [|[q|] rest]; simplify_eq/=.
    destruct (argv_of line' rest); simplify_eq/=. by rewrite <- Hargv.
Qed.

Lemma hd_argv_for (text : list ascii) :
  hd "" (argv_for text) = string_of_list_ascii (hd [] (cut_at SP (command text))).
Proof.
  unfold argv_for. pose proof (cut_at_nonempty SP (command text)).
  by destruct (cut_at SP (command text)).
Qed.

Section refine.
Context (W : world) (pids : nat → Z).
Hypothesis Hpids : ∀ k, pids k ≠ 0%Z.

Lemma loop_run_lines fuel : ∀ stdin (words : list (option nat)) p kids,
  length stdin < fuel → now p = Running →
  Forall (λ text, fields text < length words) (lines stdin) →
  loop W pids fuel stdin words p kids = run_lines W pids (lines stdin) p kids.
Proof.
  induction fuel as [|fuel IH]; intros stdin words p kids Hfuel Hrun Hall; [lia|].
  destruct stdin as [|x s]; [done|].
  destruct (read_line_spec (x :: s) ltac:(done))
    as (text & rest & Hrl & Hne & Happ & Hlines & _ & _).
  rewrite Hlines in Hall |- *. inversion Hall as [|? ? Hf Hrest]; subst.
  destruct (split_line text words Hne Hf)
    as (line' & words' & Hsplit & Hlen & H0 & Hargv & Hhd & _ & _).
  cbn [loop run_lines]. rewrite (getline_spec _ text rest) by done.
  rewrite Nat2Z.id, take_app_length.
  rewrite decide_True by (destruct text; [done|simpl; lia]).
  rewrite Hsplit. cbn [sys_fork].
  assert (after_fork W line' words' 0 None
            (Proc (pids (length kids)) (fds (record (EGetline text) p))
               (npipes (record (EGetline text) p)) [EFork 0] Running)
          = child_of W text (pids (length kids)) p) as ->.
  { unfold after_fork, child_of. rewrite decide_False by (intros H; by apply H).
    rewrite H0, Hargv, Hhd, hd_argv_for. done. }
  unfold after_fork. rewrite decide_True by done.
  destruct (reap (child_of W text (pids (length kids)) p)) as [st|]; [|done].
  cbn [now record]. rewrite Hrun. apply IH.
  - apply (f_equal length) in Happ. rewrite length_app in Happ.
    destruct text; [done|]. simpl in *. lia.
  - done.
  - by rewrite Hlen.
Qed.

(** [main] is the run told line by line. *)
Lemma main_run_lines stdin junk p :
  now p = Running →
  Forall (λ text, fields text < 256) (lines stdin) →
  main W pids stdin junk p = run_lines W pids (lines stdin) p [].
Proof.
  intros. apply loop_run_lines; [lia|done|].
  by rewrite length_fmap, length_seq.
Qed.
End refine.

End ArgvShellRefine.

(** ** What a run told line by line leaves behind *)

Module RoundFacts.
Import Fd Proc CStr ArgvShell Words Rounds CStrFacts.

Lemma pid_child_of W text c p : pid (child_of W text c p) = c.
Proof. unfold child_of, sys_execv. by destruct (exec_result _ _ _). Qed.

Lemma fds_child_of W text c p : fds (child_of W text c p) = fds p.
Proof. unfold child_of, sys_execv. by destruct (exec_result _ _ _). Qed.

Lemma npipes_child_of W text c p : npipes (child_of W text c p) = npipes p.
Proof. unfold child_of, sys_execv. by destruct (exec_result _ _ _). Qed.

(** The whole life of a child, by the fate of its [execv]. *)
Lemma child_of_spec W text c p :
  match exec_result W (hd "" (argv_for text)) (argv_for text) with
  | Some ends =>
      child_of W text c p =
        Proc c (fds p) (npipes p)
          [EFork 0; EExecv (hd "" (argv_for text)) (argv_for text)]
          (Image (hd "" (argv_for text)) (argv_for text) ends)
  | None =>
      child_of W text c p =
        Proc c (fds p) (npipes p)
          [EFork 0; EExecv (hd "" (argv_for text)) (argv_for text);
           EPerror "execv() failed"; EReturn 1]
          (Returned 1)
  end.
Proof. unfold child_of, sys_execv. by destruct (exec_result _ _ _). Qed.

Lemma log_reported text c s p :
  log (reported text c s p) =
  log p ++ [EGetline text; EFork c; EWaitpid c s; EStderr (status_line s)].
Proof. unfold reported, forked, record. simpl. by rewrite <- !app_assoc. Qed.

Lemma log_forked text c p :
  log (forked text c p) = log p ++ [EGetline text; EFork c].
Proof. unfold forked, record. simpl. by rewrite <- !app_assoc. Qed.

Lemma log_returned e p :
  log (sys_return 0 (record e p)) = log p ++ [e; EReturn 0].
Proof. unfold sys_return, record. simpl. by rewrite <- !app_assoc. Qed.

Lemma log_stand s p : log (stand s p) = log p.
Proof. done. Qed.

Lemma settled_start self t : settled (start self t) [].
Proof. by split. Qed.

(** A child that ended was waited for, and its status written. *)
Lemma ended_reaped R kid s :
  ended R → kid ∈ children R → reap kid = Some s →
  (pid kid, s) ∈ waits (shell R) ∧ status_line s ∈ writes (shell R).
Proof.
  intros (_ & Hwrites & Hcases) Hkid Hs.
  assert ((pid kid, s) ∈ waits (shell R)) as Hin.
  { destruct Hcases as [(_ & _ & Hall)|(c & kids & lst & _ & _ & Hk & _ & Hlast & Hall)].
    - apply list_elem_of_lookup in Hkid as [i Hi].
      destruct (Forall2_lookup_l _ _ _ _ _ Hall Hi) as ([c' s'] & Hcs & Hp & Hr).
      simpl in *. simplify_eq. by eapply list_elem_of_lookup_2.
    - rewrite Hk in Hkid. apply elem_of_app in Hkid as [Hkid|Hkid].
      + apply list_elem_of_lookup in Hkid as [i Hi].
        destruct (Forall2_lookup_l _ _ _ _ _ Hall Hi) as ([c' s'] & Hcs & Hp & Hr).
        simpl in *. simplify_eq. by eapply list_elem_of_lookup_2.
      + apply list_elem_of_singleton in Hkid as ->. congruence. }
  split; [done|]. rewrite Hwrites.
  apply list_elem_of_fmap. exists s. split; [done|].
  apply list_elem_of_fmap. by exists (pid kid, s).
Qed.

Section rounds.
Context (W : world) (pids : nat → Z).
Hypothesis Hpids : ∀ k, pids k ≠ 0%Z.

Lemma settled_reported text p kids s :
  settled p kids →
  reap (child_of W text (pids (length kids)) p) = Some s →
  settled (reported text (pids (length kids)) s p)
    (kids ++ [child_of W text (pids (length kids)) p]).
Proof.
  intros [Hnow Hforks Hreap Hwaits Hwrites] Hs.
  pose proof (Hpids (length kids)) as Hc.
  split.
  - done.
  - unfold forks in *. rewrite log_reported, omap_app, Hforks, fmap_app. simpl.
    rewrite decide_False by done. by rewrite pid_child_of.
  - unfold reaping in *. rewrite log_reported, foldl_app, Hreap. simpl.
    by rewrite decide_True.
  - unfold waits in *. rewrite log_reported, omap_app. simpl.
    apply Forall2_app; [done|]. constructor; [|constructor].
    simpl. by rewrite pid_child_of.
  - unfold writes, waits in *. rewrite log_reported, !omap_app, Hwrites. simpl.
    by rewrite !fmap_app.
Qed.

Lemma run_lines_ended ls : ∀ p kids,
  settled p kids → ended (run_lines W pids ls p kids).
Proof.
  induction ls as [|text ls IH]; intros p kids Hs.
  - destruct Hs as [Hnow Hforks Hreap Hwaits Hwrites].
    unfold ended. cbn [run_lines shell children].
    unfold forks, writes, waits, reaping in *. rewrite log_returned.
    rewrite !omap_app, foldl_app, Hreap. simpl. rewrite !app_nil_r.
    split_and!; [done|done|]. left. by split_and!.
  - cbn [run_lines].
    destruct (reap (child_of W text (pids (length kids)) p)) as [s|] eqn:Hr.
    + apply IH. by apply settled_reported.
    + destruct Hs as [Hnow Hforks Hreap Hwaits Hwrites].
      pose proof (Hpids (length kids)) as Hc.
      unfold ended. cbn [shell children].
      unfold forks, writes, waits, reaping in *. rewrite log_stand, log_forked.
      rewrite !omap_app, foldl_app, Hreap, fmap_app. simpl.
      rewrite decide_False by done. rewrite !app_nil_r, pid_child_of.
      split_and!; [by rewrite Hforks|done|]. right.
      eexists _, kids, _. split_and!; try done. apply pid_child_of.
Qed.

(** The children of a run are those of its lines, one per line read, in
    order, each forked from a shell with the descriptors it started
    with. *)
Lemma run_lines_children ls : ∀ p kids,
  ∃ new, children (run_lines W pids ls p kids) = kids ++ new ∧
    Forall2 (λ text kid,
               ∃ c q, kid = child_of W text c q ∧
                 fds q = fds p ∧ npipes q = npipes p)
      (take (length new) ls) new.
Proof.
  induction ls as [|text ls IH]; intros p kids.
  - exists []. simpl. by rewrite app_nil_r.
  - cbn [run_lines].
    destruct (reap (child_of W text (pids (length kids)) p)) as [s|] eqn:Hr.
    + destruct (IH (reported text (pids (length kids)) s p)
                  (kids ++ [child_of W text (pids (length kids)) p]))
        as (new & Hnew & Hall).
      exists (child_of W text (pids (length kids)) p :: new). split.
      * by rewrite Hnew, <- app_assoc.
      * simpl. constructor; [by eexists _, _|].
        eapply Forall2_impl; [exact Hall|].
        intros text' kid (c & q & -> & Hfds & Hn). by exists c, q.
    + exists [child_of W text (pids (length kids)) p]. split; [done|].
      simpl. constructor; [by eexists _, _|constructor].
Qed.
End rounds.

End RoundFacts.

(** ** Lines as [getline] returns them, and the examples' kernel *)

(** What [getline] returns when it returns a positive count. *)
Lemma getline_positive stdin n line rest :
  ArgvShell.getline stdin = (n, line, rest) → (0 < n)%Z →
  ∃ text, text ≠ [] ∧ n = Z.of_nat (length text) ∧ line = text ++ [CStr.NUL] ∧
    take (Z.to_nat n) line = text ∧ stdin = text ++ rest ∧
    Words.lines stdin = text :: Words.lines rest ∧
    (last text ≠ Some CStr.LF → rest = []).
Proof.
  intros Hg Hn. destruct stdin as [|x s]; [simplify_eq/=; lia|].
  destruct (ArgvShellFacts.read_line_spec (x :: s) ltac:(done))
    as (text & rest' & Hrl & Hne & Happ & Hlines & _ & Hlast).
  rewrite (ArgvShellFacts.getline_spec _ text rest') in Hg by done.
  injection Hg as <- <- <-. exists text. split_and!; try done.
  by rewrite Nat2Z.id, take_app_length.
Qed.

(** The examples' world, in which every program exists and exits with 0,
    and kernel, which numbers children from 100. *)
Lemma pids_from_100_nonzero : ∀ k : nat, (100 + Z.of_nat k)%Z ≠ 0%Z.
Proof. intros k. lia. Qed.

(** * Lines, runs and the word loop, further *)

Module LineFacts.
Import CStr Words ArgvShell CStrFacts.

Lemma lines_nonempty (stdin : list ascii) : Forall (λ text, text ≠ []) (lines stdin).
Proof.
  induction stdin as [|x s IH]; cbn [lines]; [constructor|].
  case_decide; [by constructor|].
  destruct (lines s) as [|l ls]; [by repeat constructor|].
  inversion IH; subst. by constructor.
Qed.

(** Only the last character of a line can be a newline. *)
Lemma lines_newline_last (stdin : list ascii) :
  Forall (λ text, LF ∉ take (length text - 1) text) (lines stdin).
Proof.
  assert (Forall (λ text, text ≠ [] ∧ LF ∉ take (length text - 1) text)
            (lines stdin)) as H.
  { induction stdin as [|x s IH]; cbn [lines]; [constructor|].
    case_decide as Hx.
    - constructor; [|done]. split; [done|]. simpl. apply not_elem_of_nil.
    - destruct (lines s) as [|l ls].
      + constructor; [|constructor]. split; [done|]. simpl. apply not_elem_of_nil.
      + inversion IH as [|? ? [Hl Hlf] Hls]; subst. constructor; [|done].
        split; [done|]. destruct l as [|y l]; [done|].
        simpl in *. rewrite Nat.sub_0_r in Hlf. apply not_elem_of_cons. by split. }
  eapply Forall_impl; [exact H|]. by intros text [_ ?].
Qed.


Lemma elem_of_cstr_from (x : ascii) (l : list ascii) : x ∈ cstr_from l → x ∈ l.
Proof.
  induction l as [|y l IH]; simpl; [done|].
  case_decide; [by intros ?%elem_of_nil|].
  intros [->|Hin]%elem_of_cons; [by left|]. right. by apply IH.
Qed.

(** The word loop's effect on the command, character by character. *)
Lemma join_NUL_cut_at (s : list ascii) :
  join NUL (cut_at SP s) = space_to_NUL <$> s.
Proof.
  induction s as [|x s IH]; [done|]. cbn [cut_at fmap list_fmap].
  pose proof (cut_at_nonempty SP s) as Hne. unfold space_to_NUL at 1.
  case_decide as Hx.
  - destruct (cut_at SP s) as [|w ws] eqn:E; [done|].
    cbn [join app]. f_equal. exact IH.
  - destruct (cut_at SP s) as [|w ws] eqn:E; [done|].
    rewrite <- IH. cbn [join]. by destruct ws.
Qed.



End LineFacts.

Module RunFacts.
Import Fd Proc CStr ArgvShell Words Rounds CStrFacts RoundFacts.

Lemma reads_app_log p l :
  reads (Proc (pid p) (fds p) (npipes p) (log p ++ l) (now p))
  = reads p ++ omap (λ e, match e with EGetline text => Some text | _ => None end) l.
Proof. unfold reads. simpl. by rewrite omap_app. Qed.

Lemma reads_reported text c s p : reads (reported text c s p) = reads p ++ [text].
Proof. unfold reads. rewrite log_reported, omap_app. done. Qed.

Lemma reads_forked text c p : reads (forked text c p) = reads p ++ [text].
Proof. unfold reads. rewrite log_forked, omap_app. done. Qed.

(** A child whose program ends, or whose [execv] fails, can be reaped. *)
Lemma reap_child_of W text c p :
  (∀ path argv, W path argv ≠ Some Never) →
  is_Some (reap (child_of W text c p)).
Proof.
  intros HW. pose proof (child_of_spec W text c p) as Hspec.
  destruct (exec_result W (hd "" (argv_for text)) (argv_for text)) as [ends|] eqn:He;
    rewrite Hspec; [|by eexists].
  unfold reap. simpl. destruct ends; try by eexists.
  exfalso. unfold exec_result in He. case_decide; [done|]. by eapply HW.
Qed.

Section runs.
Context (W : world) (pids : nat → Z).

(** The shell has read as many lines as it has made children, and after
    them the end of the stream if it got there. *)
Lemma run_lines_reads ls : ∀ p kids,
  ∃ new,
    children (run_lines W pids ls p kids) = kids ++ new ∧
    length new ≤ length ls ∧
    reads (shell (run_lines W pids ls p kids)) =
      reads p ++ take (length new) ls ++
      (if now (shell (run_lines W pids ls p kids)) is Returned _
       then [[]] else []).
Proof.
  induction ls as [|text ls IH]; intros p kids.
  - exists []. cbn [run_lines shell children]. split_and!.
    + by rewrite app_nil_r.
    + done.
    + unfold reads. rewrite log_returned, omap_app. done.
  - cbn [run_lines].
    destruct (reap (child_of W text (pids (length kids)) p)) as [s|] eqn:Hr.
    + destruct (IH (reported text (pids (length kids)) s p)
                  (kids ++ [child_of W text (pids (length kids)) p]))
        as (new & Hnew & Hlen & Hreads).
      exists (child_of W text (pids (length kids)) p :: new). split_and!.
      * by rewrite Hnew, <- app_assoc.
      * simpl. lia.
      * rewrite Hreads, reads_reported. simpl. by rewrite <- !app_assoc.
    + exists [child_of W text (pids (length kids)) p].
      cbn [shell children]. split_and!; [done|simpl; lia|].
      change (reads (stand _ ?q)) with (reads q).
      rewrite reads_forked. simpl. by rewrite ?take_0, ?app_nil_r.
Qed.

(** Where every program ends, the run goes through all lines. *)
Lemma run_lines_all ls : ∀ p kids,
  (∀ path argv, W path argv ≠ Some Never) →
  length (children (run_lines W pids ls p kids)) = length kids + length ls ∧
  now (shell (run_lines W pids ls p kids)) = Returned 0.
Proof.
  induction ls as [|text ls IH]; intros p kids HW.
  - simpl. split; [lia|done].
  - cbn [run_lines].
    destruct (reap_child_of W text (pids (length kids)) p HW) as [s ->].
    destruct (IH (reported text (pids (length kids)) s p)
                (kids ++ [child_of W text (pids (length kids)) p]) HW) as [Hl Hn].
    split; [|done]. rewrite Hl, length_app. simpl. lia.
Qed.
End runs.

End RunFacts.

Module SplitMore.
Import CStr Words ArgvShell CStrFacts SplitFacts.

Lemma strchr_from_Some (s : list ascii) p c q :
  strchr_from s p c = Some q → ∃ k, q = p + k ∧ s !! k = Some c.
Proof.
  revert p. induction s as [|x s IH]; intros p H; cbn [strchr_from] in H; [done|].
  case_decide as Hx.
  - simplify_eq. exists 0. split; [lia|done].
  - case_decide; [done|]. destruct (IH _ H) as (k & -> & Hk).
    exists (S k). split; [lia|done].
Qed.

(** What [strchr] returns points at the character looked for, inside the
    buffer and not before where the search began. *)
Lemma strchr_Some (buf : list ascii) p c q :
  strchr buf p c = Some q → p ≤ q ∧ buf !! q = Some c.
Proof.
  unfold strchr. intros H. destruct (strchr_from_Some _ _ _ _ H) as (k & -> & Hk).
  split; [lia|]. by rewrite lookup_drop in Hk.
Qed.

(** The loop, entered as in [split_loop_spec] but with more pieces ahead
    than [words] has slots left for them and the null pointer, stores past
    the end of the array. *)
Lemma split_loop_overrun ws : ∀ w pre tl (words : list (option nat)) i fuel,
  Forall plain (w :: ws) →
  1 ≤ i → words !! (i - 1) = Some (Some (length pre)) →
  length words ≤ i + length ws → length ws < fuel →
  split_loop fuel (pre ++ join SP (w :: ws) ++ NUL :: tl) words i = Overrun.
Proof.
  induction ws as [|w2 ws IH]; intros w pre tl words i fuel Hall Hi Hprev Hlen Hfuel.
  - destruct fuel as [|fuel]; [simpl in Hfuel; lia|].
    cbn [split_loop]. rewrite Hprev. cbn zeta.
    simpl in Hlen. by rewrite decide_False by lia.
  - destruct fuel as [|fuel]; [simpl in Hfuel; lia|].
    inversion Hall as [|? ? [Hsp Hnul] Hrest]; subst.
    assert (pre ++ join SP (w :: w2 :: ws) ++ NUL :: tl
            = pre ++ w ++ SP :: (join SP (w2 :: ws) ++ NUL :: tl)) as ->
      by (cbn [join]; by rewrite <- app_assoc).
    cbn [split_loop]. rewrite Hprev. cbn zeta.
    destruct (decide (i < length words)) as [Hlt|Hge]; [|done].
    unfold strchr. rewrite drop_app_length.
    rewrite strchr_from_found by done.
    rewrite list_insert_insert_eq.
    set (q := length pre + length w).
    assert (<[q := NUL]> (pre ++ w ++ SP :: (join SP (w2 :: ws) ++ NUL :: tl))
            = (pre ++ w ++ [NUL]) ++ join SP (w2 :: ws) ++ NUL :: tl) as ->.
    { subst q. rewrite insert_app_r. rewrite <- !app_assoc. f_equal.
      replace (length w) with (length w + 0) at 1 by lia.
      by rewrite insert_app_r. }
    assert (length (pre ++ w ++ [NUL]) = S q) as Hpre1.
    { rewrite !length_app. simpl. lia. }
    apply IH.
    + done.
    + lia.
    + replace (S i - 1) with i by lia.
      rewrite list_lookup_insert_eq by lia. by rewrite Hpre1.
    + rewrite length_insert. simpl in Hlen. lia.
    + simpl in Hfuel. lia.
Qed.

(** The counterpart of [split_spec]: a buffer showing at least as many
    pieces as [words] has slots overruns the array. *)
Lemma split_overrun (line : list ascii) (words : list (option nat)) :
  NUL ∈ line → 0 < length words →
  length words ≤ length (cut_at SP (cstr line 0)) →
  split line words = Overrun.
Proof.
  intros Hnul Hpos Hlen. destruct (cstr_split line Hnul) as [tl Hline].
  set (s := cstr line 0) in *.
  pose proof (join_cut_at SP s) as Hjoin.
  pose proof (cut_at_no_sep SP s) as Hsp.
  pose proof (cut_at_pieces SP NUL s) as Hn.
  pose proof (length_join_ge SP (cut_at SP s)) as Hge.
  rewrite Hjoin in Hge.
  destruct (cut_at SP s) as [|w ws] eqn:Hcut; [by apply cut_at_nonempty in Hcut|].
  assert (NUL ∉ s) as Hs by (subst s; unfold cstr; apply cstr_from_no_NUL).
  specialize (Hn Hs). simpl in Hlen, Hge.
  assert (length line = length s + S (length tl)) as Hll.
  { rewrite Hline at 1. rewrite length_app. done. }
  pose proof (split_loop_overrun ws w [] tl (<[0 := Some 0]> words) 1 (length line))
    as Hover.
  cbn [app] in Hover. rewrite Hjoin, <- Hline in Hover. apply Hover.
  - apply Forall_forall. intros x Hx. split.
    + by eapply Forall_forall in Hsp.
    + by eapply Forall_forall in Hn.
  - lia.
  - simpl. rewrite list_lookup_insert_eq by lia. done.
  - rewrite length_insert. lia.
  - lia.
Qed.

(** Whenever the loop ends, every pointer it has stored points inside the
    buffer, whose length it has not changed. *)
Lemma split_loop_pointers fuel : ∀ line (words : list (option nat)) i line' words',
  split_loop fuel line words i = Split line' words' →
  last line = Some NUL →
  (∀ j q, j < i → words !! j = Some (Some q) → q < length line) →
  length line' = length line ∧ last line' = Some NUL ∧
  ∃ k, i ≤ k ∧ words' !! k = Some None ∧
    ∀ j q, j < k → words' !! j = Some (Some q) → q < length line.
Proof.
  induction fuel as [|fuel IH]; intros line words i line' words' Hrun Hlast Hlow;
    [done|].
  cbn [split_loop] in Hrun.
  destruct (words !! (i - 1)) as [[prev|]|] eqn:Hprev; [|done..].
  cbn zeta in Hrun. case_decide as Hi; [|done].
  destruct (strchr line prev SP) as [q|] eqn:Hq.
  - destruct (strchr_Some _ _ _ _ Hq) as [Hpq Hlq].
    assert (q < length line) as Hqlt by (by eapply lookup_lt_Some).
    assert (S q < length line) as HSq.
    { destruct (decide (S q = length line)) as [Heq|]; [|lia].
      rewrite last_lookup in Hlast. replace (pred (length line)) with q in Hlast by lia.
      rewrite Hlq in Hlast. by simplify_eq. }
    rewrite list_insert_insert_eq in Hrun.
    destruct (IH _ _ _ _ _ Hrun) as (Hlen & Hlast' & k & Hk & Hnone & Hptr).
    + rewrite last_lookup, length_insert. rewrite last_lookup in Hlast.
      destruct (decide (q = pred (length line))) as [->|Hne].
      * by rewrite list_lookup_insert_eq by lia.
      * by rewrite list_lookup_insert_ne.
    + intros j q' Hj Hjq. rewrite length_insert.
      destruct (decide (j = i)) as [->|Hne].
      * rewrite list_lookup_insert_eq in Hjq by lia. by simplify_eq.
      * rewrite list_lookup_insert_ne in Hjq by done. apply (Hlow j); [lia|done].
    + rewrite length_insert in Hlen, Hptr. split_and!; [done|done|].
      exists k. split_and!; [lia|done|done].
  - simplify_eq. split_and!; [done|done|].
    exists i. split_and!; [lia| |].
    + by rewrite list_lookup_insert_eq.
    + intros j q' Hj Hjq. rewrite list_lookup_insert_ne in Hjq by lia.
      by apply (Hlow j).
Qed.

End SplitMore.

Module PipeEdge.
Import Fd Proc FdFacts.

Lemma lowest_free_0 (t : fdtable) : fd_get t 0 = None → lowest_free t = 0.
Proof. by destruct t as [|[f|] t]. Qed.

Lemma lowest_free_1 (t : fdtable) :
  is_Some (fd_get t 0) → fd_get t 1 = None → lowest_free t = 1.
Proof.
  intros [f Hf] H1. destruct t as [|[f0|] t]; [done| |done].
  simpl. f_equal. apply lowest_free_0. exact H1.
Qed.

(** What [pipe] does to any table. *)
Lemma pipe_any k (t t' : fdtable) r w :
  pipe k t = (r, w, t') →
  r = lowest_free t ∧ r ≠ w ∧
  fd_get t' r = Some (PipeRead k) ∧ fd_get t' w = Some (PipeWrite k) ∧
  (∀ fd, fd ≠ r → fd ≠ w → fd_get t' fd = fd_get t fd) ∧
  (∀ fd, is_Some (fd_get t fd) → fd ≠ r ∧ fd ≠ w).
Proof.
  intros Hp. unfold pipe in Hp. injection Hp as <- <- <-.
  set (r := lowest_free t). set (t1 := fd_install r (PipeRead k) t).
  assert (lowest_free t1 ≠ r) as Hwr.
  { apply lowest_free_ne. subst t1. rewrite fd_get_install_eq. by eexists. }
  split_and!; try done.
  - rewrite fd_get_install_ne by done. apply fd_get_install_eq.
  - apply fd_get_install_eq.
  - intros fd Hfr Hfw. rewrite fd_get_install_ne by done.
    subst t1. by rewrite fd_get_install_ne.
  - intros fd Hfd. split.
    + intros ->. by apply (lowest_free_ne t r).
    + intros ->. apply (lowest_free_ne t1 (lowest_free t1)); [|done].
      destruct (decide (r = lowest_free t1)) as [Heq|Hne]; [by rewrite <- Heq in Hwr|].
      subst t1. by rewrite fd_get_install_ne.
Qed.

End PipeEdge.

Module StdioFacts.
Import Stdio.

Lemma through_last_newline_cons x (s : string) :
  through_last_newline (String x s) =
  let '(out, keep) := through_last_newline s in
  if decide (out = "") then
    if decide (x = CStr.LF) then (String x "", keep) else ("", String x keep)
  else (String x out, keep).
Proof. done. Qed.

(** A text that ends with a newline leaves a line-buffered stream
    whole. *)
Lemma through_last_newline_end (s : string) :
  through_last_newline (s +:+ LsShell.nl) = (s +:+ LsShell.nl, "").
Proof.
  induction s as [|x s IH]; [done|].
  change (String x s +:+ LsShell.nl) with (String x (s +:+ LsShell.nl)).
  rewrite through_last_newline_cons, IH.
  rewrite decide_False; [done|]. by destruct s.
Qed.

End StdioFacts.

(** A duplicate-free list all of whose members are [a], and which has [a],
    is [[a]]. *)
Lemma only_member (a : nat) (l : list nat) :
  NoDup l → (∀ x, x ∈ l → x = a) → a ∈ l → l = [a].
Proof.
  intros Hnd Hall Hin. destruct l as [|x l]; [by apply elem_of_nil in Hin|].
  assert (x = a) as -> by (apply Hall; by left).
  destruct l as [|y l]; [done|].
  assert (y = a) as -> by (apply Hall; right; by left).
  apply NoDup_cons in Hnd as [Hnot _]. exfalso. apply Hnot. by left.
Qed.

Lemma sealed_open_pipe_fds std (t : Fd.fdtable) :
  sealed std t → Fd.refers_to_pipe t std = true → Fd.open_pipe_fds t = [std].
Proof.
  intros Hs Hstd. apply only_member.
  - unfold Fd.open_pipe_fds. apply NoDup_filter, NoDup_seq.
  - intros x Hx. by apply Hs, FdFacts.elem_of_open_pipe_fds.
  - by apply FdFacts.elem_of_open_pipe_fds.
Qed.

(** ** The run of [argv-shell.c] over lines that fit *)

(** The run as [ended] and as the children of its lines. *)
Lemma main_ended W pids stdin junk self t :
  (∀ k, pids k ≠ 0%Z) →
  Forall (λ text, ArgvShell.fields text < 256) (Words.lines stdin) →
  ended (ArgvShell.main W pids stdin junk (Proc.start self t)).
Proof.
  intros Hpids Hall.
  rewrite (ArgvShellRefine.main_run_lines W pids Hpids) by done.
  apply RoundFacts.run_lines_ended; [done|]. apply RoundFacts.settled_start.
Qed.

Lemma main_children W pids stdin junk self t kid :
  (∀ k, pids k ≠ 0%Z) →
  Forall (λ text, ArgvShell.fields text < 256) (Words.lines stdin) →
  kid ∈ ArgvShell.children (ArgvShell.main W pids stdin junk (Proc.start self t)) →
  ∃ text c q, text ∈ Words.lines stdin ∧ kid = Rounds.child_of W text c q.
Proof.
  intros Hpids Hall Hkid.
  rewrite (ArgvShellRefine.main_run_lines W pids Hpids) in Hkid by done.
  destruct (RoundFacts.run_lines_children W pids (Words.lines stdin)
              (Proc.start self t) []) as (new & Hnew & Hall2).
  rewrite Hnew in Hkid. cbn [app] in Hkid.
  apply list_elem_of_lookup in Hkid as [i Hi].
  destruct (Forall2_lookup_r _ _ _ _ _ Hall2 Hi) as (text & Ht & c & q & -> & _ & _).
  exists text, c, q. split; [|done].
  apply lookup_take_Some in Ht as [Ht _]. by eapply list_elem_of_lookup_2.
Qed.

Module FailFacts.
Import Fd Proc ArgvShell Words Rounds.

(** A stream that is not empty has a first line, and the line a child. *)
Lemma run_lines_first_child W pids text ls p kids :
  children (run_lines W pids (text :: ls) p kids) ≠ [].
Proof.
  cbn [run_lines].
  destruct (reap (child_of W text (pids (length kids)) p)) as [s|].
  - destruct (RoundFacts.run_lines_children W pids ls
                (reported text (pids (length kids)) s p)
                (kids ++ [child_of W text (pids (length kids)) p]))
      as (new & -> & _).
    intros H. apply (f_equal length) in H. rewrite !length_app in H.
    simpl in H. lia.
  - cbn [children]. intros H. apply (f_equal length) in H.
    rewrite length_app in H. simpl in H. lia.
Qed.

Lemma main_first_child W pids stdin junk self t :
  (∀ k, pids k ≠ 0%Z) →
  Forall (λ text, fields text < 256) (lines stdin) →
  stdin ≠ [] →
  children (main W pids stdin junk (Proc.start self t)) ≠ [].
Proof.
  intros Hpids Hall Hne.
  rewrite (ArgvShellRefine.main_run_lines W pids Hpids) by done.
  destruct (ArgvShellFacts.read_line_spec stdin Hne)
    as (text & rest & _ & _ & _ & -> & _).
  apply run_lines_first_child.
Qed.

Section simple_pipe_fails.
Context (W : world) (c self : Z) (t0 : fdtable).
Hypothesis Hc : c ≠ 0%Z.

Local Ltac run H :=
  destruct (pipe 0 t0) as [[r w] t] eqn:Hpipe;
  cbv [SimplePipe.main SimplePipe.after_fork SimplePipeListing.main
       SimplePipeListing.after_fork sys_pipe sys_fork start];
  cbn [npipes fds pid log now]; rewrite Hpipe; cbn [fst snd];
  repeat first [ (case_decide; [|done]) | (case_decide; [done|]) ];
  unfold sys_execv;
  change SimplePipe.ls_args with ["/bin/ls"];
  change SimplePipeListing.ls_args with ["/bin/ls"];
  change SimplePipe.wc_args with ["/usr/bin/wc"; "-l"];
  change SimplePipeListing.wc_args with ["/usr/bin/wc"; "-l"];
  rewrite H; done.


End simple_pipe_fails.

End FailFacts.

(** ** The command a child runs *)

Module CommandFacts.
Import Fd Proc CStr ArgvShell Words Rounds CStrFacts.

Lemma cstr_from_NUL (l tl : list ascii) :
  cstr_from (l ++ NUL :: tl) = cstr_from l.
Proof.
  induction l as [|x l IH]; cbn [app cstr_from].
  - by rewrite decide_True.
  - case_decide; [done|]. by rewrite IH.
Qed.

(** The command of a line is the line without its last character, up to
    the first terminator in it. *)
Lemma command_cut (text : list ascii) :
  text ≠ [] → command text = cstr_from (take (length text - 1) text).
Proof.
  intros Hne. rewrite ArgvShellFacts.command_spec by done. apply cstr_from_NUL.
Qed.

Lemma list_ascii_of_argv (ws : list (list ascii)) :
  list_ascii_of_string <$> (string_of_list_ascii <$> ws) = ws.
Proof.
  induction ws as [|w ws IH]; [done|]. cbn [fmap list_fmap].
  rewrite list_ascii_of_string_of_list_ascii. f_equal. exact IH.
Qed.

(** What a child runs is the command of its line. *)
Lemma executed_child_of W text c p :
  executed (child_of W text c p) = Some (command text).
Proof.
  pose proof (RoundFacts.child_of_spec W text c p) as Hspec.
  unfold executed.
  destruct (exec_result W (hd "" (argv_for text)) (argv_for text));
    rewrite Hspec; cbn [log omap list_omap head];
    unfold argv_for; by rewrite list_ascii_of_argv, join_cut_at.
Qed.

(** The lines a run has made children for are the lines it has read, each
    with the child made for it. *)
Lemma main_rounds W pids stdin junk self t :
  (∀ k, pids k ≠ 0%Z) →
  Forall (λ text, fields text < 256) (lines stdin) →
  Forall2 (λ text kid, text ≠ [] ∧ ∃ c q, kid = child_of W text c q)
    (take (length (children (main W pids stdin junk (start self t))))
       (reads (shell (main W pids stdin junk (start self t)))))
    (children (main W pids stdin junk (start self t))).
Proof.
  intros Hpids Hall.
  rewrite (ArgvShellRefine.main_run_lines W pids Hpids) by done.
  destruct (RunFacts.run_lines_reads W pids (lines stdin) (start self t) [])
    as (new & Hnew & Hlen & Hreads).
  destruct (RoundFacts.run_lines_children W pids (lines stdin) (start self t) [])
    as (new' & Hnew' & Hall2).
  rewrite Hnew in Hnew'. cbn [app] in Hnew'. subst new'.
  rewrite Hreads, Hnew. cbn [app].
  change (reads (start self t)) with (@nil (list ascii)). cbn [app].
  rewrite take_app_le by (rewrite length_take; lia).
  rewrite take_take, Nat.min_id.
  pose proof (LineFacts.lines_nonempty stdin) as Hne.
  apply Forall2_same_length_lookup. split; [by eapply Forall2_length|].
  intros i text kid Ht Hk.
  destruct (Forall2_lookup_lr _ _ _ _ _ _ Hall2 Ht Hk) as (c & q & -> & _).
  split; [|by eexists _, _].
  apply lookup_take_Some in Ht as [Ht _].
  by eapply Forall_lookup_1 in Hne.
Qed.

End CommandFacts.

(** * The claims *)

(** C1 (code defect): the claim asks that at its [execv] every stage holds no
    pipe end but the standard descriptor it was aliased onto.  The listing
    in the tutorial text does that ([listing_seals]); the standalone
    [simple-pipe.c] does not: the [/bin/ls] process still has the
    descriptor [pipe] returned for the write end, the [/usr/bin/wc]
    process the one for the read end, and neither is 0 or 1. *)
Theorem standalone_keeps_aliased_ends W c self inh :
  Fd.stdio_open (Fd.boot inh) → c ≠ 0%Z →
  let '(ls, wc) := SimplePipe.main W c (Proc.start self (Fd.boot inh)) in
  ∃ r w, Proc.log ls !! 0 = Some (Proc.EPipe r w) ∧ 2 ≤ r ∧ 2 ≤ w ∧
    Fd.fd_get (Proc.fds ls) w = Some (Fd.PipeWrite 0) ∧
    Fd.fd_get (Proc.fds wc) r = Some (Fd.PipeRead 0) ∧
    ¬ sealed 1 (Proc.fds ls) ∧ ¬ sealed 0 (Proc.fds wc).
Proof.
  intros Hstd Hc.
  destruct (standalone_leftover W c self inh Hstd Hc)
    as (r & w & t & Hpipe & Hr & Hw & Hrw & Hls & Hwc).
  pose proof (SimplePipeFacts.standalone_parent_log W c self _ t r w Hc Hpipe) as Hlog.
  destruct (SimplePipe.main W c (Proc.start self (Fd.boot inh))) as [ls wc].
  simpl in *. exists r, w. split_and!; try done.
  - by rewrite Hlog.
  - intros Hs. specialize (Hs w). unfold Fd.refers_to_pipe in Hs.
    rewrite Hls in Hs. specialize (Hs eq_refl). lia.
  - intros Hs. specialize (Hs r). unfold Fd.refers_to_pipe in Hs.
    rewrite Hwc in Hs. specialize (Hs eq_refl). lia.
Qed.

Lemma standalone_keeps_aliased_ends_witness :
  let '(ls, wc) :=
    SimplePipe.main (λ _ _, Some (Proc.Exits 0)) 100
      (Proc.start 1 (Fd.boot [Some 0; Some 0; Some 0])) in
  ∃ r w, Proc.log ls !! 0 = Some (Proc.EPipe r w) ∧ 2 ≤ r ∧ 2 ≤ w ∧
    Fd.fd_get (Proc.fds ls) w = Some (Fd.PipeWrite 0) ∧
    Fd.fd_get (Proc.fds wc) r = Some (Fd.PipeRead 0) ∧
    ¬ sealed 1 (Proc.fds ls) ∧ ¬ sealed 0 (Proc.fds wc).
Proof.
  apply (standalone_keeps_aliased_ends (λ _ _, Some (Proc.Exits 0)) 100 1
           [Some 0; Some 0; Some 0]).
  - exact tty_stdio_open.
  - lia.
Defined.

(** On a terminal the leftover descriptors are 4 and 3. *)
Example standalone_on_tty :
  let '(ls, wc) :=
    SimplePipe.main (λ _ _, Some (Proc.Exits 0)) 100
      (Proc.start 1 (Fd.boot [Some 0; Some 0; Some 0])) in
  Fd.open_pipe_fds (Proc.fds ls) = [1; 4] ∧
  Fd.open_pipe_fds (Proc.fds wc) = [0; 3].
Proof. split; reflexivity. Qed.

Example listing_on_tty :
  let '(ls, wc) :=
    SimplePipeListing.main (λ _ _, Some (Proc.Exits 0)) 100
      (Proc.start 1 (Fd.boot [Some 0; Some 0; Some 0])) in
  Fd.open_pipe_fds (Proc.fds ls) = [1] ∧
  Fd.open_pipe_fds (Proc.fds wc) = [0].
Proof. split; reflexivity. Qed.

(** C2, the claim as stated fails: started with descriptor 0 in use and
    descriptor 1 not, [pipe] hands out 1 as the read end; the [/bin/ls]
    process aliases the write end onto 1 and then closes 1 as
    [pipe_fds[0]], so the first stage reaches [execv] with no descriptor 1
    at all, where the claim wants the write end of pipe 0. *)
Lemma closed_stdout_is_not_wired :
  ¬ wired
      (Proc.npipes
         (SimplePipe.main (λ _ _, Some (Proc.Exits 0)) 100
            (Proc.start 1 (Fd.boot [Some 0; None; Some 0]))).1)
      (SimplePipe.stages (λ _ _, Some (Proc.Exits 0)) 100
         (Proc.start 1 (Fd.boot [Some 0; None; Some 0]))).
Proof.
  intros (_ & _ & H).
  specialize (H 0
    (SimplePipe.main (λ _ _, Some (Proc.Exits 0)) 100
       (Proc.start 1 (Fd.boot [Some 0; None; Some 0]))).1 eq_refl).
  destruct H as (_ & H1 & _).
  assert (Fd.fd_get
            (Proc.fds
               (SimplePipe.main (λ _ _, Some (Proc.Exits 0)) 100
                  (Proc.start 1 (Fd.boot [Some 0; None; Some 0]))).1) 1
          = Some (Fd.PipeWrite 0)) as Hfd by (apply H1; vm_compute; lia).
  vm_compute in Hfd. discriminate.
Qed.

(** The listing fares no better there, and with descriptor 0 unused on
    entry its second stage is left without a descriptor 0. *)
Example listing_is_not_wired_either :
  Fd.fd_get
    (Proc.fds
       (SimplePipeListing.main (λ _ _, Some (Proc.Exits 0)) 100
          (Proc.start 1 (Fd.boot [Some 0; None; Some 0]))).1) 1 = None ∧
  Fd.fd_get
    (Proc.fds
       (SimplePipeListing.main (λ _ _, Some (Proc.Exits 0)) 100
          (Proc.start 1 (Fd.boot [None; Some 0; Some 0]))).2) 0 = None.
Proof. split; reflexivity. Qed.

(** C2, amended: the source launches pipelines of two stages
    ([simple-pipe.c], either revision) and of one ([ls-shell.c], every
    command of [argv-shell.c]), and no longer ones.  Started with
    descriptors 0 and 1 in use, the two stages of [simple-pipe.c] have
    one pipe: [/bin/ls] (stage 0) writes pipe 0 on descriptor 1,
    [/usr/bin/wc] (stage 1) reads pipe 0 on descriptor 0, the outer
    descriptors are no pipe ends, and no descriptor of a stage refers to
    any other pipe end than the adjacent one.  The single stage of
    [ls-shell.c] and of every command of [argv-shell.c] has no pipe and
    refers to none, however it is started. *)
Theorem launches_are_wired W c self inh pids stdin junk :
  c ≠ 0%Z → (∀ k, pids k ≠ 0%Z) →
  Forall (λ text, ArgvShell.fields text < 256) (Words.lines stdin) →
  (Fd.stdio_open (Fd.boot inh) →
     length (SimplePipe.stages W c (Proc.start self (Fd.boot inh))) = 2 ∧
     wired (Proc.npipes (SimplePipe.main W c (Proc.start self (Fd.boot inh))).1)
       (SimplePipe.stages W c (Proc.start self (Fd.boot inh))) ∧
     length (SimplePipeListing.stages W c (Proc.start self (Fd.boot inh))) = 2 ∧
     wired
       (Proc.npipes (SimplePipeListing.main W c (Proc.start self (Fd.boot inh))).1)
       (SimplePipeListing.stages W c (Proc.start self (Fd.boot inh)))) ∧
  wired (Proc.npipes (LsShell.main W c (Proc.start self (Fd.boot inh))).1)
    [(LsShell.main W c (Proc.start self (Fd.boot inh))).2] ∧
  ∀ kid,
    kid ∈ ArgvShell.children
            (ArgvShell.main W pids stdin junk (Proc.start self (Fd.boot inh))) →
    wired (Proc.npipes kid) [kid].
Proof.
  intros Hc Hpids Hall. split_and!.
  - intros Hstd. split_and!.
    + unfold SimplePipe.stages. by destruct (SimplePipe.main _ _ _).
    + by apply standalone_wired.
    + unfold SimplePipeListing.stages. by destruct (SimplePipeListing.main _ _ _).
    + by apply listing_wired.
  - cbv [LsShell.main Proc.sys_fork]. cbn [fst snd]. unfold LsShell.after_fork.
    rewrite (decide_False (P := c = 0%Z)) by done.
    rewrite (decide_True (P := 0%Z = 0%Z)) by done.
    apply (wired_single _ inh). unfold Proc.sys_execv.
    by destruct (Proc.exec_result _ _ _).
  - intros kid Hkid.
    rewrite (ArgvShellRefine.main_run_lines W pids Hpids) in Hkid by done.
    destruct (RoundFacts.run_lines_children W pids (Words.lines stdin)
                (Proc.start self (Fd.boot inh)) []) as (new & Hnew & Hall2).
    rewrite Hnew in Hkid. cbn [app] in Hkid.
    apply list_elem_of_lookup in Hkid as [i Hi].
    destruct (Forall2_lookup_r _ _ _ _ _ Hall2 Hi)
      as (text & _ & c' & q & -> & Hfds & Hn).
    rewrite RoundFacts.npipes_child_of, Hn. apply (wired_single _ inh).
    by rewrite RoundFacts.fds_child_of.
Qed.

Lemma launches_are_wired_witness :
  let W : Proc.world := λ _ _, Some Proc.Never in
  let p := Proc.start 1 (Fd.boot [Some 0; Some 0]) in
  (length (SimplePipe.stages W 100 p) = 2 ∧
   wired (Proc.npipes (SimplePipe.main W 100 p).1) (SimplePipe.stages W 100 p) ∧
   length (SimplePipeListing.stages W 100 p) = 2 ∧
   wired (Proc.npipes (SimplePipeListing.main W 100 p).1)
     (SimplePipeListing.stages W 100 p)) ∧
  wired (Proc.npipes (LsShell.main W 100 p).1) [(LsShell.main W 100 p).2] ∧
  ∀ kid,
    kid ∈ ArgvShell.children
            (ArgvShell.main W (λ k, 100 + Z.of_nat k)%Z
               (list_ascii_of_string "/bin/ls" ++ [CStr.LF]) (λ _, None) p) →
    wired (Proc.npipes kid) [kid].
Proof.
  intros W p.
  destruct (launches_are_wired W 100 1 [Some 0; Some 0] (λ k, 100 + Z.of_nat k)%Z
              (list_ascii_of_string "/bin/ls" ++ [CStr.LF]) (λ _, None)
              ltac:(lia) pids_from_100_nonzero
              ltac:(vm_compute; repeat constructor))
    as (Hpipe & Hls & Hargv).
  split; [|split; [exact Hls|exact Hargv]].
  apply Hpipe. split; by eexists.
Defined.

(** C3, the claim as stated fails: on a terminal, with the kernel handing
    out process id 100, the launcher (process 1) is itself the first
    stage, it forked once for two stages, and it waited for nothing. *)
Lemma simple_pipe_no_job_of_children :
  ¬ job_of_children
      (SimplePipe.main (λ _ _, Some (Proc.Exits 0)) 100
         (Proc.start 1 (Fd.boot [Some 0; Some 0; Some 0]))).1
      (SimplePipe.stages (λ _ _, Some (Proc.Exits 0)) 100
         (Proc.start 1 (Fd.boot [Some 0; Some 0; Some 0]))).
Proof. intros (Hforks & _). vm_compute in Hforks. discriminate. Qed.

(** C3, amended: [main] of [simple-pipe.c] forks exactly once; the
    [/usr/bin/wc] stage is the new child, the [/bin/ls] stage is the
    launching process itself; neither process waits for a child or writes
    a status. *)
Theorem simple_pipe_forks_once W c self t0 :
  c ≠ 0%Z →
  let '(ls, wc) := SimplePipe.main W c (Proc.start self t0) in
  Proc.forks ls = [c] ∧ Proc.forks wc = [] ∧
  Proc.pid ls = self ∧ Proc.pid wc = c ∧
  Proc.log ls !! 4 = Some (Proc.EExecv "/bin/ls" ["/bin/ls"]) ∧
  Proc.log wc !! 3 = Some (Proc.EExecv "/usr/bin/wc" ["/usr/bin/wc"; "-l"]) ∧
  Proc.waits ls = [] ∧ Proc.waits wc = [] ∧
  Proc.writes ls = [] ∧ Proc.writes wc = [].
Proof.
  intros Hc. destruct (Fd.pipe 0 t0) as [[r w] t] eqn:Hpipe.
  pose proof (SimplePipeFacts.standalone_parent_log W c self _ t r w Hc Hpipe) as Hl1.
  pose proof (SimplePipeFacts.standalone_child_log W c self _ t r w Hpipe) as Hl2.
  pose proof (SimplePipeFacts.standalone_pids W c self _ t r w Hc Hpipe) as [Hp1 Hp2].
  destruct (SimplePipe.main W c (Proc.start self t0)) as [ls wc]. simpl in *.
  unfold Proc.forks, Proc.waits, Proc.writes. rewrite Hl1, Hl2.
  split_and!; try done.
  - simpl. case_decide; [done|].
    by destruct (Proc.exec_result W "/bin/ls" SimplePipe.ls_args).
  - by destruct (Proc.exec_result W "/usr/bin/wc" SimplePipe.wc_args).
  - by destruct (Proc.exec_result W "/bin/ls" SimplePipe.ls_args).
  - by destruct (Proc.exec_result W "/usr/bin/wc" SimplePipe.wc_args).
  - by destruct (Proc.exec_result W "/bin/ls" SimplePipe.ls_args).
  - by destruct (Proc.exec_result W "/usr/bin/wc" SimplePipe.wc_args).
Qed.

Lemma simple_pipe_forks_once_witness :
  let '(ls, wc) :=
    SimplePipe.main (λ _ _, Some (Proc.Exits 0)) 100
      (Proc.start 1 (Fd.boot [Some 0; Some 0; Some 0])) in
  Proc.forks ls = [100%Z] ∧ Proc.forks wc = [] ∧
  Proc.pid ls = 1%Z ∧ Proc.pid wc = 100%Z ∧
  Proc.log ls !! 4 = Some (Proc.EExecv "/bin/ls" ["/bin/ls"]) ∧
  Proc.log wc !! 3 = Some (Proc.EExecv "/usr/bin/wc" ["/usr/bin/wc"; "-l"]) ∧
  Proc.waits ls = [] ∧ Proc.waits wc = [] ∧
  Proc.writes ls = [] ∧ Proc.writes wc = [].
Proof.
  apply (simple_pipe_forks_once (λ _ _, Some (Proc.Exits 0)) 100 1
           (Fd.boot [Some 0; Some 0; Some 0])).
  lia.
Defined.

(** C4, the claim as stated fails: typed with two spaces, [/bin/ls  -l]
    reaches [execv] with an empty second argument. *)
Lemma two_spaces_give_empty_argument :
  ¬ no_empty_argv
      (ArgvShell.main (λ _ _, Some (Proc.Exits 0)) (λ k, 100 + Z.of_nat k)%Z
         (list_ascii_of_string "/bin/ls  -l" ++ [CStr.LF])
         (λ _, None)
         (Proc.start 1 (Fd.boot [Some 0; Some 0; Some 0]))).
Proof.
  intros H.
  apply (H (Proc.Proc 100 (Fd.boot [Some 0; Some 0; Some 0]) 0
              [Proc.EFork 0; Proc.EExecv "/bin/ls" ["/bin/ls"; ""; "-l"]]
              (Proc.Image "/bin/ls" ["/bin/ls"; ""; "-l"] (Proc.Exits 0)))
           "/bin/ls" ["/bin/ls"; ""; "-l"]).
  - vm_compute. left.
  - right. left.
  - right. left.
Qed.

(** C4, amended: the word loop cuts the command at every single space and
    collapses nothing.  For each line read, the argument vector its child
    hands to [execv] has one entry more than the command has spaces, no
    entry holds a space, and the entries joined by single spaces are the
    command again; the path is the first entry. *)
Theorem argv_is_cut_at_every_space W pids stdin junk self t :
  (∀ k, pids k ≠ 0%Z) →
  Forall (λ text, ArgvShell.fields text < 256) (Words.lines stdin) →
  let R := ArgvShell.main W pids stdin junk (Proc.start self t) in
  Forall2
    (λ text kid,
       let cmd :=
         CStr.cstr
           (ArgvShell.erase_last (Z.of_nat (length text)) (text ++ [CStr.NUL])) 0 in
       ∃ pieces,
         Proc.log kid !! 1 =
           Some (Proc.EExecv (hd "" (string_of_list_ascii <$> pieces))
                   (string_of_list_ascii <$> pieces)) ∧
         length pieces = S (length (filter (λ x, x = CStr.SP) cmd)) ∧
         Forall (λ w, CStr.SP ∉ w) pieces ∧
         Words.join CStr.SP pieces = cmd)
    (take (length (ArgvShell.children R)) (Words.lines stdin))
    (ArgvShell.children R).
Proof.
  intros Hpids Hall R. subst R.
  rewrite (ArgvShellRefine.main_run_lines W pids Hpids) by done.
  destruct (RoundFacts.run_lines_children W pids (Words.lines stdin)
              (Proc.start self t) []) as (new & -> & Hnew).
  cbn [app]. eapply Forall2_impl; [exact Hnew|].
  intros text kid (c & q & -> & _ & _). cbn zeta.
  exists (Words.cut_at CStr.SP (Rounds.command text)). split_and!.
  - pose proof (RoundFacts.child_of_spec W text c q) as Hspec.
    destruct (Proc.exec_result _ _ _); by rewrite Hspec.
  - apply CStrFacts.length_cut_at.
  - apply CStrFacts.cut_at_no_sep.
  - apply CStrFacts.join_cut_at.
Qed.

Lemma argv_is_cut_at_every_space_witness :
  let R :=
    ArgvShell.main (λ _ _, Some (Proc.Exits 0)) (λ k, 100 + Z.of_nat k)%Z
      (list_ascii_of_string "/bin/ls  -l" ++ [CStr.LF]) (λ _, None)
      (Proc.start 1 (Fd.boot [Some 0; Some 0; Some 0])) in
  Forall2
    (λ text kid,
       let cmd :=
         CStr.cstr
           (ArgvShell.erase_last (Z.of_nat (length text)) (text ++ [CStr.NUL])) 0 in
       ∃ pieces,
         Proc.log kid !! 1 =
           Some (Proc.EExecv (hd "" (string_of_list_ascii <$> pieces))
                   (string_of_list_ascii <$> pieces)) ∧
         length pieces = S (length (filter (λ x, x = CStr.SP) cmd)) ∧
         Forall (λ w, CStr.SP ∉ w) pieces ∧
         Words.join CStr.SP pieces = cmd)
    (take (length (ArgvShell.children R))
       (Words.lines (list_ascii_of_string "/bin/ls  -l" ++ [CStr.LF])))
    (ArgvShell.children R).
Proof.
  apply (argv_is_cut_at_every_space (λ _ _, Some (Proc.Exits 0))
           (λ k, 100 + Z.of_nat k)%Z
           (list_ascii_of_string "/bin/ls  -l" ++ [CStr.LF]) (λ _, None)
           1 (Fd.boot [Some 0; Some 0; Some 0])).
  - exact pids_from_100_nonzero.
  - vm_compute. repeat constructor.
Defined.


(** The same run in full: no [perror], and [main] returns 0 in both
    processes. *)
Example simple_pipe_failed_exec :
  let '(ls, wc) :=
    SimplePipe.main (λ _ _, None) 100
      (Proc.start 1 (Fd.boot [Some 0; Some 0; Some 0])) in
  Proc.now ls = Proc.Returned 0 ∧ Proc.now wc = Proc.Returned 0 ∧
  Proc.writes ls = [] ∧ Proc.writes wc = [] ∧
  Proc.reap ls = Some 0%Z ∧ Proc.reap wc = Some 0%Z.
Proof. vm_compute. done. Qed.



(** Where no program can be run, the child made for [/bin/ls] is one whose
    [execv] fails, and the shell sees status 256. *)
Example failed_exec_run :
  let R :=
    ArgvShell.main (λ _ _, None) (λ k, 100 + Z.of_nat k)%Z
      (list_ascii_of_string "/bin/ls" ++ [CStr.LF]) (λ _, None)
      (Proc.start 1 (Fd.boot [Some 0; Some 0; Some 0])) in
  Proc.log <$> ArgvShell.children R =
    [[Proc.EFork 0; Proc.EExecv "/bin/ls" ["/bin/ls"];
      Proc.EPerror "execv() failed"; Proc.EReturn 1]] ∧
  Proc.waits (ArgvShell.shell R) = [(100%Z, 256%Z)].
Proof. split; vm_compute; reflexivity. Qed.

(** C6, the claim as stated fails: fed one empty line, the shell makes a
    child and writes a status line. *)
Lemma empty_line_is_not_quiet :
  ¬ quiet
      (ArgvShell.main (λ _ _, Some (Proc.Exits 0)) (λ k, 100 + Z.of_nat k)%Z
         [CStr.LF] (λ _, None)
         (Proc.start 1 (Fd.boot [Some 0; Some 0; Some 0]))).
Proof. intros [Hkids _]. vm_compute in Hkids. discriminate. Qed.

Example empty_line_run :
  let R :=
    ArgvShell.main (λ _ _, Some (Proc.Exits 0)) (λ k, 100 + Z.of_nat k)%Z
      [CStr.LF] (λ _, None)
      (Proc.start 1 (Fd.boot [Some 0; Some 0; Some 0])) in
  Proc.log (ArgvShell.shell R) =
    [Proc.EGetline [CStr.LF]; Proc.EFork 100; Proc.EWaitpid 100 256;
     Proc.EStderr ("child exited with status 256" +:+ String CStr.LF "");
     Proc.EGetline []; Proc.EReturn 0] ∧
  Proc.log <$> ArgvShell.children R =
    [[Proc.EFork 0; Proc.EExecv "" [""]; Proc.EPerror "execv() failed";
      Proc.EReturn 1]].
Proof. split; vm_compute; reflexivity. Qed.

(** C6, amended: an empty line is a round like any other.  The shell forks
    a child, whose [execv] of the empty path with the one empty argument
    fails, so that it complains and returns 1; the shell waits for it,
    writes status 256, and goes on with the rest of the stream.  At the end
    of the stream [main] returns 0. *)
Theorem empty_line_forks_and_reports W pids fuel rest
    (words : list (option nat)) p kids :
  pids (length kids) ≠ 0%Z → 1 < length words → Proc.now p = Proc.Running →
  let c := pids (length kids) in
  ArgvShell.loop W pids (S fuel) (CStr.LF :: rest) words p kids =
    ArgvShell.loop W pids fuel rest (<[1 := None]> (<[0 := Some 0]> words))
      (Proc.Proc (Proc.pid p) (Proc.fds p) (Proc.npipes p)
         (Proc.log p ++
          [Proc.EGetline [CStr.LF]; Proc.EFork c; Proc.EWaitpid c 256;
           Proc.EStderr (ArgvShell.status_line 256)])
         Proc.Running)
      (kids ++
       [Proc.Proc c (Proc.fds p) (Proc.npipes p)
          [Proc.EFork 0; Proc.EExecv "" [""]; Proc.EPerror "execv() failed";
           Proc.EReturn 1]
          (Proc.Returned 1)])
  ∧ ArgvShell.loop W pids (S fuel) [] words p kids =
      ArgvShell.Run
        (Proc.Proc (Proc.pid p) (Proc.fds p) (Proc.npipes p)
           (Proc.log p ++ [Proc.EGetline []; Proc.EReturn 0]) (Proc.Returned 0))
        kids.
Proof.
  intros Hc Hlen Hnow c. split.
  - destruct words as [|w0 [|w1 words]]; [simpl in Hlen; lia..|].
    assert (ArgvShell.getline (CStr.LF :: rest)
            = (1%Z, [CStr.LF; CStr.NUL], rest)) as Hg by reflexivity.
    assert (ArgvShell.split (ArgvShell.erase_last 1 [CStr.LF; CStr.NUL])
              (w0 :: w1 :: words)
            = ArgvShell.Split [CStr.NUL; CStr.NUL] (Some 0 :: None :: words)) as Hs.
    { change (ArgvShell.erase_last 1 [CStr.LF; CStr.NUL]) with [CStr.NUL; CStr.NUL].
      unfold ArgvShell.split.
      change (<[0:=Some 0]> (w0 :: w1 :: words)) with (Some 0 :: w1 :: words).
      change (length [CStr.NUL; CStr.NUL]) with 2.
      cbn [ArgvShell.split_loop].
      change ((Some 0 :: w1 :: words) !! (1 - 1)) with (Some (Some 0)).
      cbn beta iota zeta.
      change (CStr.strchr [CStr.NUL; CStr.NUL] 0 CStr.SP) with (@None nat).
      rewrite decide_True by (simpl; lia). reflexivity. }
    cbn [ArgvShell.loop]. rewrite Hg. cbn beta iota zeta.
    change (take (Z.to_nat 1) [CStr.LF; CStr.NUL]) with [CStr.LF].
    rewrite decide_True by lia. rewrite Hs.
    change (<[1:=None]> (<[0:=Some 0]> (w0 :: w1 :: words)))
      with (Some 0 :: None :: words).
    cbn [Proc.sys_fork]. fold c.
    assert (ArgvShell.after_fork W [CStr.NUL; CStr.NUL] (Some 0 :: None :: words)
              0 None
              (Proc.Proc c (Proc.fds (Proc.record (Proc.EGetline [CStr.LF]) p))
                 (Proc.npipes (Proc.record (Proc.EGetline [CStr.LF]) p))
                 [Proc.EFork 0] Proc.Running)
            = Proc.Proc c (Proc.fds p) (Proc.npipes p)
                [Proc.EFork 0; Proc.EExecv "" [""]; Proc.EPerror "execv() failed";
                 Proc.EReturn 1]
                (Proc.Returned 1)) as -> by reflexivity.
    unfold ArgvShell.after_fork. rewrite decide_True by done.
    change (Proc.reap _) with (Some 256%Z). cbn [Proc.now Proc.record]. rewrite Hnow.
    f_equal. unfold Proc.record. cbn [Proc.pid Proc.fds Proc.npipes Proc.log Proc.now].
    rewrite Hnow. by rewrite <- !app_assoc.
  - simpl. unfold Proc.sys_return, Proc.record. simpl. by rewrite <- !app_assoc.
Qed.

Lemma empty_line_forks_and_reports_witness :
  let p := Proc.start 1 (Fd.boot [Some 0; Some 0; Some 0]) in
  let W : Proc.world := λ _ _, Some (Proc.Exits 0) in
  let pids := (λ k : nat, 100 + Z.of_nat k)%Z in
  let c := pids (length (@nil Proc.proc)) in
  ArgvShell.loop W pids 2 [CStr.LF] (replicate 256 None) p [] =
    ArgvShell.loop W pids 1 [] (<[1 := None]> (<[0 := Some 0]> (replicate 256 None)))
      (Proc.Proc (Proc.pid p) (Proc.fds p) (Proc.npipes p)
         (Proc.log p ++
          [Proc.EGetline [CStr.LF]; Proc.EFork c; Proc.EWaitpid c 256;
           Proc.EStderr (ArgvShell.status_line 256)])
         Proc.Running)
      ([] ++
       [Proc.Proc c (Proc.fds p) (Proc.npipes p)
          [Proc.EFork 0; Proc.EExecv "" [""]; Proc.EPerror "execv() failed";
           Proc.EReturn 1]
          (Proc.Returned 1)])
  ∧ ArgvShell.loop W pids 2 [] (replicate 256 None) p [] =
      ArgvShell.Run
        (Proc.Proc (Proc.pid p) (Proc.fds p) (Proc.npipes p)
           (Proc.log p ++ [Proc.EGetline []; Proc.EReturn 0]) (Proc.Returned 0))
        [].
Proof.
  intros p W pids.
  apply (empty_line_forks_and_reports W pids 1 [] (replicate 256 None) p []).
  - vm_compute. discriminate.
  - vm_compute. lia.
  - reflexivity.
Defined.



(** Two lines, two children, each waited for before the next line is
    read. *)
Example two_lines_history :
  Proc.log
    (ArgvShell.shell
       (ArgvShell.main (λ _ _, Some (Proc.Exits 3)) (λ k, 100 + Z.of_nat k)%Z
          (list_ascii_of_string "/bin/ls -l" ++ [CStr.LF; CStr.LF])
          (λ _, None)
          (Proc.start 1 (Fd.boot [Some 0; Some 0; Some 0]))))
  = [Proc.EGetline (list_ascii_of_string "/bin/ls -l" ++ [CStr.LF]);
     Proc.EFork 100; Proc.EWaitpid 100 768;
     Proc.EStderr ("child exited with status 768" +:+ String CStr.LF "");
     Proc.EGetline [CStr.LF];
     Proc.EFork 101; Proc.EWaitpid 101 256;
     Proc.EStderr ("child exited with status 256" +:+ String CStr.LF "");
     Proc.EGetline []; Proc.EReturn 0].
Proof. vm_compute. reflexivity. Qed.

(** The discipline is broken by a shell that reads on without waiting. *)
Example reaping_rejects_unreaped :
  reaping [Proc.EGetline [CStr.LF]; Proc.EFork 100; Proc.EGetline []] = None ∧
  reaping [Proc.EFork 100; Proc.EWaitpid 100 0; Proc.EWaitpid 100 0] = None ∧
  reaping [Proc.EFork 100; Proc.EWaitpid 101 0] = None.
Proof. done. Qed.

(** C8: for a line of fewer than 256 fields the word loop ends without a
    store outside [words], whatever the array held before; it leaves a
    null pointer at the index that equals the number of words, below 256,
    with non-null pointers before it, so the vector [execv] reads ends
    inside the array. *)
Theorem words_stay_in_bounds stdin n line rest (words : list (option nat)) :
  ArgvShell.getline stdin = (n, line, rest) → (0 < n)%Z →
  ArgvShell.fields (take (Z.to_nat n) line) < 256 → length words = 256 →
  ∃ line' words' argv,
    ArgvShell.split (ArgvShell.erase_last n line) words
      = ArgvShell.Split line' words' ∧
    length words' = 256 ∧
    ArgvShell.argv_of line' words' = Some argv ∧
    length argv < 256 ∧
    words' !! length argv = Some None ∧
    ∀ j, j < length argv → ∃ q, words' !! j = Some (Some q).
Proof.
  intros Hg Hn Hf Hlen.
  destruct (getline_positive _ _ _ _ Hg Hn) as (text & Hne & -> & -> & Htake & _).
  rewrite Htake in Hf.
  destruct (ArgvShellRefine.split_line text words Hne ltac:(lia))
    as (line' & words' & Hsplit & Hlen' & _ & Hargv & _ & Hend & Hmid).
  pose proof (ArgvShellFacts.command_words_le_fields text Hne) as Hle.
  exists line', words', (Words.cut_at CStr.SP (Rounds.command text)).
  split_and!; try done; lia.
Qed.

Lemma words_stay_in_bounds_witness :
  ∃ line' words' argv,
    ArgvShell.split
      (ArgvShell.erase_last 3 ["a"%char; CStr.SP; CStr.LF; CStr.NUL])
      (replicate 256 None)
      = ArgvShell.Split line' words' ∧
    length words' = 256 ∧
    ArgvShell.argv_of line' words' = Some argv ∧
    length argv < 256 ∧
    words' !! length argv = Some None ∧
    ∀ j, j < length argv → ∃ q, words' !! j = Some (Some q).
Proof.
  apply (words_stay_in_bounds ["a"%char; CStr.SP; CStr.LF] 3
           ["a"%char; CStr.SP; CStr.LF; CStr.NUL] [] (replicate 256 None)).
  - reflexivity.
  - lia.
  - vm_compute. lia.
  - reflexivity.
Defined.

(** The bound is the array's: a line of 256 fields makes the loop store
    at [words[256]]. *)
Example split_overruns_at_256 :
  ArgvShell.split
    (concat (replicate 255 ["a"%char; CStr.SP]) ++ ["a"%char; CStr.NUL; CStr.NUL])
    (replicate 256 None) = ArgvShell.Overrun.
Proof. vm_compute. reflexivity. Qed.

(** C9, the claim as stated fails: the line [a], terminator, [b], newline
    ends with a newline, yet what is run is [a], not the typed text: the
    command stops at the first terminator the line holds. *)
Lemma embedded_terminator_cuts_the_command :
  ¬ runs_what_was_typed
      (ArgvShell.main (λ _ _, Some (Proc.Exits 0)) (λ k, 100 + Z.of_nat k)%Z
         ["a"%char; CStr.NUL; "b"%char; CStr.LF] (λ _, None)
         (Proc.start 1 (Fd.boot [Some 0; Some 0; Some 0]))).
Proof.
  intros H. unfold runs_what_was_typed in H.
  set (R := ArgvShell.main _ _ _ _ _) in H.
  assert (take (length (ArgvShell.children R)) (reads (ArgvShell.shell R)) !! 0
          = Some ["a"%char; CStr.NUL; "b"%char; CStr.LF]) as Ht
    by (vm_compute; reflexivity).
  assert (ArgvShell.children R !! 0
          = Some (hd (Proc.start 0 []) (ArgvShell.children R))) as Hk
    by (vm_compute; reflexivity).
  destruct (Forall2_lookup_lr _ _ _ _ _ _ H Ht Hk) as [_ Hiff].
  specialize (Hiff eq_refl). vm_compute in Hiff. discriminate.
Qed.

Example embedded_terminator_run :
  executed
    (hd (Proc.start 0 [])
       (ArgvShell.children
          (ArgvShell.main (λ _ _, Some (Proc.Exits 0)) (λ k, 100 + Z.of_nat k)%Z
             ["a"%char; CStr.NUL; "b"%char; CStr.LF] (λ _, None)
             (Proc.start 1 (Fd.boot [Some 0; Some 0; Some 0])))))
  = Some ["a"%char] ∧
  typed ["a"%char; CStr.NUL; "b"%char; CStr.LF] = ["a"%char; CStr.NUL; "b"%char].
Proof. split; vm_compute; reflexivity. Qed.

(** C9, amended: for every line the shell reads it makes a child, and what
    the child runs is the line without its last character, whatever that
    character is, up to the first terminator character the line holds.
    For a line that holds no terminator character the command is then the
    line without its last character: it is the typed text exactly when
    the line ends with a newline, and a line that does not loses the last
    character of the typed text. *)
Theorem last_character_erased W pids stdin junk self t :
  (∀ k, pids k ≠ 0%Z) →
  Forall (λ text, ArgvShell.fields text < 256) (Words.lines stdin) →
  let R := ArgvShell.main W pids stdin junk (Proc.start self t) in
  (stdin ≠ [] → ArgvShell.children R ≠ []) ∧
  Forall2
    (λ text kid,
       executed kid = Some (CStr.cstr_from (take (length text - 1) text)) ∧
       (CStr.NUL ∉ text →
          executed kid = Some (take (length text - 1) text) ∧
          (executed kid = Some (typed text) ↔ last text = Some CStr.LF) ∧
          (last text ≠ Some CStr.LF →
             executed kid = Some (take (length (typed text) - 1) (typed text)))))
    (take (length (ArgvShell.children R)) (reads (ArgvShell.shell R)))
    (ArgvShell.children R).
Proof.
  intros Hpids Hall R. subst R. split.
  { intros Hne. by apply FailFacts.main_first_child. }
  eapply Forall2_impl;
    [exact (CommandFacts.main_rounds W pids stdin junk self t Hpids Hall)|].
  intros text kid (Hne & c & q & ->).
  rewrite CommandFacts.executed_child_of. split.
  - by rewrite CommandFacts.command_cut.
  - intros Hnul. rewrite (ArgvShellFacts.command_plain text Hne Hnul).
    split_and!; [done| |].
    + unfold typed. case_decide as Hl; [done|]. split; [|done].
      intros Heq. injection Heq as Heq.
      apply (f_equal length) in Heq. rewrite length_take in Heq.
      destruct text; [done|]. simpl in Heq. lia.
    + intros Hl. unfold typed. by rewrite decide_False.
Qed.

Lemma last_character_erased_witness :
  let R :=
    ArgvShell.main (λ _ _, Some (Proc.Exits 0)) (λ k, 100 + Z.of_nat k)%Z
      (list_ascii_of_string "/bin/ls -l" ++ [CStr.LF; "l"%char; "s"%char])
      (λ _, None) (Proc.start 1 (Fd.boot [Some 0; Some 0; Some 0])) in
  (list_ascii_of_string "/bin/ls -l" ++ [CStr.LF; "l"%char; "s"%char] ≠ [] →
   ArgvShell.children R ≠ []) ∧
  Forall2
    (λ text kid,
       executed kid = Some (CStr.cstr_from (take (length text - 1) text)) ∧
       (CStr.NUL ∉ text →
          executed kid = Some (take (length text - 1) text) ∧
          (executed kid = Some (typed text) ↔ last text = Some CStr.LF) ∧
          (last text ≠ Some CStr.LF →
             executed kid = Some (take (length (typed text) - 1) (typed text)))))
    (take (length (ArgvShell.children R)) (reads (ArgvShell.shell R)))
    (ArgvShell.children R).
Proof.
  apply (last_character_erased (λ _ _, Some (Proc.Exits 0))
           (λ k, 100 + Z.of_nat k)%Z
           (list_ascii_of_string "/bin/ls -l" ++ [CStr.LF; "l"%char; "s"%char])
           (λ _, None) 1 (Fd.boot [Some 0; Some 0; Some 0])).
  - exact pids_from_100_nonzero.
  - vm_compute. repeat constructor.
Defined.

(** Typed without a newline at the end of the stream, [ls] runs as [l]. *)
Example last_line_loses_a_character :
  executed <$>
    ArgvShell.children
      (ArgvShell.main (λ _ _, Some (Proc.Exits 0)) (λ k, 100 + Z.of_nat k)%Z
         (list_ascii_of_string "/bin/ls -l" ++ [CStr.LF; "l"%char; "s"%char])
         (λ _, None) (Proc.start 1 (Fd.boot [Some 0; Some 0; Some 0])))
  = [Some (list_ascii_of_string "/bin/ls -l"); Some ["l"%char]].
Proof. vm_compute. reflexivity. Qed.

(** C10 (code defect): the standalone [simple-pipe.c] and the listing do
    not leave the same pipe descriptors open at [execv], in either stage:
    the standalone file keeps the descriptor it aliased, the listing closes
    it. *)
Theorem revisions_differ_in_open_pipe_fds W c self inh :
  Fd.stdio_open (Fd.boot inh) → c ≠ 0%Z →
  Fd.open_pipe_fds (Proc.fds (SimplePipe.main W c (Proc.start self (Fd.boot inh))).1)
    ≠ Fd.open_pipe_fds
        (Proc.fds (SimplePipeListing.main W c (Proc.start self (Fd.boot inh))).1)
  ∧
  Fd.open_pipe_fds (Proc.fds (SimplePipe.main W c (Proc.start self (Fd.boot inh))).2)
    ≠ Fd.open_pipe_fds
        (Proc.fds (SimplePipeListing.main W c (Proc.start self (Fd.boot inh))).2).
Proof.
  intros Hstd Hc.
  destruct (standalone_leftover W c self inh Hstd Hc)
    as (r & w & t & Hpipe & Hr & Hw & Hrw & Hls & Hwc).
  pose proof (listing_seals W c self inh Hstd Hc) as Hl.
  remember (SimplePipe.main W c (Proc.start self (Fd.boot inh))) as old eqn:Hold.
  clear Hold.
  destruct (SimplePipeListing.main W c (Proc.start self (Fd.boot inh))) as [ls' wc'].
  destruct Hl as (r' & w' & _ & _ & _ & _ & Hsl & Hsw). cbn [fst snd].
  split; intros Heq.
  - assert (w ∈ Fd.open_pipe_fds (Proc.fds ls')) as Hin.
    { rewrite <- Heq. apply FdFacts.elem_of_open_pipe_fds.
      unfold Fd.refers_to_pipe. by rewrite Hls. }
    apply FdFacts.elem_of_open_pipe_fds, Hsl in Hin. lia.
  - assert (r ∈ Fd.open_pipe_fds (Proc.fds wc')) as Hin.
    { rewrite <- Heq. apply FdFacts.elem_of_open_pipe_fds.
      unfold Fd.refers_to_pipe. by rewrite Hwc. }
    apply FdFacts.elem_of_open_pipe_fds, Hsw in Hin. lia.
Qed.

Lemma revisions_differ_in_open_pipe_fds_witness :
  Fd.open_pipe_fds
    (Proc.fds (SimplePipe.main (λ _ _, None) 7
                 (Proc.start 1 (Fd.boot [Some 0; Some 0; Some 0]))).1)
    ≠ Fd.open_pipe_fds
        (Proc.fds (SimplePipeListing.main (λ _ _, None) 7
                     (Proc.start 1 (Fd.boot [Some 0; Some 0; Some 0]))).1)
  ∧
  Fd.open_pipe_fds
    (Proc.fds (SimplePipe.main (λ _ _, None) 7
                 (Proc.start 1 (Fd.boot [Some 0; Some 0; Some 0]))).2)
    ≠ Fd.open_pipe_fds
        (Proc.fds (SimplePipeListing.main (λ _ _, None) 7
                     (Proc.start 1 (Fd.boot [Some 0; Some 0; Some 0]))).2).
Proof.
  apply (revisions_differ_in_open_pipe_fds (λ _ _, None) 7 1 [Some 0; Some 0; Some 0]).
  - exact tty_stdio_open.
  - lia.
Defined.

(** * Further properties of the programs *)

(** X1: with descriptors 0 and 1 in use on entry, both revisions of
    [simple-pipe.c] change nothing but descriptor 1 of the [/bin/ls]
    process, descriptor 0 of the [/usr/bin/wc] process and the two
    descriptors [pipe] returned: every other descriptor, standard error
    included, reaches [execv] as it was inherited, and so do the standard
    input of [/bin/ls] and the standard output of [/usr/bin/wc]. *)
Theorem simple_pipe_touches_only_its_descriptors W c self (t0 : Fd.fdtable) :
  Fd.stdio_open t0 → c ≠ 0%Z →
  ∃ r w t, Fd.pipe 0 t0 = (r, w, t) ∧ 2 ≤ r ∧ 2 ≤ w ∧
    ∀ fd, fd ≠ r → fd ≠ w →
      (fd ≠ 1 →
         Fd.fd_get (Proc.fds (SimplePipe.main W c (Proc.start self t0)).1) fd
           = Fd.fd_get t0 fd ∧
         Fd.fd_get (Proc.fds (SimplePipeListing.main W c (Proc.start self t0)).1) fd
           = Fd.fd_get t0 fd) ∧
      (fd ≠ 0 →
         Fd.fd_get (Proc.fds (SimplePipe.main W c (Proc.start self t0)).2) fd
           = Fd.fd_get t0 fd ∧
         Fd.fd_get (Proc.fds (SimplePipeListing.main W c (Proc.start self t0)).2) fd
           = Fd.fd_get t0 fd).
Proof.
  intros Hstd Hc. destruct (Fd.pipe 0 t0) as [[r w] t] eqn:Hpipe.
  destruct (PipeFacts.pipe_fds_high _ _ _ _ Hstd Hpipe) as (Hr & Hw & Hrw).
  exists r, w, t. split_and!; try done. intros fd Hfr Hfw.
  rewrite (SimplePipeFacts.standalone_parent_fds W c self _ t r w),
    (SimplePipeFacts.standalone_child_fds W c self _ t r w),
    (SimplePipeFacts.listing_parent_fds W c self _ t r w),
    (SimplePipeFacts.listing_child_fds W c self _ t r w) by done.
  rewrite (PipeFacts.standalone_ls _ _ _ _ Hstd Hpipe),
    (PipeFacts.standalone_wc _ _ _ _ Hstd Hpipe),
    (PipeFacts.listing_ls _ _ _ _ Hstd Hpipe),
    (PipeFacts.listing_wc _ _ _ _ Hstd Hpipe).
  split; intros Hfd; split; repeat case_decide; done.
Qed.

Lemma simple_pipe_touches_only_its_descriptors_witness :
  let t0 := Fd.boot [Some 0; Some 1; Some 2; None; None; Some 5] in
  let W : Proc.world := λ _ _, Some (Proc.Exits 0) in
  ∃ r w t, Fd.pipe 0 t0 = (r, w, t) ∧ 2 ≤ r ∧ 2 ≤ w ∧
    ∀ fd, fd ≠ r → fd ≠ w →
      (fd ≠ 1 →
         Fd.fd_get (Proc.fds (SimplePipe.main W 100 (Proc.start 1 t0)).1) fd
           = Fd.fd_get t0 fd ∧
         Fd.fd_get (Proc.fds (SimplePipeListing.main W 100 (Proc.start 1 t0)).1) fd
           = Fd.fd_get t0 fd) ∧
      (fd ≠ 0 →
         Fd.fd_get (Proc.fds (SimplePipe.main W 100 (Proc.start 1 t0)).2) fd
           = Fd.fd_get t0 fd ∧
         Fd.fd_get (Proc.fds (SimplePipeListing.main W 100 (Proc.start 1 t0)).2) fd
           = Fd.fd_get t0 fd).
Proof.
  intros t0 W. apply (simple_pipe_touches_only_its_descriptors W 100 1 t0).
  - split; by eexists.
  - lia.
Defined.

Section closed_on_entry.
Import Fd Proc FdFacts PipeEdge SimplePipeFacts.
Context (W : world) (c self : Z) (inh : list (option nat)).
Hypothesis Hc : c ≠ 0%Z.

(** The tables either revision leaves when descriptor 0 is unused on
    entry, so that it becomes the read end. *)
Lemma stdin_closed_tables :
  fd_get (boot inh) 0 = None →
  fd_get (fds (SimplePipeListing.main W c (start self (boot inh))).2) 0 = None ∧
  (∀ fd, refers_to_pipe
           (fds (SimplePipeListing.main W c (start self (boot inh))).2) fd = false) ∧
  fd_get (fds (SimplePipe.main W c (start self (boot inh))).2) 0
    = Some (PipeRead 0).
Proof.
  intros H0. destruct (pipe 0 (boot inh)) as [[r w] t] eqn:Hpipe.
  destruct (pipe_any _ _ _ _ _ Hpipe) as (Hr & Hrw & Hgr & Hgw & Hother & _).
  rewrite (lowest_free_0 _ H0) in Hr. subst r.
  rewrite (listing_child_fds W c self _ t 0 w), (standalone_child_fds W c self _ t 0 w)
    by done.
  assert (dup2 0 0 t = t) as Hdup.
  { unfold dup2. rewrite Hgr. by rewrite decide_True. }
  rewrite Hdup. split_and!.
  - rewrite fd_get_close_ne by done. apply fd_get_close_eq.
  - intros fd. unfold refers_to_pipe.
    destruct (decide (fd = w)) as [->|Hw]; [by rewrite fd_get_close_eq|].
    rewrite fd_get_close_ne by done.
    destruct (decide (fd = 0)) as [->|H0']; [by rewrite fd_get_close_eq|].
    rewrite fd_get_close_ne by done. rewrite Hother by done. apply boot_no_pipe.
  - by rewrite fd_get_close_ne.
Qed.

(** The tables either revision leaves when descriptor 0 is in use and
    descriptor 1 is not, so that 1 becomes the read end. *)
Lemma stdout_closed_tables :
  is_Some (fd_get (boot inh) 0) → fd_get (boot inh) 1 = None →
  fd_get (fds (SimplePipe.main W c (start self (boot inh))).1) 1 = None ∧
  fd_get (fds (SimplePipeListing.main W c (start self (boot inh))).1) 1 = None ∧
  (∀ fd, refers_to_pipe
           (fds (SimplePipeListing.main W c (start self (boot inh))).1) fd = false) ∧
  fd_get (fds (SimplePipe.main W c (start self (boot inh))).2) 0
    = Some (PipeRead 0) ∧
  fd_get (fds (SimplePipeListing.main W c (start self (boot inh))).2) 0
    = Some (PipeRead 0).
Proof.
  intros H0 H1. destruct (pipe 0 (boot inh)) as [[r w] t] eqn:Hpipe.
  destruct (pipe_any _ _ _ _ _ Hpipe) as (Hr & Hrw & Hgr & Hgw & Hother & Hused).
  rewrite (lowest_free_1 _ H0 H1) in Hr. subst r.
  destruct (Hused 0 H0) as [_ Hw0].
  rewrite (listing_parent_fds W c self _ t 1 w), (standalone_parent_fds W c self _ t 1 w),
    (listing_child_fds W c self _ t 1 w), (standalone_child_fds W c self _ t 1 w)
    by done.
  split_and!.
  - apply fd_get_close_eq.
  - apply fd_get_close_eq.
  - intros fd. unfold refers_to_pipe.
    destruct (decide (fd = 1)) as [->|Hf1]; [by rewrite fd_get_close_eq|].
    rewrite fd_get_close_ne by done.
    destruct (decide (fd = w)) as [->|Hfw]; [by rewrite fd_get_close_eq|].
    rewrite fd_get_close_ne by done. rewrite fd_get_dup2_ne by done.
    rewrite Hother by done. apply boot_no_pipe.
  - rewrite fd_get_close_ne by done. by apply fd_get_dup2_new.
  - rewrite !fd_get_close_ne by done. by apply fd_get_dup2_new.
Qed.
End closed_on_entry.

(** X2: started with descriptor 0 unused, [pipe] hands out 0 as the read
    end.  The listing's [/usr/bin/wc] process then aliases 0 onto itself
    and closes it: it reaches [execv] with no standard input and with no
    descriptor on the pipe at all.  The standalone file, which does not
    close that descriptor, leaves descriptor 0 on the read end. *)
Theorem closed_stdin_costs_the_listing_its_input W c self inh :
  c ≠ 0%Z → Fd.fd_get (Fd.boot inh) 0 = None →
  Fd.fd_get
    (Proc.fds (SimplePipeListing.main W c (Proc.start self (Fd.boot inh))).2) 0
    = None ∧
  (∀ fd, Fd.refers_to_pipe
           (Proc.fds (SimplePipeListing.main W c (Proc.start self (Fd.boot inh))).2)
           fd = false) ∧
  Fd.fd_get (Proc.fds (SimplePipe.main W c (Proc.start self (Fd.boot inh))).2) 0
    = Some (Fd.PipeRead 0).
Proof. intros Hc H0. by apply stdin_closed_tables. Qed.

Lemma closed_stdin_costs_the_listing_its_input_witness :
  let W : Proc.world := λ _ _, Some (Proc.Exits 0) in
  let p := Proc.start 1 (Fd.boot [None; Some 1; Some 2]) in
  Fd.fd_get (Proc.fds (SimplePipeListing.main W 100 p).2) 0 = None ∧
  (∀ fd, Fd.refers_to_pipe (Proc.fds (SimplePipeListing.main W 100 p).2) fd
         = false) ∧
  Fd.fd_get (Proc.fds (SimplePipe.main W 100 p).2) 0 = Some (Fd.PipeRead 0).
Proof.
  intros W p.
  apply (closed_stdin_costs_the_listing_its_input W 100 1 [None; Some 1; Some 2]).
  - lia.
  - reflexivity.
Defined.

(** X3: started with descriptor 0 in use and descriptor 1 unused, [pipe]
    hands out 1 as the read end.  In both revisions the [/bin/ls] process
    aliases the write end onto 1 and then closes 1 as "the read end": it
    reaches [execv] with no standard output.  In the listing it holds no
    descriptor on the pipe at all.  The [/usr/bin/wc] process has the read
    end on descriptor 0 in both. *)
Theorem closed_stdout_costs_ls_its_output W c self inh :
  c ≠ 0%Z →
  is_Some (Fd.fd_get (Fd.boot inh) 0) → Fd.fd_get (Fd.boot inh) 1 = None →
  Fd.fd_get (Proc.fds (SimplePipe.main W c (Proc.start self (Fd.boot inh))).1) 1
    = None ∧
  Fd.fd_get
    (Proc.fds (SimplePipeListing.main W c (Proc.start self (Fd.boot inh))).1) 1
    = None ∧
  (∀ fd, Fd.refers_to_pipe
           (Proc.fds (SimplePipeListing.main W c (Proc.start self (Fd.boot inh))).1)
           fd = false) ∧
  Fd.fd_get (Proc.fds (SimplePipe.main W c (Proc.start self (Fd.boot inh))).2) 0
    = Some (Fd.PipeRead 0) ∧
  Fd.fd_get
    (Proc.fds (SimplePipeListing.main W c (Proc.start self (Fd.boot inh))).2) 0
    = Some (Fd.PipeRead 0).
Proof. intros Hc H0 H1. by apply stdout_closed_tables. Qed.

Lemma closed_stdout_costs_ls_its_output_witness :
  let W : Proc.world := λ _ _, Some (Proc.Exits 0) in
  let p := Proc.start 1 (Fd.boot [Some 0; None; Some 2]) in
  Fd.fd_get (Proc.fds (SimplePipe.main W 100 p).1) 1 = None ∧
  Fd.fd_get (Proc.fds (SimplePipeListing.main W 100 p).1) 1 = None ∧
  (∀ fd, Fd.refers_to_pipe (Proc.fds (SimplePipeListing.main W 100 p).1) fd
         = false) ∧
  Fd.fd_get (Proc.fds (SimplePipe.main W 100 p).2) 0 = Some (Fd.PipeRead 0) ∧
  Fd.fd_get (Proc.fds (SimplePipeListing.main W 100 p).2) 0
    = Some (Fd.PipeRead 0).
Proof.
  intros W p.
  apply (closed_stdout_costs_ls_its_output W 100 1 [Some 0; None; Some 2]).
  - lia.
  - by eexists.
  - reflexivity.
Defined.

(** X4: with descriptors 0 and 1 in use on entry, each process of the
    listing first aliases its pipe end onto its standard descriptor, then
    closes both descriptors [pipe] returned, and only then calls [execv];
    at that call its one descriptor on the pipe is the standard one. *)
Theorem listing_closes_before_exec W c self inh :
  Fd.stdio_open (Fd.boot inh) → c ≠ 0%Z →
  let '(ls, wc) := SimplePipeListing.main W c (Proc.start self (Fd.boot inh)) in
  ∃ r w,
    take 6 (Proc.log ls) =
      [Proc.EPipe r w; Proc.EFork c; Proc.EDup2 w 1; Proc.EClose w;
       Proc.EClose r; Proc.EExecv "/bin/ls" ["/bin/ls"]] ∧
    take 5 (Proc.log wc) =
      [Proc.EFork 0; Proc.EDup2 r 0; Proc.EClose r; Proc.EClose w;
       Proc.EExecv "/usr/bin/wc" ["/usr/bin/wc"; "-l"]] ∧
    Fd.open_pipe_fds (Proc.fds ls) = [1] ∧
    Fd.open_pipe_fds (Proc.fds wc) = [0].
Proof.
  intros Hstd Hc. pose proof (listing_seals W c self inh Hstd Hc) as H.
  destruct (SimplePipeListing.main W c (Proc.start self (Fd.boot inh))) as [ls wc].
  destruct H as (r & w & Hl1 & Hl2 & H1 & H0 & Hs1 & Hs0).
  exists r, w. rewrite Hl1, Hl2. split_and!; [done|done| |].
  - apply sealed_open_pipe_fds; [done|]. unfold Fd.refers_to_pipe. by rewrite H1.
  - apply sealed_open_pipe_fds; [done|]. unfold Fd.refers_to_pipe. by rewrite H0.
Qed.

Lemma listing_closes_before_exec_witness :
  let '(ls, wc) :=
    SimplePipeListing.main (λ _ _, None) 100
      (Proc.start 1 (Fd.boot [Some 0; Some 1; Some 2])) in
  ∃ r w,
    take 6 (Proc.log ls) =
      [Proc.EPipe r w; Proc.EFork 100; Proc.EDup2 w 1; Proc.EClose w;
       Proc.EClose r; Proc.EExecv "/bin/ls" ["/bin/ls"]] ∧
    take 5 (Proc.log wc) =
      [Proc.EFork 0; Proc.EDup2 r 0; Proc.EClose r; Proc.EClose w;
       Proc.EExecv "/usr/bin/wc" ["/usr/bin/wc"; "-l"]] ∧
    Fd.open_pipe_fds (Proc.fds ls) = [1] ∧
    Fd.open_pipe_fds (Proc.fds wc) = [0].
Proof.
  apply (listing_closes_before_exec (λ _ _, None) 100 1 [Some 0; Some 1; Some 2]).
  - split; by eexists.
  - lia.
Defined.

(** X5: what the uninitialised array [words] holds on entry never shows:
    over lines that fit the array, two runs that differ only in that
    content are the same run, children and histories included. *)
Theorem uninitialised_words_do_not_matter W pids stdin junk junk' p :
  (∀ k, pids k ≠ 0%Z) → Proc.now p = Proc.Running →
  Forall (λ text, ArgvShell.fields text < 256) (Words.lines stdin) →
  ArgvShell.main W pids stdin junk p = ArgvShell.main W pids stdin junk' p.
Proof.
  intros Hpids Hnow Hall.
  by rewrite !(ArgvShellRefine.main_run_lines W pids Hpids) by done.
Qed.

Lemma uninitialised_words_do_not_matter_witness :
  ArgvShell.main (λ _ _, Some (Proc.Exits 0)) (λ k, 100 + Z.of_nat k)%Z
    (list_ascii_of_string "/bin/ls -l" ++ [CStr.LF; "x"%char; CStr.LF])
    (λ _, None) (Proc.start 1 (Fd.boot [Some 0; Some 0; Some 0]))
  = ArgvShell.main (λ _ _, Some (Proc.Exits 0)) (λ k, 100 + Z.of_nat k)%Z
      (list_ascii_of_string "/bin/ls -l" ++ [CStr.LF; "x"%char; CStr.LF])
      (λ i, Some (7 * i)) (Proc.start 1 (Fd.boot [Some 0; Some 0; Some 0])).
Proof.
  apply (uninitialised_words_do_not_matter (λ _ _, Some (Proc.Exits 0))
           (λ k, 100 + Z.of_nat k)%Z).
  - exact pids_from_100_nonzero.
  - reflexivity.
  - vm_compute. repeat constructor.
Defined.

(** ** The loop with descriptor 0 shared *)

Module SharedFacts.
Import Fd Proc CStr ArgvShell Words Rounds CStrFacts SplitFacts ArgvShellFacts.
Import RoundFacts RunFacts.

(** [split_line], by the number of pieces the command shows. *)
Lemma split_command (text : list ascii) (words : list (option nat)) :
  text ≠ [] → length (cut_at SP (command text)) < length words →
  ∃ line' words',
    split (erase_last (Z.of_nat (length text)) (text ++ [NUL])) words
      = Split line' words'
    ∧ length words' = length words
    ∧ words' !! 0 = Some (Some 0)
    ∧ argv_of line' words' = Some (cut_at SP (command text))
    ∧ cstr line' 0 = hd [] (cut_at SP (command text)).
Proof.
  intros Hne Hlen.
  destruct (split_spec (erase_last (Z.of_nat (length text)) (text ++ [NUL])) words)
    as (line' & words' & tl & Hsplit & _ & _ & Hlen' & H0 & Hargv & _ & _).
  - by apply erased_has_NUL.
  - exact Hlen.
  - fold (command text) in Hargv. exists line', words'. split_and!; try done.
    destruct words' as [|[q|] rest]; simplify_eq/=.
    destruct (argv_of line' rest); simplify_eq/=. by rewrite <- Hargv.
Qed.

Lemma split_command_overrun (text : list ascii) (words : list (option nat)) :
  text ≠ [] → 0 < length words →
  length words ≤ length (cut_at SP (command text)) →
  split (erase_last (Z.of_nat (length text)) (text ++ [NUL])) words = Overrun.
Proof.
  intros Hne Hpos Hlen. apply SplitMore.split_overrun; [|done|done].
  by apply erased_has_NUL.
Qed.

Lemma filter_nonempty (ls : list (list ascii)) :
  Forall (λ text, text ≠ []) ls → filter (λ text, text ≠ []) ls = ls.
Proof.
  induction 1 as [|text ls Hne _ IH]; [done|].
  rewrite filter_cons_True by done. by rewrite IH.
Qed.

Section shared.
Context (W : world) (pids : nat → Z) (share : SharedStdin.sharing).
Hypothesis Hpids : ∀ k, pids k ≠ 0%Z.

(** At the end of the stream the loop ends. *)
Lemma loop_end fuel (words : list (option nat)) p kids :
  SharedStdin.loop W pids share (S fuel) [] words p kids
  = run_lines W pids [] p kids.
Proof. done. Qed.

(** One round over a line whose command fits [words]: the child is the
    one of the line, the shell waits for it, and the next round starts on
    what the child has left of the stream. *)
Lemma loop_step fuel stdin text rest (words : list (option nat)) p kids :
  stdin ≠ [] → read_line stdin = (text, rest) → text ≠ [] → now p = Running →
  length (cut_at SP (command text)) < length words →
  ∃ words', length words' = length words ∧
    SharedStdin.loop W pids share (S fuel) stdin words p kids =
      match reap (child_of W text (pids (length kids)) p) with
      | Some s =>
          SharedStdin.loop W pids share fuel
            (share (length kids) (child_of W text (pids (length kids)) p) rest)
            words'
            (reported text (pids (length kids)) s p)
            (kids ++ [child_of W text (pids (length kids)) p])
      | None => run_lines W pids [text] p kids
      end.
Proof.
  intros Hin Hrl Hne Hrun Hfit.
  destruct (split_command text words Hne Hfit)
    as (line' & words' & Hsplit & Hlen & H0 & Hargv & Hhd).
  exists words'. split; [done|].
  cbn [SharedStdin.loop run_lines]. rewrite (getline_spec _ text rest) by done.
  rewrite Nat2Z.id, take_app_length.
  rewrite decide_True by (destruct text; [done|simpl; lia]).
  rewrite Hsplit. cbn [sys_fork].
  assert (after_fork W line' words' 0 None
            (Proc (pids (length kids)) (fds (record (EGetline text) p))
               (npipes (record (EGetline text) p)) [EFork 0] Running)
          = child_of W text (pids (length kids)) p) as ->.
  { unfold after_fork, child_of. rewrite decide_False by (intros H; by apply H).
    rewrite H0, Hargv, Hhd, ArgvShellRefine.hd_argv_for. done. }
  unfold after_fork. rewrite decide_True by done.
  destruct (reap (child_of W text (pids (length kids)) p)) as [st|]; [|done].
  cbn [now record]. by rewrite Hrun.
Qed.

(** One round over a line whose command does not fit. *)
Lemma loop_overrun fuel stdin text rest (words : list (option nat)) p kids :
  stdin ≠ [] → read_line stdin = (text, rest) → text ≠ [] →
  0 < length words → length words ≤ length (cut_at SP (command text)) →
  SharedStdin.loop W pids share (S fuel) stdin words p kids
  = Run (stand Undefined (record (EGetline text) p)) kids.
Proof.
  intros Hin Hrl Hne Hpos Hbig.
  cbn [SharedStdin.loop]. rewrite (getline_spec _ text rest) by done.
  rewrite Nat2Z.id, take_app_length.
  rewrite decide_True by (destruct text; [done|simpl; lia]).
  by rewrite (split_command_overrun text words Hne Hpos Hbig).
Qed.

(** A run told line by line, over lines that are not empty, is in good
    order at its end. *)
Lemma run_lines_orderly ls p kids :
  Forall (λ text, text ≠ []) ls → settled p kids →
  length kids = length (filter (λ text, text ≠ []) (reads p)) →
  length (children (run_lines W pids ls p kids)) =
    length (filter (λ text, text ≠ [])
              (reads (shell (run_lines W pids ls p kids)))) ∧
  ended (run_lines W pids ls p kids) ∧
  (∀ code, now (shell (run_lines W pids ls p kids)) = Returned code →
     code = 0%Z ∧ last (reads (shell (run_lines W pids ls p kids))) = Some []).
Proof.
  intros Hne Hs Hcount.
  pose proof (run_lines_ended W pids Hpids ls p kids Hs) as Hend.
  destruct (run_lines_reads W pids ls p kids) as (new & Hnew & Hlen & Hreads).
  split_and!; [|done|].
  - rewrite Hnew, Hreads, !filter_app, !length_app, <- Hcount.
    rewrite filter_nonempty by (by apply Forall_take).
    rewrite length_take, Nat.min_l by done.
    destruct (now (shell (run_lines W pids ls p kids)));
      rewrite ?filter_cons_False by (intros H; by apply H); simpl; lia.
  - intros code Hcode. rewrite Hcode in Hreads. split.
    + destruct Hend as (_ & _ & [(Hn & _)|(c & ? & ? & Hn & _)]); congruence.
    + rewrite Hreads, !app_assoc. apply last_snoc.
Qed.

(** Whatever the children do to the stream, and wherever the run is cut
    off, a run that has not overrun [words] is in good order. *)
Lemma loop_orderly fuel : ∀ stdin (words : list (option nat)) p kids,
  0 < length words → settled p kids →
  length kids = length (filter (λ text, text ≠ []) (reads p)) →
  now (shell (SharedStdin.loop W pids share fuel stdin words p kids)) ≠ Undefined →
  length (children (SharedStdin.loop W pids share fuel stdin words p kids)) =
    length (filter (λ text, text ≠ [])
              (reads (shell (SharedStdin.loop W pids share fuel stdin words p kids))))
  ∧ (settled (shell (SharedStdin.loop W pids share fuel stdin words p kids))
       (children (SharedStdin.loop W pids share fuel stdin words p kids))
     ∨ ended (SharedStdin.loop W pids share fuel stdin words p kids))
  ∧ (∀ code,
       now (shell (SharedStdin.loop W pids share fuel stdin words p kids))
         = Returned code →
       code = 0%Z ∧
       last (reads (shell (SharedStdin.loop W pids share fuel stdin words p kids)))
         = Some []).
Proof.
  induction fuel as [|fuel IH]; intros stdin words p kids Hpos Hs Hcount.
  { intros _. cbn [SharedStdin.loop shell children]. split_and!; [done|by left|].
    intros code Hcode. destruct Hs as [Hnow _ _ _ _]. congruence. }
  destruct stdin as [|x s].
  { intros _. rewrite loop_end.
    destruct (run_lines_orderly [] p kids ltac:(constructor) Hs Hcount)
      as (H1 & H2 & H3).
    split_and!; [done|by right|done]. }
  destruct (read_line_spec (x :: s) ltac:(done))
    as (text & rest & Hrl & Hne & _).
  destruct (decide (length (cut_at SP (command text)) < length words)) as [Hfit|Hbig].
  - destruct (loop_step fuel (x :: s) text rest words p kids
                ltac:(done) Hrl Hne (settled_now _ _ Hs) Hfit)
      as (words' & Hlen & ->).
    destruct (reap (child_of W text (pids (length kids)) p)) as [st|] eqn:Hr.
    + apply IH.
      * lia.
      * by apply settled_reported.
      * rewrite reads_reported, filter_app, !length_app, <- Hcount.
        by rewrite filter_cons_True.
    + intros _.
      destruct (run_lines_orderly [text] p kids ltac:(by repeat constructor)
                  Hs Hcount) as (H1 & H2 & H3).
      split_and!; [done|by right|done].
  - rewrite (loop_overrun fuel (x :: s) text rest words p kids) by (done || lia).
    intros H. by destruct H.
Qed.

(** A run that is still going when it is cut off has been through as
    many rounds as it was given, with a child made in each. *)
Lemma loop_progress fuel : ∀ stdin (words : list (option nat)) p kids,
  now (shell (SharedStdin.loop W pids share fuel stdin words p kids)) = Running →
  length (children (SharedStdin.loop W pids share fuel stdin words p kids))
  = length kids + fuel.
Proof.
  induction fuel as [|fuel IH]; intros stdin words p kids Hgo.
  { cbn [SharedStdin.loop children]. lia. }
  cbn [SharedStdin.loop] in Hgo |- *.
  destruct (getline stdin) as [[n line] rest].
  case_decide; [|done].
  destruct (split (erase_last n line) words) as [line' words'| |]; [|done..].
  cbn [sys_fork] in Hgo |- *.
  destruct (now (after_fork W line' words' (pids (length kids)) _ _)) eqn:Hnow;
    try (cbn [shell] in Hgo; congruence).
  rewrite IH by done. rewrite length_app. simpl. lia.
Qed.

(** Children that leave the descriptor alone give the run of
    [ArgvShell.loop]. *)
Lemma loop_untouched fuel : ∀ stdin (words : list (option nat)) p kids,
  (∀ k kid rest, share k kid rest = rest) →
  SharedStdin.loop W pids share fuel stdin words p kids
  = loop W pids fuel stdin words p kids.
Proof.
  induction fuel as [|fuel IH]; intros stdin words p kids Hshare; [done|].
  cbn [SharedStdin.loop loop].
  destruct (getline stdin) as [[n line] rest].
  case_decide; [|done].
  destruct (split (erase_last n line) words) as [line' words'| |]; [|done..].
  cbn [sys_fork].
  destruct (now (after_fork W line' words' (pids (length kids)) _ _)); try done.
  rewrite Hshare. by apply IH.
Qed.

End shared.

End SharedFacts.

(** X6: whatever the children do to descriptor 0, which they hold as the
    shell does (read the lines that follow, move the offset back), and
    wherever the run is cut off, a run that has not overrun [words] is in
    good order.  The shell has made exactly one child for every line
    [getline] handed it, empty lines included.  It stands between two
    rounds with every child waited for once, for the status it ended
    with, and every status written; or it has returned with all that
    done; or it is blocked in the wait for a last child that never ends.
    A run still going when it is cut off has made a child in every round
    it was given.  And [main] returns only after [getline] has reported
    the end of the stream, with 0. *)
Theorem every_line_gets_a_child W pids share fuel stdin junk self t :
  (∀ k, pids k ≠ 0%Z) →
  let R := SharedStdin.main W pids share fuel stdin junk (Proc.start self t) in
  Proc.now (ArgvShell.shell R) ≠ Proc.Undefined →
  length (ArgvShell.children R) =
    length (filter (λ text, text ≠ []) (reads (ArgvShell.shell R))) ∧
  (settled (ArgvShell.shell R) (ArgvShell.children R) ∨ ended R) ∧
  (Proc.now (ArgvShell.shell R) = Proc.Running →
     length (ArgvShell.children R) = fuel) ∧
  (∀ code, Proc.now (ArgvShell.shell R) = Proc.Returned code →
     code = 0%Z ∧ last (reads (ArgvShell.shell R)) = Some []).
Proof.
  intros Hpids R. subst R. unfold SharedStdin.main. intros Hdef.
  destruct (SharedFacts.loop_orderly W pids share Hpids fuel stdin
              (junk <$> seq 0 256) (Proc.start self t) [])
    as (Hcount & Hstate & Hret).
  - rewrite length_fmap, length_seq. lia.
  - apply RoundFacts.settled_start.
  - done.
  - done.
  - split_and!; [done|done| |done].
    intros Hgo. by rewrite (SharedFacts.loop_progress W pids share) by done.
Qed.

Lemma every_line_gets_a_child_witness :
  let R :=
    SharedStdin.main
      (λ path _, if decide (path = "/bin/ls") then Some (Proc.Exits 0) else None)
      (λ k, 100 + Z.of_nat k)%Z
      (λ _ kid rest, if Proc.now kid is Proc.Returned _ then rest ++ rest else rest)
      10
      (["x"%char; CStr.LF] ++ list_ascii_of_string "/bin/ls b" ++ [CStr.LF])
      (λ _, None) (Proc.start 1 (Fd.boot [Some 0; Some 0; Some 0])) in
  length (ArgvShell.children R) =
    length (filter (λ text, text ≠ []) (reads (ArgvShell.shell R))) ∧
  (settled (ArgvShell.shell R) (ArgvShell.children R) ∨ ended R) ∧
  (Proc.now (ArgvShell.shell R) = Proc.Running →
     length (ArgvShell.children R) = 10) ∧
  (∀ code, Proc.now (ArgvShell.shell R) = Proc.Returned code →
     code = 0%Z ∧ last (reads (ArgvShell.shell R)) = Some []).
Proof.
  apply (every_line_gets_a_child
           (λ path _, if decide (path = "/bin/ls") then Some (Proc.Exits 0) else None)
           (λ k, 100 + Z.of_nat k)%Z
           (λ _ kid rest, if Proc.now kid is Proc.Returned _ then rest ++ rest else rest)
           10
           (["x"%char; CStr.LF] ++ list_ascii_of_string "/bin/ls b" ++ [CStr.LF])
           (λ _, None) 1 (Fd.boot [Some 0; Some 0; Some 0])).
  - exact pids_from_100_nonzero.
  - vm_compute. discriminate.
Defined.

(** A file of two lines read in one block, the first naming no program.
    The child made for it returns from [main], and in flushing its copy of
    [stdin] moves the offset back by the line that copy still held; the
    shell, once through its own buffer, is served that line again: three
    children for two lines. *)
Example rewound_line_is_read_twice :
  let R :=
    SharedStdin.main
      (λ path _, if decide (path = "/bin/ls") then Some (Proc.Exits 0) else None)
      (λ k, 100 + Z.of_nat k)%Z
      (λ _ kid rest, if Proc.now kid is Proc.Returned _ then rest ++ rest else rest)
      10
      (["x"%char; CStr.LF] ++ list_ascii_of_string "/bin/ls b" ++ [CStr.LF])
      (λ _, None) (Proc.start 1 (Fd.boot [Some 0; Some 0; Some 0])) in
  reads (ArgvShell.shell R) =
    [["x"%char; CStr.LF];
     list_ascii_of_string "/bin/ls b" ++ [CStr.LF];
     list_ascii_of_string "/bin/ls b" ++ [CStr.LF];
     []] ∧
  length (ArgvShell.children R) = 3 ∧
  Proc.now (ArgvShell.shell R) = Proc.Returned 0.
Proof. split_and!; vm_compute; reflexivity. Qed.

(** A program that reads descriptor 0 to its end leaves the shell nothing:
    one child for two lines. *)
Example a_program_can_read_the_lines_that_follow :
  let R :=
    SharedStdin.main (λ _ _, Some (Proc.Exits 0)) (λ k, 100 + Z.of_nat k)%Z
      (λ _ kid rest,
         match Proc.now kid with
         | Proc.Image path _ _ => if decide (path = "/bin/cat") then [] else rest
         | _ => rest
         end)
      10
      (list_ascii_of_string "/bin/cat" ++ [CStr.LF] ++
       list_ascii_of_string "/bin/ls" ++ [CStr.LF])
      (λ _, None) (Proc.start 1 (Fd.boot [Some 0; Some 0; Some 0])) in
  reads (ArgvShell.shell R) = [list_ascii_of_string "/bin/cat" ++ [CStr.LF]; []] ∧
  length (ArgvShell.children R) = 1 ∧
  Proc.now (ArgvShell.shell R) = Proc.Returned 0.
Proof. split_and!; vm_compute; reflexivity. Qed.

(** X7: when no child reads from descriptor 0 or moves its offset, the run
    with the descriptor shared is the run of the loop that keeps the
    stream to itself, and the shell never reads ahead of its children:
    over lines that fit, the lines it has read are the first lines of the
    stream, as many as it has made children, followed by the end of the
    stream only if [main] returned; so when a child never ends, the lines
    after that child's are never read. *)
Theorem no_line_read_past_a_child W pids share fuel stdin junk self t :
  (∀ k, pids k ≠ 0%Z) →
  Forall (λ text, ArgvShell.fields text < 256) (Words.lines stdin) →
  (∀ k kid rest, share k kid rest = rest) → length stdin < fuel →
  let R := SharedStdin.main W pids share fuel stdin junk (Proc.start self t) in
  R = ArgvShell.main W pids stdin junk (Proc.start self t) ∧
  length (ArgvShell.children R) ≤ length (Words.lines stdin) ∧
  reads (ArgvShell.shell R) =
    take (length (ArgvShell.children R)) (Words.lines stdin) ++
    (if Proc.now (ArgvShell.shell R) is Proc.Returned _ then [[]] else []).
Proof.
  intros Hpids Hall Hshare Hfuel R. subst R. unfold SharedStdin.main.
  rewrite (SharedFacts.loop_untouched W pids share) by done.
  rewrite (ArgvShellRefine.loop_run_lines W pids Hpids) by
    (done || by rewrite length_fmap, length_seq).
  rewrite (ArgvShellRefine.main_run_lines W pids Hpids) by done.
  destruct (RunFacts.run_lines_reads W pids (Words.lines stdin) (Proc.start self t) [])
    as (new & Hnew & Hlen & Hreads).
  rewrite Hnew. cbn [app]. split_and!; [done|done|]. by rewrite Hreads.
Qed.

Lemma no_line_read_past_a_child_witness :
  let R :=
    SharedStdin.main (λ _ _, Some Proc.Never) (λ k, 100 + Z.of_nat k)%Z
      SharedStdin.untouched 20
      (list_ascii_of_string "/bin/cat" ++ [CStr.LF; "x"%char; CStr.LF])
      (λ _, None) (Proc.start 1 (Fd.boot [Some 0; Some 0; Some 0])) in
  R = ArgvShell.main (λ _ _, Some Proc.Never) (λ k, 100 + Z.of_nat k)%Z
        (list_ascii_of_string "/bin/cat" ++ [CStr.LF; "x"%char; CStr.LF])
        (λ _, None) (Proc.start 1 (Fd.boot [Some 0; Some 0; Some 0])) ∧
  length (ArgvShell.children R) ≤
    length (Words.lines (list_ascii_of_string "/bin/cat" ++ [CStr.LF; "x"%char; CStr.LF])) ∧
  reads (ArgvShell.shell R) =
    take (length (ArgvShell.children R))
      (Words.lines (list_ascii_of_string "/bin/cat" ++ [CStr.LF; "x"%char; CStr.LF])) ++
    (if Proc.now (ArgvShell.shell R) is Proc.Returned _ then [[]] else []).
Proof.
  apply (no_line_read_past_a_child (λ _ _, Some Proc.Never)
           (λ k, 100 + Z.of_nat k)%Z SharedStdin.untouched 20).
  - exact pids_from_100_nonzero.
  - vm_compute. repeat constructor.
  - done.
  - vm_compute. lia.
Defined.

(** With [/bin/cat] never ending, the second line is never read. *)
Example blocked_after_first_line :
  let R :=
    ArgvShell.main (λ _ _, Some Proc.Never) (λ k, 100 + Z.of_nat k)%Z
      (list_ascii_of_string "/bin/cat" ++ [CStr.LF; "x"%char; CStr.LF])
      (λ _, None) (Proc.start 1 (Fd.boot [Some 0; Some 0; Some 0])) in
  reads (ArgvShell.shell R) = [list_ascii_of_string "/bin/cat" ++ [CStr.LF]] ∧
  Proc.now (ArgvShell.shell R) = Proc.Waiting 100.
Proof. split; vm_compute; reflexivity. Qed.

(** ** The children of a run with descriptor 0 shared *)

Module SharedRounds.
Import Fd Proc CStr ArgvShell Words Rounds CStrFacts ArgvShellFacts.
Import RoundFacts RunFacts SharedFacts.

Section rounds.
Context (W : world) (pids : nat → Z) (share : SharedStdin.sharing).
Context (t : fdtable) (n : nat).
Hypothesis Hpids : ∀ k, pids k ≠ 0%Z.

Lemma filter_end_of_stream (s : standing) :
  filter (λ text : list ascii, text ≠ [])
    (if s is Returned _ then [[]] else []) = [].
Proof. by destruct s. Qed.

(** In a run told line by line every child is the child of the line read
    for it, forked from a shell that holds the descriptors it started
    with. *)
Lemma run_lines_rounds ls p kids :
  Forall (λ text, text ≠ []) ls → fds p = t → npipes p = n →
  Forall2 (λ text kid,
             text ≠ [] ∧ ∃ c q, kid = child_of W text c q ∧ fds q = t ∧ npipes q = n)
    (filter (λ text, text ≠ []) (reads p)) kids →
  Forall2 (λ text kid,
             text ≠ [] ∧ ∃ c q, kid = child_of W text c q ∧ fds q = t ∧ npipes q = n)
    (filter (λ text, text ≠ []) (reads (shell (run_lines W pids ls p kids))))
    (children (run_lines W pids ls p kids)).
Proof.
  intros Hne Hf Hn Hall.
  destruct (run_lines_reads W pids ls p kids) as (new & Hnew & Hlen & Hreads).
  destruct (run_lines_children W pids ls p kids) as (new' & Hnew' & Hall2).
  rewrite Hnew in Hnew'. apply app_inv_head in Hnew'. subst new'.
  rewrite Hreads, Hnew, !filter_app, filter_end_of_stream, app_nil_r.
  rewrite (filter_nonempty (take (length new) ls)) by (by apply Forall_take).
  apply Forall2_app; [done|].
  apply Forall2_same_length_lookup. split; [by eapply Forall2_length|].
  intros i text kid Ht Hk.
  destruct (Forall2_lookup_lr _ _ _ _ _ _ Hall2 Ht Hk) as (c & q & -> & Hq1 & Hq2).
  split.
  - apply lookup_take_Some in Ht as [Ht _]. by eapply Forall_lookup_1 in Hne.
  - exists c, q. split_and!; congruence.
Qed.

(** The same of the loop, whatever the children do to the stream and
    wherever the run is cut off. *)
Lemma loop_rounds fuel : ∀ stdin (words : list (option nat)) p kids,
  0 < length words → now p = Running → fds p = t → npipes p = n →
  Forall2 (λ text kid,
             text ≠ [] ∧ ∃ c q, kid = child_of W text c q ∧ fds q = t ∧ npipes q = n)
    (filter (λ text, text ≠ []) (reads p)) kids →
  now (shell (SharedStdin.loop W pids share fuel stdin words p kids)) ≠ Undefined →
  Forall2 (λ text kid,
             text ≠ [] ∧ ∃ c q, kid = child_of W text c q ∧ fds q = t ∧ npipes q = n)
    (filter (λ text, text ≠ [])
       (reads (shell (SharedStdin.loop W pids share fuel stdin words p kids))))
    (children (SharedStdin.loop W pids share fuel stdin words p kids)).
Proof.
  induction fuel as [|fuel IH]; intros stdin words p kids Hpos Hrun Hf Hn Hall.
  { by intros _. }
  destruct stdin as [|x s].
  { intros _. rewrite (loop_end W pids share).
    by apply run_lines_rounds; [constructor|..]. }
  destruct (read_line_spec (x :: s) ltac:(done))
    as (text & rest & Hrl & Hne & _).
  destruct (decide (length (cut_at SP (command text)) < length words)) as [Hfit|Hbig].
  - destruct (loop_step W pids share Hpids fuel (x :: s) text rest words p kids
                ltac:(done) Hrl Hne Hrun Hfit)
      as (words' & Hlen & ->).
    destruct (reap (child_of W text (pids (length kids)) p)) as [st|] eqn:Hr.
    + apply IH; try done.
      * lia.
      * rewrite reads_reported, filter_app. apply Forall2_app; [done|].
        rewrite filter_cons_True by done. constructor; [|constructor].
        split; [done|]. by eexists _, _.
    + intros _. by apply run_lines_rounds; [repeat constructor|..].
  - rewrite (loop_overrun W pids share fuel (x :: s) text rest words p kids)
      by (done || lia).
    intros H. by destruct H.
Qed.

End rounds.

End SharedRounds.

(** X16: whatever the children do to descriptor 0, every child is made
    from the line read for it and from nothing else.  In every run that
    has not overrun [words], cut off anywhere, the children are, in order,
    those of the lines [getline] handed the shell: each holds the
    descriptors the shell started with, and calls [execv] right after it
    is forked, with the line minus its last character, up to its first
    terminator, cut at every space, as arguments and the first of them as
    path; if that call fails it goes on to [perror] and return 1.  A run
    still going when it is cut off has made a child in every round it was
    given. *)
Theorem children_are_of_the_lines_read W pids share fuel stdin junk self t :
  (∀ k, pids k ≠ 0%Z) →
  let R := SharedStdin.main W pids share fuel stdin junk (Proc.start self t) in
  Proc.now (ArgvShell.shell R) ≠ Proc.Undefined →
  Forall2
    (λ text kid,
       ∃ pieces,
         take 2 (Proc.log kid) =
           [Proc.EFork 0;
            Proc.EExecv (hd "" (string_of_list_ascii <$> pieces))
              (string_of_list_ascii <$> pieces)] ∧
         Words.join CStr.SP pieces = CStr.cstr_from (take (length text - 1) text) ∧
         Forall (λ w, CStr.SP ∉ w) pieces ∧
         Proc.fds kid = t ∧
         (Proc.exec_result W (hd "" (string_of_list_ascii <$> pieces))
            (string_of_list_ascii <$> pieces) = None →
          drop 2 (Proc.log kid) =
            [Proc.EPerror "execv() failed"; Proc.EReturn 1] ∧
          Proc.now kid = Proc.Returned 1))
    (filter (λ text, text ≠ []) (reads (ArgvShell.shell R)))
    (ArgvShell.children R) ∧
  (Proc.now (ArgvShell.shell R) = Proc.Running →
     length (ArgvShell.children R) = fuel).
Proof.
  intros Hpids R. subst R. unfold SharedStdin.main. intros Hdef. split.
  2: { intros Hgo.
       by rewrite (SharedFacts.loop_progress W pids share) by done. }
  eapply Forall2_impl.
  - apply (SharedRounds.loop_rounds W pids share t 0 Hpids); try done.
    rewrite length_fmap, length_seq. lia.
  - intros text kid (Hne & c & q & -> & Hq & _). cbn beta.
    exists (Words.cut_at CStr.SP (Rounds.command text)).
    pose proof (RoundFacts.child_of_spec W text c q) as Hspec.
    fold (Rounds.argv_for text). split_and!.
    + destruct (Proc.exec_result _ _ _); by rewrite Hspec.
    + rewrite CStrFacts.join_cut_at. by apply CommandFacts.command_cut.
    + apply CStrFacts.cut_at_no_sep.
    + by rewrite RoundFacts.fds_child_of.
    + intros Hfail. rewrite Hfail in Hspec. by rewrite Hspec.
Qed.

Lemma children_are_of_the_lines_read_witness :
  let R :=
    SharedStdin.main
      (λ path _, if decide (path = "/bin/ls") then Some (Proc.Exits 0) else None)
      (λ k, 100 + Z.of_nat k)%Z
      (λ _ kid rest, if Proc.now kid is Proc.Returned _ then rest ++ rest else rest)
      10
      (["x"%char; CStr.LF] ++ list_ascii_of_string "/bin/ls b" ++ [CStr.LF])
      (λ _, None) (Proc.start 1 (Fd.boot [Some 0; Some 0; Some 0])) in
  Forall2
    (λ text kid,
       ∃ pieces,
         take 2 (Proc.log kid) =
           [Proc.EFork 0;
            Proc.EExecv (hd "" (string_of_list_ascii <$> pieces))
              (string_of_list_ascii <$> pieces)] ∧
         Words.join CStr.SP pieces = CStr.cstr_from (take (length text - 1) text) ∧
         Forall (λ w, CStr.SP ∉ w) pieces ∧
         Proc.fds kid = Fd.boot [Some 0; Some 0; Some 0] ∧
         (Proc.exec_result
            (λ path _, if decide (path = "/bin/ls") then Some (Proc.Exits 0) else None)
            (hd "" (string_of_list_ascii <$> pieces))
            (string_of_list_ascii <$> pieces) = None →
          drop 2 (Proc.log kid) =
            [Proc.EPerror "execv() failed"; Proc.EReturn 1] ∧
          Proc.now kid = Proc.Returned 1))
    (filter (λ text, text ≠ []) (reads (ArgvShell.shell R)))
    (ArgvShell.children R) ∧
  (Proc.now (ArgvShell.shell R) = Proc.Running →
     length (ArgvShell.children R) = 10).
Proof.
  apply (children_are_of_the_lines_read
           (λ path _, if decide (path = "/bin/ls") then Some (Proc.Exits 0) else None)
           (λ k, 100 + Z.of_nat k)%Z
           (λ _ kid rest, if Proc.now kid is Proc.Returned _ then rest ++ rest else rest)
           10
           (["x"%char; CStr.LF] ++ list_ascii_of_string "/bin/ls b" ++ [CStr.LF])
           (λ _, None) 1 (Fd.boot [Some 0; Some 0; Some 0])).
  - exact pids_from_100_nonzero.
  - vm_compute. discriminate.
Defined.

(** X8: no argument a child receives holds a space, a newline or a
    terminator character: the newline that ends a line never reaches the
    program. *)
Theorem arguments_hold_no_separator W pids stdin junk self t :
  (∀ k, pids k ≠ 0%Z) →
  Forall (λ text, ArgvShell.fields text < 256) (Words.lines stdin) →
  ∀ kid path argv,
    kid ∈ ArgvShell.children
            (ArgvShell.main W pids stdin junk (Proc.start self t)) →
    Proc.log kid !! 1 = Some (Proc.EExecv path argv) →
    Forall (λ a, ∀ x, x ∈ list_ascii_of_string a →
                   x ≠ CStr.SP ∧ x ≠ CStr.LF ∧ x ≠ CStr.NUL) argv.
Proof.
  intros Hpids Hall kid path argv Hkid Hlog.
  destruct (main_children W pids stdin junk self t kid Hpids Hall Hkid)
    as (text & c & q & Htext & ->).
  pose proof (RoundFacts.child_of_spec W text c q) as Hspec.
  assert (argv = Rounds.argv_for text) as ->.
  { destruct (Proc.exec_result W (hd "" (Rounds.argv_for text)) (Rounds.argv_for text));
      rewrite Hspec in Hlog; by simplify_eq/=. }
  clear Hspec Hlog.
  assert (text ≠ []) as Hne.
  { pose proof (LineFacts.lines_nonempty stdin) as H.
    by eapply Forall_forall in H. }
  assert (CStr.LF ∉ take (length text - 1) text) as Hlf.
  { pose proof (LineFacts.lines_newline_last stdin) as H.
    by eapply Forall_forall in H. }
  assert (CStr.NUL ∉ Rounds.command text) as Hcn
    by (unfold Rounds.command, CStr.cstr; apply CStrFacts.cstr_from_no_NUL).
  assert (CStr.LF ∉ Rounds.command text) as Hcl.
  { rewrite ArgvShellFacts.command_spec by done.
    intros Hin%LineFacts.elem_of_cstr_from.
    apply elem_of_app in Hin as [Hin|Hin]; [done|].
    apply elem_of_cons in Hin as [?|Hin]; [done|].
    apply elem_of_cons in Hin as [?|Hin]; [done|]. by apply elem_of_nil in Hin. }
  pose proof (CStrFacts.cut_at_no_sep CStr.SP (Rounds.command text)) as H1.
  pose proof (CStrFacts.cut_at_pieces CStr.SP CStr.NUL _ Hcn) as H2.
  pose proof (CStrFacts.cut_at_pieces CStr.SP CStr.LF _ Hcl) as H3.
  unfold Rounds.argv_for. apply Forall_fmap, Forall_forall. intros w Hw x Hx.
  simpl in Hx. rewrite list_ascii_of_string_of_list_ascii in Hx.
  rewrite Forall_forall in H1, H2, H3.
  split_and!; intros ->; [by apply (H1 w)|by apply (H3 w)|by apply (H2 w)].
Qed.

Lemma arguments_hold_no_separator_witness :
  Forall (λ a, ∀ x, x ∈ list_ascii_of_string a →
                 x ≠ CStr.SP ∧ x ≠ CStr.LF ∧ x ≠ CStr.NUL)
    [""; "a"; ""; "b"; ""].
Proof.
  pose (R := ArgvShell.main (λ _ _, None) (λ k, 100 + Z.of_nat k)%Z
               (list_ascii_of_string " a  b " ++ [CStr.LF]) (λ _, None)
               (Proc.start 1 (Fd.boot [Some 0; Some 0; Some 0]))).
  apply (arguments_hold_no_separator (λ _ _, None) (λ k, 100 + Z.of_nat k)%Z
           (list_ascii_of_string " a  b " ++ [CStr.LF]) (λ _, None)
           1%Z (Fd.boot [Some 0; Some 0; Some 0])
           pids_from_100_nonzero
           ltac:(vm_compute; repeat constructor)
           (hd (Proc.start 0 []) (ArgvShell.children R)) "").
  - vm_compute. left.
  - vm_compute. reflexivity.
Defined.



(** X10: the status the shell writes is the word [waitpid] stored, not the
    exit code: for a child whose program exits with code [code], the shell
    waits for that child once with status [(code mod 256) * 256] and writes
    that number, so exit code 1 is written as 256 and the status written is
    0 only for an exit code that is a multiple of 256. *)
Theorem status_written_is_the_raw_word W pids stdin junk self t :
  (∀ k, pids k ≠ 0%Z) →
  Forall (λ text, ArgvShell.fields text < 256) (Words.lines stdin) →
  let R := ArgvShell.main W pids stdin junk (Proc.start self t) in
  ∀ kid path argv code,
    kid ∈ ArgvShell.children R →
    Proc.now kid = Proc.Image path argv (Proc.Exits code) →
    (Proc.pid kid, (code mod 256) * 256)%Z ∈ Proc.waits (ArgvShell.shell R) ∧
    ArgvShell.status_line ((code mod 256) * 256) ∈ Proc.writes (ArgvShell.shell R).
Proof.
  intros Hpids Hall R kid path argv code Hkid Hnow.
  pose proof (main_ended W pids stdin junk self t Hpids Hall) as Hend.
  fold R in Hend.
  apply (RoundFacts.ended_reaped R kid); [done|done|].
  unfold Proc.reap. rewrite Hnow. cbn [Proc.status_word]. f_equal.
  change 255%Z with (Z.ones 8). rewrite Z.land_ones by lia.
  rewrite Z.shiftl_mul_pow2 by lia. done.
Qed.

Lemma status_written_is_the_raw_word_witness :
  let R :=
    ArgvShell.main (λ _ _, Some (Proc.Exits 2)) (λ k, 100 + Z.of_nat k)%Z
      (list_ascii_of_string "/bin/ls" ++ [CStr.LF]) (λ _, None)
      (Proc.start 1 (Fd.boot [Some 0; Some 0; Some 0])) in
  (100, 512)%Z ∈ Proc.waits (ArgvShell.shell R) ∧
  ArgvShell.status_line 512 ∈ Proc.writes (ArgvShell.shell R).
Proof.
  intros R.
  apply (status_written_is_the_raw_word (λ _ _, Some (Proc.Exits 2))
           (λ k, 100 + Z.of_nat k)%Z
           (list_ascii_of_string "/bin/ls" ++ [CStr.LF]) (λ _, None)
           1%Z (Fd.boot [Some 0; Some 0; Some 0])
           pids_from_100_nonzero
           ltac:(vm_compute; repeat constructor)
           (hd (Proc.start 0 []) (ArgvShell.children R))
           "/bin/ls" ["/bin/ls"] 2%Z).
  - vm_compute. left.
  - vm_compute. reflexivity.
Defined.

Example exit_code_2_is_written_as_512 :
  Proc.writes
    (ArgvShell.shell
       (ArgvShell.main (λ _ _, Some (Proc.Exits 2)) (λ k, 100 + Z.of_nat k)%Z
          (list_ascii_of_string "/bin/ls" ++ [CStr.LF]) (λ _, None)
          (Proc.start 1 (Fd.boot [Some 0; Some 0; Some 0]))))
  = ["child exited with status 512" +:+ String CStr.LF ""].
Proof. vm_compute. reflexivity. Qed.

(** X11: the bound of 256 is sharp.  A line whose command has 255 spaces or
    more makes the word loop store past the end of [words]; if it is the
    first line of the stream, the run is undefined from there on, before
    any child is made. *)
Theorem too_many_fields_overrun stdin n line rest (words : list (option nat)) :
  ArgvShell.getline stdin = (n, line, rest) → (0 < n)%Z →
  length words = 256 →
  255 ≤ length (filter (λ x, x = CStr.SP)
                  (CStr.cstr (ArgvShell.erase_last n line) 0)) →
  ArgvShell.split (ArgvShell.erase_last n line) words = ArgvShell.Overrun ∧
  ∀ W pids junk p,
    ArgvShell.main W pids stdin junk p =
    ArgvShell.Run
      (Proc.stand Proc.Undefined
         (Proc.record (Proc.EGetline (take (Z.to_nat n) line)) p)) [].
Proof.
  intros Hg Hn Hlen Hsp.
  destruct (getline_positive _ _ _ _ Hg Hn) as (text & Hne & -> & -> & Htake & _).
  assert (∀ ws : list (option nat), length ws = 256 →
            ArgvShell.split
              (ArgvShell.erase_last (Z.of_nat (length text)) (text ++ [CStr.NUL])) ws
            = ArgvShell.Overrun) as Hover.
  { intros ws Hws. apply SplitMore.split_overrun.
    - by apply ArgvShellFacts.erased_has_NUL.
    - lia.
    - rewrite CStrFacts.length_cut_at. lia. }
  split; [by apply Hover|].
  intros W pids junk p. unfold ArgvShell.main. cbn [ArgvShell.loop].
  rewrite Hg. cbn beta iota zeta. rewrite decide_True by done.
  rewrite Hover by (by rewrite length_fmap, length_seq). done.
Qed.

Lemma too_many_fields_overrun_witness :
  let stdin := concat (replicate 255 [CStr.SP]) ++ [CStr.LF] in
  ArgvShell.split (ArgvShell.erase_last 256 (stdin ++ [CStr.NUL])) (replicate 256 None)
    = ArgvShell.Overrun ∧
  ∀ W pids junk p,
    ArgvShell.main W pids stdin junk p =
    ArgvShell.Run
      (Proc.stand Proc.Undefined
         (Proc.record (Proc.EGetline (take (Z.to_nat 256) (stdin ++ [CStr.NUL]))) p))
      [].
Proof.
  intros stdin.
  apply (too_many_fields_overrun stdin 256 (stdin ++ [CStr.NUL]) [] (replicate 256 None)).
  - vm_compute. reflexivity.
  - lia.
  - reflexivity.
  - vm_compute. lia.
Defined.

(** X12: the word loop writes to the line buffer only where the command has
    a space.  For a line of fewer than 256 fields the buffer it leaves is
    the command with every space turned into a terminator, followed by
    what the buffer held from the command's own terminator on, unchanged;
    its length is the same. *)
Theorem split_rewrites_only_spaces stdin n line rest (words : list (option nat)) :
  ArgvShell.getline stdin = (n, line, rest) → (0 < n)%Z →
  ArgvShell.fields (take (Z.to_nat n) line) < 256 → length words = 256 →
  let buf := ArgvShell.erase_last n line in
  let cmd := CStr.cstr buf 0 in
  ∃ line' words',
    ArgvShell.split buf words = ArgvShell.Split line' words' ∧
    line' = (space_to_NUL <$> cmd) ++ drop (length cmd) buf ∧
    length line' = length buf.
Proof.
  intros Hg Hn Hf Hlen buf cmd.
  destruct (getline_positive _ _ _ _ Hg Hn) as (text & Hne & -> & -> & Htake & _).
  rewrite Htake in Hf.
  pose proof (ArgvShellFacts.command_words_le_fields text Hne) as Hle.
  unfold Rounds.command in Hle. fold buf in Hle. fold cmd in Hle.
  destruct (SplitFacts.split_spec buf words)
    as (line' & words' & tl & Hsplit & Hline & Hline' & _).
  - by apply ArgvShellFacts.erased_has_NUL.
  - fold cmd. lia.
  - fold cmd in Hline, Hline'.
    assert (drop (length cmd) buf = CStr.NUL :: tl) as Hdrop.
    { rewrite Hline. by rewrite drop_app_length. }
    exists line', words'. rewrite Hdrop.
    rewrite LineFacts.join_NUL_cut_at in Hline'. split_and!; [done|done|].
    rewrite Hline', Hline, !length_app, length_fmap. done.
Qed.

Lemma split_rewrites_only_spaces_witness :
  let line := list_ascii_of_string "a  b" ++ [CStr.LF; CStr.NUL] in
  let buf := ArgvShell.erase_last 5 line in
  let cmd := CStr.cstr buf 0 in
  ∃ line' words',
    ArgvShell.split buf (replicate 256 None) = ArgvShell.Split line' words' ∧
    line' = (space_to_NUL <$> cmd) ++ drop (length cmd) buf ∧
    length line' = length buf.
Proof.
  intros line.
  apply (split_rewrites_only_spaces (list_ascii_of_string "a  b" ++ [CStr.LF]) 5
           line [] (replicate 256 None)).
  - reflexivity.
  - lia.
  - vm_compute. lia.
  - reflexivity.
Defined.

(** X13: every pointer the word loop leaves for [execv] points inside the
    line buffer.  For a line of fewer than 256 fields, each of the entries
    of [words] before the null pointer is an offset below the length of the
    buffer. *)
Theorem stored_pointers_stay_inside stdin n line rest (words : list (option nat)) :
  ArgvShell.getline stdin = (n, line, rest) → (0 < n)%Z →
  ArgvShell.fields (take (Z.to_nat n) line) < 256 → length words = 256 →
  ∃ line' words' argv,
    ArgvShell.split (ArgvShell.erase_last n line) words
      = ArgvShell.Split line' words' ∧
    ArgvShell.argv_of line' words' = Some argv ∧
    ∀ j, j < length argv → ∃ q, words' !! j = Some (Some q) ∧ q < length line'.
Proof.
  intros Hg Hn Hf Hlen.
  destruct (getline_positive _ _ _ _ Hg Hn) as (text & Hne & -> & -> & Htake & _).
  rewrite Htake in Hf.
  destruct (ArgvShellRefine.split_line text words Hne ltac:(lia))
    as (line' & words' & Hsplit & Hlen' & _ & Hargv & _ & Hend & Hmid).
  exists line', words', (Words.cut_at CStr.SP (Rounds.command text)).
  split_and!; [done|done|]. intros j Hj.
  destruct (Hmid j Hj) as [q Hq]. exists q. split; [done|].
  pose proof Hsplit as Hrun. unfold ArgvShell.split in Hrun.
  apply SplitMore.split_loop_pointers in Hrun as (Hll & _ & k & _ & Hnone & Hptr).
  - rewrite Hll. apply (Hptr j); [|done].
    destruct (decide (j < k)) as [|Hge]; [done|].
    destruct (decide (k < length (Words.cut_at CStr.SP (Rounds.command text))))
      as [Hk|Hk].
    + destruct (Hmid k Hk) as [q' Hq']. congruence.
    + assert (k = j ∨ j < k) as [->|?] by lia; [congruence|lia].
  - rewrite ArgvShellFacts.erase_last_spec by done.
    rewrite last_app. done.
  - intros j' q' Hj' Hq'. assert (j' = 0) as -> by lia.
    rewrite list_lookup_insert_eq in Hq' by lia. simplify_eq.
    rewrite ArgvShellFacts.erase_last_spec by done. rewrite length_app. simpl. lia.
Qed.

Lemma stored_pointers_stay_inside_witness :
  ∃ line' words' argv,
    ArgvShell.split
      (ArgvShell.erase_last 5 (list_ascii_of_string "a  b" ++ [CStr.LF; CStr.NUL]))
      (replicate 256 (Some 77))
      = ArgvShell.Split line' words' ∧
    ArgvShell.argv_of line' words' = Some argv ∧
    ∀ j, j < length argv → ∃ q, words' !! j = Some (Some q) ∧ q < length line'.
Proof.
  apply (stored_pointers_stay_inside (list_ascii_of_string "a  b" ++ [CStr.LF]) 5
           (list_ascii_of_string "a  b" ++ [CStr.LF; CStr.NUL]) []
           (replicate 256 (Some 77))).
  - reflexivity.
  - lia.
  - vm_compute. lia.
  - reflexivity.
Defined.

Module StdioMore.
Import Stdio StdioFacts.

Lemma app_nil_r (s : string) : s +:+ "" = s.
Proof.
  induction s as [|x s IH]; [done|].
  change (String x (s +:+ "") = String x s). by f_equal.
Qed.

Lemma app_assoc (a b c : string) : (a +:+ b) +:+ c = a +:+ (b +:+ c).
Proof.
  induction a as [|x a IH]; [done|].
  change (String x ((a +:+ b) +:+ c) = String x (a +:+ (b +:+ c))). by f_equal.
Qed.

(** One [printf] of a text that ends with a newline, on a stream that holds
    nothing: it is written at once unless the stream is fully buffered. *)
Lemma printf_line (s : string) (p : proc) :
  pending p = "" →
  printf (s +:+ LsShell.nl) p =
  match mode p with
  | FullyBuffered => Proc (pid p) (mode p) (s +:+ LsShell.nl) (written p) (returned p)
  | _ => Proc (pid p) (mode p) "" (written p +:+ (s +:+ LsShell.nl)) (returned p)
  end.
Proof.
  intros Hp. unfold printf. rewrite Hp.
  change ("" +:+ (s +:+ LsShell.nl)) with (s +:+ LsShell.nl).
  rewrite through_last_newline_end. by destruct (mode p).
Qed.

(** The same on a fully buffered stream that holds a text already. *)
Lemma printf_held (s : string) (p : proc) :
  mode p = FullyBuffered →
  printf s p = Proc (pid p) (mode p) (pending p +:+ s) (written p) (returned p).
Proof. intros Hm. unfold printf. by rewrite Hm. Qed.

End StdioMore.

(** X14: [fork.c] prints its first message once, however [stdout] is
    buffered: the calling process writes "starting up..." and then "fork
    returned" with the child's id, the child writes only "fork returned 0",
    and both return 0 with nothing left in the buffer. *)
Theorem fork_c_starts_up_once m self c :
  let '(parent, child) := ForkC.main m self c in
  Stdio.written parent =
    ("starting up..." +:+ LsShell.nl) +:+
    ("fork returned " +:+ pretty c +:+ LsShell.nl) ∧
  Stdio.written child = "fork returned " +:+ pretty 0%Z +:+ LsShell.nl ∧
  Stdio.pending parent = "" ∧ Stdio.pending child = "" ∧
  Stdio.returned parent = Some 0%Z ∧ Stdio.returned child = Some 0%Z.
Proof.
  unfold ForkC.main, ForkC.after_fork, Stdio.fork.
  rewrite (StdioMore.printf_line "starting up...") by done.
  destruct m; cbn [Stdio.start Stdio.mode Stdio.fflush Stdio.pid Stdio.pending
                   Stdio.written Stdio.returned];
    rewrite <- !StdioMore.app_assoc;
    rewrite !(StdioMore.printf_line ("fork returned " +:+ _)) by done;
    cbn [Stdio.sys_return Stdio.mode Stdio.fflush Stdio.pid Stdio.pending
         Stdio.written Stdio.returned];
    rewrite ?StdioMore.app_nil_r; done.
Qed.

(** X15: [fork-broken.c], which does not flush before it forks, prints its
    first message twice exactly when [stdout] is fully buffered: the child
    then starts with the message in its copy of the buffer and writes it
    before its own line.  On an unbuffered or line-buffered [stdout] the
    child writes its own line only.  The calling process writes the
    message and its line in every case. *)
Theorem fork_broken_repeats_when_fully_buffered m self c :
  let '(parent, child) := ForkBroken.main m self c in
  Stdio.written parent =
    ("starting up (we'll get this message twice)..." +:+ LsShell.nl) +:+
    ("fork returned " +:+ pretty c +:+ LsShell.nl) ∧
  Stdio.written child =
    (if m is Stdio.FullyBuffered
     then "starting up (we'll get this message twice)..." +:+ LsShell.nl
     else "") +:+
    ("fork returned " +:+ pretty 0%Z +:+ LsShell.nl) ∧
  Stdio.returned parent = Some 0%Z ∧ Stdio.returned child = Some 0%Z.
Proof.
  unfold ForkBroken.main, ForkBroken.after_fork, Stdio.fork.
  rewrite (StdioMore.printf_line "starting up (we'll get this message twice)...")
    by done.
  destruct m; cbn [Stdio.start Stdio.mode Stdio.fflush Stdio.pid Stdio.pending
                   Stdio.written Stdio.returned];
    rewrite <- !StdioMore.app_assoc;
    rewrite ?(StdioMore.printf_line ("fork returned " +:+ _)) by done;
    rewrite ?StdioMore.printf_held by done;
    cbn [Stdio.sys_return Stdio.mode Stdio.fflush Stdio.pid Stdio.pending
         Stdio.written Stdio.returned];
    rewrite ?StdioMore.app_nil_r, ?StdioMore.app_assoc; done.
Qed.

(** The two programs side by side on a fully buffered [stdout]. *)
Example fork_on_a_pipe :
  Stdio.written (ForkC.main Stdio.FullyBuffered 1 100).2
    = "fork returned 0" +:+ LsShell.nl ∧
  Stdio.written (ForkBroken.main Stdio.FullyBuffered 1 100).2
    = "starting up (we'll get this message twice)..." +:+ LsShell.nl +:+
      "fork returned 0" +:+ LsShell.nl.
Proof. split; vm_compute; reflexivity. Qed.
